(** * yateto: expression DSL, FLOP accounting, GEMM flags and lowering

    A shallow embedding of
      - [yateto/ast/node.py]           (expression nodes and the operator DSL),
      - [yateto/controlflow/visitor.py] (the AST -> control-flow lowering pass),
      - [yateto/codegen/visitor.py]     (global tensor collection of
                                         [OptimisedKernelGenerator.generate]).

    Python objects live in a store addressed by location, because the DSL
    mutates nodes in place ([_binOp] extends the child list of an existing
    node and returns that very node) and compares nodes by identity
    ([__le__]).  The lowering pass only reads a finished tree and is
    embedded as a structural recursion over an inductive tree, threading the
    state of the pass instance. *)

From Stdlib Require Import ZArith Bool List Lia.
From Stdlib Require Import Floats.SpecFloat DecimalString DecimalNat DecimalFacts.
From stdpp Require Import base option list strings gmap.

Local Open Scope Z_scope.
Set Warnings "-register-all,-clear-no-such-hyp".

(** ** Python exceptions and outcomes *)

Inductive exn :=
| ValueError (msg : string)
| NameError (name : string)
| AttributeError
| IndexError
| AssertionError
| OverflowError
| NotImplementedError
| TypeError.

(** [Stuck] is not a Python outcome: it marks a reference to a location that
    holds no object, or a recursion that used up its fuel. *)
Inductive result (A : Type) :=
| Ok (a : A)
| Raise (e : exn)
| Stuck.
Arguments Ok {A} a.
Arguments Raise {A} e.
Arguments Stuck {A}.

Definition rbind {A B} (r : result A) (k : A -> result B) : result B :=
  match r with
  | Ok a => k a
  | Raise e => Raise e
  | Stuck => Stuck
  end.

(** ** Python floats (IEEE 754 binary64) *)

Definition float := spec_float.
Definition prec : Z := 53.
Definition emax : Z := 1024.

Definition float_1 : float := S754_finite false 4503599627370496 (-52).
Definition float_m1 : float := S754_finite true 4503599627370496 (-52).

(** [float(z)] for a Python int: round to nearest even, [OverflowError] when
    the int is too large for a double. *)
Definition float_of_int (z : Z) : result float :=
  match binary_normalize prec emax z 0 false with
  | S754_infinity _ => Raise OverflowError
  | f => Ok f
  end.

(** Python's [==] on floats. *)
Definition float_eq (a b : float) : bool := SFeqb a b.

(** ** Collaborators that are not part of the three source files *)

(** Modelled from the spec: the sparsity engine ([aspp]) is missing; a
    pattern is an opaque non-zero structure "exposing a non-zero count".  It
    is taken as the flattened boolean mask. *)
Definition spp := list bool.
Definition count_nonzero (p : spp) : Z := Z.of_nat (length (filter (fun b => b = true) p)).

(** Modelled from the spec: [ast/indices.py] is missing; [Indices] is an
    "ordered sequence of unique Index values with per-index extent" with
    "position lookup". *)
Definition Index := string.
Definition Indices := list (Index * Z).

Definition index_names (I : Indices) : list Index := map fst I.
Definition shape (I : Indices) : list Z := map snd I.

(** [I[0]]: the leading index name. *)
Definition Indices_getitem0 (I : Indices) : result Index :=
  match I with
  | [] => Raise IndexError
  | (x, _) :: _ => Ok x
  end.

Fixpoint position (x : Index) (l : list Index) : option nat :=
  match l with
  | [] => None
  | y :: l' => if String.eqb x y then Some O else option_map S (position x l')
  end.

(** [I.find(x)]: the storage position of [x]; an index that does not occur
    has no position (the lookup raises). *)
Definition find (I : Indices) (x : Index) : result Z :=
  match position x (index_names I) with
  | Some p => Ok (Z.of_nat p)
  | None => Raise (ValueError "tuple.index(x): x not in tuple"%string)
  end.

(** Modelled from the spec: the memory-layout engine is missing; a dense
    layout is determined by the shape it was made for. *)
Inductive MemoryLayout :=
| DenseMemoryLayout (shape : list Z).

(** Modelled from the spec: the Tensor collaborator "exposes name, base
    name, group tag, shape, sparsity pattern, memory layout". *)
Record Tensor := mkTensor {
  t_name : string;
  t_baseName : string;
  t_group : option Z;
  t_shape : list Z;
  t_spp : spp;
  t_memoryLayout : MemoryLayout }.

(** ** Values and node classes *)

(** The Python values that are not nodes: numbers, a named runtime scalar
    (a [Scalar] object), [None] and strings. *)
Inductive pyval :=
| PyInt (z : Z)
| PyFloat (f : float)
| PyScalar (name : string)
| PyNone
| PyStr (s : string).

(** The concrete classes below [Node], each with the attributes its
    constructor adds. *)
Inductive cls :=
| IndexedTensor (tensor : Tensor)
| Einsum
| Add
| ScalarMultiplication (_isConstant : bool) (_scalar : pyval)
| IndexSum (_sumIndex : Indices)
| Product
| Contraction (sumIndices : Indices)
| LoopOverGEMM (_m _n _k : Indices) (_transA _transB : bool)
| Assign.

Inductive tag :=
| TIndexedTensor | TEinsum | TAdd | TScalarMultiplication | TIndexSum
| TProduct | TContraction | TLoopOverGEMM | TAssign.

Definition tag_of (c : cls) : tag :=
  match c with
  | IndexedTensor _ => TIndexedTensor
  | Einsum => TEinsum
  | Add => TAdd
  | ScalarMultiplication _ _ => TScalarMultiplication
  | IndexSum _ => TIndexSum
  | Product => TProduct
  | Contraction _ => TContraction
  | LoopOverGEMM _ _ _ _ _ => TLoopOverGEMM
  | Assign => TAssign
  end.

Global Instance tag_eq_dec : EqDecision tag.
Proof. solve_decision. Defined.

(** [isinstance(o, T)] for a concrete class [T] (none of them has a
    subclass). *)
Definition isinstance (c : cls) (t : tag) : bool := bool_decide (tag_of c = t).

(** The attributes every node carries ([Node.__init__], [Op.__init__]). *)
Record attrs := mkAttrs {
  klass : cls;
  indices : option Indices;
  _eqspp : option spp;
  _memoryLayout : option MemoryLayout;
  prefetch : option Tensor }.

(** ** The object store of the DSL *)

Abbreviation loc := nat.

(** A node object: its attributes and its child list, which holds
    references. *)
Record object := mkObject {
  o_attrs : attrs;
  _children : list loc }.

Abbreviation heap := (list object).

(** Stateful computations that return a value or raise; the DSL runs over
    the object store. *)
Definition ST (S A : Type) : Type := S -> result (A * S).
Abbreviation M := (ST heap).

Definition ret {S A} (a : A) : ST S A := fun s => Ok (a, s).
Definition bind {S A B} (m : ST S A) (k : A -> ST S B) : ST S B :=
  fun s => match m s with
           | Ok (a, s') => k a s'
           | Raise e => Raise e
           | Stuck => Stuck
           end.
Definition raise {S A} (e : exn) : ST S A := fun _ => Raise e.
Definition stuck {S A} : ST S A := fun _ => Stuck.
Definition lift {S A} (r : result A) : ST S A :=
  fun s => match r with
           | Ok a => Ok (a, s)
           | Raise e => Raise e
           | Stuck => Stuck
           end.

Notation "'do' x <- m ; k" := (bind m (fun x => k))
  (at level 10, x name, m at level 100, k at level 200).
Notation "m ;; k" := (bind m (fun _ => k))
  (at level 100, k at level 200, right associativity).

Definition get (l : loc) : M object :=
  fun h => match h !! l with
           | Some o => Ok (o, h)
           | None => Stuck
           end.

Definition put (l : loc) (o : object) : M unit :=
  fun h => Ok (tt, <[l := o]> h).

(** A new object gets the next free location. *)
Definition alloc (o : object) : M loc :=
  fun h => Ok (length h, h ++ [o]).

Definition class_of (l : loc) : M cls :=
  do o <- get l; ret (klass (o_attrs o)).

Definition set_children (l : loc) (cs : list loc) : M unit :=
  do o <- get l; put l (mkObject (o_attrs o) cs).

Definition set_indices (l : loc) (i : option Indices) : M unit :=
  do o <- get l;
  let a := o_attrs o in
  put l (mkObject (mkAttrs (klass a) i (_eqspp a) (_memoryLayout a) (prefetch a))
                  (_children o)).

(** ** [yateto/ast/node.py] *)

(** [Op.__init__(self, *args)] after [Node.__init__]: no indices, no
    sparsity pattern, no memory layout, no prefetch, and the arguments as
    the child list.  The list is stored as it is: no [setChildren] runs. *)
Definition Op_init (c : cls) (args : list loc) : M loc :=
  alloc (mkObject (mkAttrs c None None None None) args).

(** [IndexedTensor(tensor, indexNames)]: a leaf with the given index names
    over the tensor's shape. *)
Definition IndexedTensor_init (tensor : Tensor) (indexNames : list Index) : M loc :=
  alloc (mkObject (mkAttrs (IndexedTensor tensor)
                           (Some (combine indexNames (t_shape tensor)))
                           None None None) []).

Definition MultipleScalarMults : string :=
  "Multiple multiplications with scalars are not allowed. Merge them into a single one."%string.

Definition _checkMultipleScalarMults (self : loc) : M unit :=
  do c <- class_of self;
  if isinstance c TScalarMultiplication
  then raise (ValueError MultipleScalarMults)
  else ret tt.

(** [Node._binOp(self, other, opType)]; [opType] is [Einsum] or [Add]. *)
Definition _binOp (self other : loc) (opType : cls) : M loc :=
  do s <- get self;
  do o <- get other;
  if isinstance (klass (o_attrs s)) (tag_of opType) then
    (if isinstance (klass (o_attrs o)) (tag_of opType)
     then set_children self (_children s ++ _children o)
     else set_children self (_children s ++ [other])) ;;
    ret self
  else if isinstance (klass (o_attrs o)) (tag_of opType) then
    set_children other (self :: _children o) ;;
    ret other
  else Op_init opType [self; other].

(** [UnaryOp.term]: [self._children[0]]. *)
Definition term (self : loc) : M loc :=
  do o <- get self;
  match _children o with
  | t :: _ => ret t
  | [] => raise IndexError
  end.

(** [fixedIndexPermutation]: [True] on [Node], [False] on [Op], and the
    term's answer on [ScalarMultiplication]. *)
Fixpoint fixedIndexPermutation (fuel : nat) (self : loc) : M bool :=
  match fuel with
  | O => stuck
  | S fuel' =>
      do c <- class_of self;
      match c with
      | IndexedTensor _ => ret true
      | ScalarMultiplication _ _ =>
          do t <- term self; fixedIndexPermutation fuel' t
      | _ => ret false
      end
  end.

(** [ScalarMultiplication.setTerm]. *)
Definition setTerm (fuel : nat) (self t : loc) : M unit :=
  do o <- get self;
  match _children o with
  | [] => raise IndexError
  | _ :: rest =>
      set_children self (t :: rest) ;;
      do fixed <- fixedIndexPermutation fuel self;
      if fixed
      then (do ot <- get t; set_indices self (indices (o_attrs ot)))
      else set_indices self None
  end.

(** [ScalarMultiplication.__init__(scalar, term)]. *)
Definition ScalarMultiplication_init (fuel : nat) (scalar : pyval) (t : loc) : M loc :=
  do stored <- lift (match scalar with
                     | PyFloat f => Ok (true, PyFloat f)
                     | PyInt z => rbind (float_of_int z) (fun f => Ok (true, PyFloat f))
                     | v => Ok (false, v)
                     end);
  do self <- Op_init (ScalarMultiplication (fst stored) (snd stored)) [t];
  setTerm fuel self t ;;
  ret self.

(** A Python operand of an operator: a node or some other value. *)
Inductive operand :=
| ONode (l : loc)
| OVal (v : pyval).

(** [Node.__mul__].  The recursion goes into the term of a
    [ScalarMultiplication] operand. *)
Fixpoint __mul__ (fuel : nat) (self : loc) (other : operand) : M loc :=
  match fuel with
  | O => stuck
  | S fuel' =>
      match other with
      | OVal v =>
          _checkMultipleScalarMults self ;;
          ScalarMultiplication_init fuel' v self
      | ONode other =>
          do cs <- class_of self;
          do co <- class_of other;
          if isinstance cs TScalarMultiplication then
            _checkMultipleScalarMults other ;;
            do t <- term self;
            do p <- __mul__ fuel' t (ONode other);
            setTerm fuel' self p ;;
            ret self
          else if isinstance co TScalarMultiplication then
            _checkMultipleScalarMults self ;;
            do t <- term other;
            do p <- __mul__ fuel' self (ONode t);
            setTerm fuel' other p ;;
            ret other
          else _binOp self other Einsum
      end
  end.

(** [Node.__rmul__]: [other * self] when [other] is not a node. *)
Definition __rmul__ (fuel : nat) (self : loc) (other : pyval) : M loc :=
  __mul__ fuel self (OVal other).

(** ** Rendering: [__str__] and the messages built with it *)

(** The Python built-ins the renderings go through and that are kept
    abstract: [str] on a float; [re.sub(pattern, repl, string)], which
    raises when the pattern does not compile; and [''.join] over a set,
    whose iteration order Python leaves open. *)
Record builtins := mkBuiltins {
  str_float : float -> string;
  re_sub : string -> string -> string -> result string;
  join_set : gset string -> string }.

(** [str(n)] of a non-negative Python int. *)
Definition str_nat (n : nat) : string :=
  DecimalString.NilZero.string_of_uint (Nat.to_uint n).

(** [str(z)] of a Python int. *)
Definition str_int (z : Z) : string :=
  DecimalString.NilZero.string_of_int (Z.to_int z).

(** Modelled from the spec: the [Scalar] class is missing; a "named
    runtime scalar" is rendered as its name.  The other cases are Python's
    [str] on an int, a float, [None] and a string. *)
Definition str_pyval (py : builtins) (v : pyval) : string :=
  match v with
  | PyInt z => str_int z
  | PyFloat f => str_float py f
  | PyScalar name => name
  | PyNone => "None"%string
  | PyStr s => s
  end.

(** Modelled from the spec: [str(indices)] is the "stable string rendering"
    of an [Indices] value, its index names in order. *)
Definition str_Indices (I : Indices) : string :=
  String.concat EmptyString (index_names I).

(** [str(node.indices)]: the attribute may be [None]. *)
Definition str_indices (i : option Indices) : string :=
  match i with
  | Some ix => str_Indices ix
  | None => "None"%string
  end.

(** [type(self).__name__]. *)
Definition class_name (c : cls) : string :=
  match c with
  | IndexedTensor _ => "IndexedTensor"
  | Einsum => "Einsum"
  | Add => "Add"
  | ScalarMultiplication _ _ => "ScalarMultiplication"
  | IndexSum _ => "IndexSum"
  | Product => "Product"
  | Contraction _ => "Contraction"
  | LoopOverGEMM _ _ _ _ _ => "LoopOverGEMM"
  | Assign => "Assign"
  end%string.

(** [Op.__str__]: the class name and the indices, or a placeholder while
    they are not deduced. *)
Definition Op_str (a : attrs) : string :=
  (class_name (klass a) +:+ "[" +:+
   match indices a with
   | Some ix => str_Indices ix
   | None => "<not deduced>"
   end +:+ "]")%string.

(** The loop of [LoopOverGEMM.indexString] over [fused], with [indexStr]
    and [batchedIndices]. *)
Fixpoint indexString_loop (py : builtins) (fused : list Indices) (indexStr : string)
    (batchedIndices : gset string) : result (string * gset string) :=
  match fused with
  | [] => Ok (indexStr, batchedIndices)
  | fs :: rest =>
      rbind (if (1 <? length fs)%nat
             then re_sub py ("([" +:+ str_Indices fs +:+ "]{" +:+ str_nat (length fs) +:+ ","
                               +:+ str_nat (length fs) +:+ "})")%string
                            "(\1)"%string indexStr
             else Ok indexStr)
            (fun indexStr =>
               indexString_loop py rest indexStr
                 (batchedIndices ∖ list_to_set (index_names fs)))
  end.

(** [LoopOverGEMM.indexString(name, fused, indices, transpose)].
    [str(indices)] renders [None] as well, but [set(indices)] needs an
    iterable: on [None] it raises [TypeError]. *)
Definition indexString (py : builtins) (name : string) (fused : list Indices)
    (indices : option Indices) (transpose : bool) : result string :=
  match indices with
  | None => Raise TypeError
  | Some ix =>
      rbind (indexString_loop py fused (str_Indices ix) (list_to_set (index_names ix)))
            (fun r =>
      rbind (if bool_decide (snd r <> ∅)
             then re_sub py ("([" +:+ join_set py (snd r) +:+ "])")%string "[\1]"%string (fst r)
             else Ok (fst r))
            (fun indexStr =>
      Ok (name +:+ (if transpose then "^T" else EmptyString) +:+ "_{" +:+ indexStr +:+ "}")%string))
  end.

(** [BinOp.leftTerm] and [BinOp.rightTerm]: [self._children[0]] and
    [self._children[1]]. *)
Definition leftTerm (self : loc) : M loc :=
  do o <- get self;
  match _children o with
  | l :: _ => ret l
  | [] => raise IndexError
  end.

Definition rightTerm (self : loc) : M loc :=
  do o <- get self;
  match _children o with
  | _ :: r :: _ => ret r
  | _ => raise IndexError
  end.

(** [node.indices]. *)
Definition indices_of (self : loc) : M (option Indices) :=
  do o <- get self; ret (indices (o_attrs o)).

(** [str(self)] on a node: [IndexedTensor.__str__],
    [ScalarMultiplication.__str__], [LoopOverGEMM.__str__], and [Op.__str__]
    for the classes that do not define their own.  [LoopOverGEMM] renders
    the left operand first, then the right one, then the result. *)
Definition __str__ (py : builtins) (self : loc) : M string :=
  do o <- get self;
  let a := o_attrs o in
  match klass a with
  | IndexedTensor tensor =>
      ret (t_name tensor +:+ "[" +:+ str_indices (indices a) +:+ "]")%string
  | ScalarMultiplication _ scalar =>
      ret (Op_str a +:+ ": " +:+ str_pyval py scalar)%string
  | LoopOverGEMM m n k tA tB =>
      do l <- leftTerm self;
      do il <- indices_of l;
      do Astr <- lift (indexString py "A" [m; k] il tA);
      do r <- rightTerm self;
      do ir <- indices_of r;
      do Bstr <- lift (indexString py "B" [k; n] ir tB);
      do Cstr <- lift (indexString py "C" [m; n] (indices a) false);
      ret ("LoopOverGEMM [" +:+ str_indices (indices a) +:+ "]: " +:+ Cstr +:+ " = "
             +:+ Astr +:+ " " +:+ Bstr)%string
  | _ => ret (Op_str a)
  end.

(** The message of [__add__] for the rendered operands. *)
Definition UnsupportedAdd (self other : string) : string :=
  ("Unsupported operation: Cannot add " +:+ self +:+ " to " +:+ other +:+ ".")%string.

(** [Node.__add__].  For an operand that is not a node the message is
    built first, from [str(self)] and then [str(other)]; the [ValueError]
    is raised once both are there. *)
Definition __add__ (py : builtins) (self : loc) (other : operand) : M loc :=
  match other with
  | OVal v =>
      do s <- __str__ py self;
      raise (ValueError (UnsupportedAdd s (str_pyval py v)))
  | ONode other => _binOp self other Add
  end.

(** [Node.__radd__]: [other + self] when [other] is not a node. *)
Definition __radd__ (py : builtins) (self : loc) (other : pyval) : M loc :=
  __add__ py self (OVal other).

(** [Node.__neg__]. *)
Definition __neg__ (fuel : nat) (self : loc) : M loc :=
  _checkMultipleScalarMults self ;;
  ScalarMultiplication_init fuel (PyFloat float_m1) self.

(** [Assign(lTerm, rTerm)]: [BinOp.__init__] passes both to [Op.__init__]. *)
Definition Assign_init (lTerm rTerm : loc) : M loc :=
  Op_init Assign [lTerm; rTerm].

Definition BinOpArity : string := "BinOp node must have exactly 2 children."%string.
Definition AssignFirstChild : string :=
  "First child of Assign node must be an IndexedTensor: "%string.

(** [BinOp.setChildren]. *)
Definition BinOp_setChildren (self : loc) (children : list loc) : M unit :=
  if negb (length children =? 2)%nat
  then raise (ValueError BinOpArity)
  else set_children self children.

(** [Assign.setChildren]; the message ends in [str(children[0])], which is
    evaluated before the [ValueError] is raised. *)
Definition Assign_setChildren (py : builtins) (self : loc) (children : list loc) : M unit :=
  match children with
  | [] => raise IndexError
  | c0 :: _ =>
      do c <- class_of c0;
      if negb (isinstance c TIndexedTensor)
      then (do s <- __str__ py c0; raise (ValueError (AssignFirstChild +:+ s)))
      else BinOp_setChildren self children
  end.

(** [Node.__le__] with a node on the right; [self == other] is object
    identity, as [Node] defines no [__eq__]. *)
Definition __le__ (self other : loc) : M loc :=
  do co <- class_of other;
  if isinstance co TIndexedTensor && negb (self =? other)%nat
  then (do e <- Op_init Einsum [other]; Assign_init self e)
  else Assign_init self other.

(** [node.eqspp()]. *)
Definition eqspp (self : loc) : M (option spp) :=
  do o <- get self; ret (_eqspp (o_attrs o)).

(** [p.count_nonzero()] on what [eqspp()] returned: [None] has no such
    method. *)
Definition spp_count_nonzero (p : option spp) : M Z :=
  match p with
  | Some p => ret (count_nonzero p)
  | None => raise AttributeError
  end.

(** The loop of [Add.nonZeroFlops] over the children, with its
    accumulator. *)
Fixpoint sum_children_nonzero (children : list loc) (nzFlops : Z) : M Z :=
  match children with
  | [] => ret nzFlops
  | child :: rest =>
      do p <- eqspp child;
      do n <- spp_count_nonzero p;
      sum_children_nonzero rest (nzFlops + n)
  end.

(** [Add.nonZeroFlops]. *)
Definition Add_nonZeroFlops (self : loc) : M Z :=
  do o <- get self;
  do nzFlops <- sum_children_nonzero (_children o) 0;
  do p <- eqspp self;
  do n <- spp_count_nonzero p;
  ret (nzFlops - n).

(** [scalar in [-1.0, 1.0]]: Python's [==] against the two floats. *)
Definition in_minus_one_one (scalar : pyval) : bool :=
  match scalar with
  | PyFloat f => float_eq f float_m1 || float_eq f float_1
  | PyInt z => (z =? -1) || (z =? 1)
  | _ => false
  end.

(** [ScalarMultiplication.nonZeroFlops]; the method exists on that class
    only. *)
Definition ScalarMultiplication_nonZeroFlops (self : loc) : M Z :=
  do c <- class_of self;
  match c with
  | ScalarMultiplication isConstant scalar =>
      if isConstant && in_minus_one_one scalar
      then ret 0
      else (do p <- eqspp self; spp_count_nonzero p)
  | _ => stuck
  end.

(** [aTerm.indices.find(x[0])]: the attribute lookup [.find] on a missing
    [indices] fails before [x[0]] is evaluated. *)
Definition find_leading (t : loc) (x : Indices) : M Z :=
  do o <- get t;
  match indices (o_attrs o) with
  | None => raise AttributeError
  | Some ix => do x0 <- lift (Indices_getitem0 x); lift (find ix x0)
  end.

(** [len(n) == 0], the test of [LoopOverGEMM.isGEMV]. *)
Definition isGEMV_of (n : Indices) : bool := (length n =? 0)%nat.

(** [LoopOverGEMM.__init__(indices, aTerm, bTerm, m, n, k)]. *)
Definition LoopOverGEMM_init (ix : Indices) (aTerm bTerm : loc) (m n k : Indices) : M loc :=
  do pm <- find_leading aTerm m;
  do pk <- find_leading aTerm k;
  let transA := pm >? pk in
  do transB <- (if negb (isGEMV_of n)
                then (do qk <- find_leading bTerm k;
                      do qn <- find_leading bTerm n;
                      ret (qk >? qn))
                else ret false);
  alloc (mkObject (mkAttrs (LoopOverGEMM m n k transA transB) (Some ix) None None None)
                  [aTerm; bTerm]).

(** [LoopOverGEMM.isGEMV], [transA], [transB]. *)
Definition isGEMV (self : loc) : M bool :=
  do c <- class_of self;
  match c with
  | LoopOverGEMM _ n _ _ _ => ret (isGEMV_of n)
  | _ => stuck
  end.

Definition transA (self : loc) : M bool :=
  do c <- class_of self;
  match c with
  | LoopOverGEMM _ _ _ tA _ => ret tA
  | _ => stuck
  end.

Definition transB (self : loc) : M bool :=
  do c <- class_of self;
  match c with
  | LoopOverGEMM _ _ _ _ tB => ret tB
  | _ => stuck
  end.

(** ** Finished expression trees *)

(** The tree the lowering pass reads: the attributes of a node and its
    children, which are owned by it alone. *)
Inductive tree :=
| T (a : attrs) (children : list tree).

Definition node_attrs (n : tree) : attrs := match n with T a _ => a end.
Definition node_children (n : tree) : list tree := match n with T _ cs => cs end.

(** [node.name()]: the tensor's name on [IndexedTensor]; on
    [ScalarMultiplication] the rendered constant or the runtime scalar's
    name; the other classes have no such method.  [float_str] stands for
    Python's [str] on a float. *)
Definition node_name (float_str : float -> string) (a : attrs) : result string :=
  match klass a with
  | IndexedTensor t => Ok (t_name t)
  | ScalarMultiplication true (PyFloat f) => Ok (float_str f)
  | ScalarMultiplication true _ => Stuck
  | ScalarMultiplication false (PyScalar nm) => Ok nm
  | _ => Raise AttributeError
  end.

(** [node.memoryLayout()]: the tensor's on a leaf, [_memoryLayout] on an
    [Op]. *)
Definition node_memoryLayout (a : attrs) : option MemoryLayout :=
  match klass a with
  | IndexedTensor t => Some (t_memoryLayout t)
  | _ => _memoryLayout a
  end.

(** [node.shape()] is [self.indices.shape()]. *)
Definition node_shape (a : attrs) : result (list Z) :=
  match indices a with
  | Some ix => Ok (shape ix)
  | None => Raise AttributeError
  end.

(** ** [yateto/controlflow]: the operands and actions of the control flow *)

(** Modelled from the spec: [controlflow/graph.py] is missing.  A Variable
    has a "name, writability flag, memory layout, optional sparsity
    pattern/group (if referencing a global Tensor) or none (if a compiler
    temporary)". *)
Record Variable_ := mkVariable {
  v_name : string;
  v_writable : bool;
  v_memoryLayout : option MemoryLayout;
  v_eqspp : option spp;
  v_tensor : option Tensor }.

(** Modelled from the spec: a global variable is "a Variable referencing a
    user-named Tensor rather than a temporary". *)
Definition isGlobal (v : Variable_) : bool :=
  match v_tensor v with
  | Some _ => true
  | None => false
  end.

(** Modelled from the spec: the term of an action is "an expression node
    with its ordered input Variables, or a single source Variable for a
    plain copy". *)
Inductive Term :=
| TermVariable (v : Variable_)
| Expression (node : tree) (ml : option MemoryLayout) (variables : list Variable_).

(** Modelled from the spec: a ProgramAction has a "result Variable, a term,
    accumulate flag, optional scalar factor". *)
Record ProgramAction := mkProgramAction {
  a_result : Variable_;
  a_term : Term;
  a_add : bool;
  a_scalar : option pyval }.

(** Modelled from the spec: a ProgramPoint wraps "one action (or none, as
    end sentinel)". *)
Record ProgramPoint := mkProgramPoint {
  action : option ProgramAction }.

(** ** [yateto/controlflow/visitor.py]: [AST2ControlFlow] *)

(** The state of one pass instance ([AST2ControlFlow.__init__]). *)
Record AST2ControlFlow := mkPass {
  _tmp : nat;
  _cfg : list ProgramPoint;
  _writable : gset string;
  _simpleMemoryLayout : bool }.

Definition AST2ControlFlow_init (simpleMemoryLayout : bool) : AST2ControlFlow :=
  mkPass 0 [] ∅ simpleMemoryLayout.

Abbreviation P := (ST AST2ControlFlow).

Definition TEMPORARY_RESULT : string := "_tmp"%string.

(** [cfg()]: the program points so far and the sentinel. *)
Definition cfg (st : AST2ControlFlow) : list ProgramPoint :=
  _cfg st ++ [mkProgramPoint None].

(** [_ml(node)]. *)
Definition _ml (node : tree) : P (option MemoryLayout) :=
  fun st =>
    if _simpleMemoryLayout st
    then rbind (node_shape (node_attrs node))
               (fun sh => Ok (Some (DenseMemoryLayout sh), st))
    else Ok (node_memoryLayout (node_attrs node), st).

(** [_addAction(action)]. *)
Definition _addAction (a : ProgramAction) : P unit :=
  fun st => Ok (tt, mkPass (_tmp st) (_cfg st ++ [mkProgramPoint (Some a)])
                           (_writable st) (_simpleMemoryLayout st)).

(** [_nextTemporary(node)]. *)
Definition _nextTemporary (node : tree) : P Variable_ :=
  fun st =>
    let name := (TEMPORARY_RESULT +:+ str_nat (_tmp st)) in
    let st' := mkPass (S (_tmp st)) (_cfg st) (_writable st) (_simpleMemoryLayout st) in
    rbind (_ml node st')
          (fun r => Ok (mkVariable name true (fst r) (_eqspp (node_attrs node)) None,
                        snd r)).

(** [[f(x) for x in l]] with the effects of [f] in list order. *)
Definition mapM {S A B} (f : A -> ST S B) : list A -> ST S (list B) :=
  fix go (l : list A) : ST S (list B) :=
    match l with
    | [] => ret []
    | x :: l' => do y <- f x; do ys <- go l'; ret (y :: ys)
    end.

(** [list.sort(key=key)]: ascending in the key and stable.  Each element
    is put in front of the sorted rest of the list, before the first element
    whose key is not smaller. *)
Fixpoint insert_by_key {A} (key : A -> Z) (x : A) (l : list A) : list A :=
  match l with
  | [] => [x]
  | y :: l' => if key x <=? key y then x :: y :: l' else y :: insert_by_key key x l'
  end.

Definition sort_by_key {A} (key : A -> Z) (l : list A) : list A :=
  foldr (fun x acc => insert_by_key key x acc) [] l.

(** The sort key of [visit_Add]:
    [int(not var.writable) + int(not var.isGlobal())]. *)
Definition add_key (var : Variable_) : Z :=
  Z.b2z (negb (v_writable var)) + Z.b2z (negb (isGlobal var)).

(** The loop of [visit_Add] over the sorted operands, with its [add]
    flag. *)
Fixpoint add_actions (tmp : Variable_) (variables : list Variable_) (add : bool) : P unit :=
  match variables with
  | [] => ret tt
  | var :: rest =>
      _addAction (mkProgramAction tmp (TermVariable var) add None) ;;
      add_actions tmp rest true
  end.

Definition set_writable (name : string) : P unit :=
  fun st => Ok (tt, mkPass (_tmp st) (_cfg st) (_writable st ∪ {[ name ]})
                           (_simpleMemoryLayout st)).

Section Methods.
Variable float_str : float -> string.
(** [self.visit], the dispatcher the methods call on children. *)
Variable visit : tree -> P Variable_.

Definition generic_visit (node : tree) : P Variable_ :=
  do variables <- mapM visit (node_children node);
  do result <- _nextTemporary node;
  do ml <- _ml node;
  _addAction (mkProgramAction result (Expression node ml variables) false None) ;;
  ret result.

Definition visit_Add (node : tree) : P Variable_ :=
  do variables <- mapM visit (node_children node);
  if negb (1 <? length variables)%nat then raise AssertionError else
  let variables := sort_by_key add_key variables in
  do tmp <- _nextTemporary node;
  add_actions tmp variables false ;;
  ret tmp.

Definition visit_ScalarMultiplication (node : tree) : P Variable_ :=
  match node_children node, klass (node_attrs node) with
  | [], _ => raise IndexError
  | t :: _, ScalarMultiplication _ scalar =>
      do variable <- visit t;
      do result <- _nextTemporary node;
      _addAction (mkProgramAction result (TermVariable variable) false (Some scalar)) ;;
      ret result
  | _ :: _, _ => stuck
  end.

Definition visit_Assign (node : tree) : P Variable_ :=
  match node_children node with
  | [] => raise IndexError
  | c0 :: _ =>
      do name <- lift (node_name float_str (node_attrs c0));
      set_writable name ;;
      do variables <- mapM visit (node_children node);
      match variables with
      | v0 :: v1 :: _ =>
          _addAction (mkProgramAction v0 (TermVariable v1) false None) ;;
          ret v0
      | _ => raise IndexError
      end
  end.

Definition visit_IndexedTensor (node : tree) : P Variable_ :=
  match klass (node_attrs node) with
  | IndexedTensor tensor =>
      fun st =>
        rbind (_ml node st)
              (fun r => Ok (mkVariable (t_name tensor)
                                       (bool_decide (t_name tensor ∈ _writable st))
                                       (fst r)
                                       (_eqspp (node_attrs node))
                                       (Some tensor),
                            snd r))
  | _ => stuck
  end.
End Methods.

(** Modelled from the spec: [ast/visitor.py] is missing; [visit] picks "one
    behavior per node kind", with the generic rule for a kind that has "no
    dedicated rule". *)
Fixpoint visit (float_str : float -> string) (node : tree) {struct node} : P Variable_ :=
  match node with
  | T a children =>
      match klass a with
      | Add => visit_Add (visit float_str) (T a children)
      | ScalarMultiplication _ _ => visit_ScalarMultiplication (visit float_str) (T a children)
      | Assign => visit_Assign float_str (visit float_str) (T a children)
      | IndexedTensor _ => visit_IndexedTensor (T a children)
      | _ => generic_visit (visit float_str) (T a children)
      end
  end.

(** ** [yateto/codegen/visitor.py]: [OptimisedKernelGenerator.generate] *)

(** The [OrderedDict] [tensors]: base name to [None] (a single tensor) or
    to the set of groups seen, in insertion order. *)
Abbreviation tensors_t := (list (string * option (gset Z))).

Fixpoint od_get (bn : string) (d : tensors_t) : option (option (gset Z)) :=
  match d with
  | [] => None
  | (k, v) :: d' => if String.eqb k bn then Some v else od_get bn d'
  end.

(** [d[bn] = v]: an existing key keeps its place, a new one goes last. *)
Fixpoint od_set (bn : string) (v : option (gset Z)) (d : tensors_t) : tensors_t :=
  match d with
  | [] => [(bn, v)]
  | (k, w) :: d' => if String.eqb k bn then (k, v) :: d' else (k, w) :: od_set bn v d'
  end.

(** The body of the loop [for var in variables] of [generate].  In the
    [raise] statement the message is built from [node.name()] first, and no
    [node] is bound in [generate] or in the module: evaluating the name
    fails before any [ValueError] exists. *)
Definition collect_tensor (var : Variable_) (tensors : tensors_t) : result tensors_t :=
  match v_tensor var with
  | None => Raise AttributeError
  | Some t =>
      let bn := t_baseName t in
      let g := t_group t in
      match od_get bn tensors with
      | Some p =>
          match p, g with
          | Some p, Some g => Ok (od_set bn (Some (p ∪ {[ g ]})) tensors)
          | None, None => Ok tensors
          | _, _ => Raise (NameError "node"%string)
          end
      | None =>
          Ok (od_set bn (match g with Some g => Some {[ g ]} | None => None end) tensors)
      end
  end.

(** The loop itself; [variables] is what [SortedGlobalsList().visit(cfg)]
    returned. *)
Fixpoint collect_tensors (variables : list Variable_) (tensors : tensors_t) : result tensors_t :=
  match variables with
  | [] => Ok tensors
  | var :: rest => rbind (collect_tensor var tensors) (collect_tensors rest)
  end.

(** The message the [raise] statement of [generate] is written to
    build. *)
Definition MixedGroups (name bn : string) : string :=
  ("Grouped tensors (" +:+ name +:+ ") and single tensors (" +:+ bn
     +:+ ") may not appear mixed in a kernel.")%string.

(** ** Compositions the properties speak about *)

(** The object [Op.__init__] creates for class [c] with children [cs]. *)
Definition fresh_op (c : cls) (cs : list loc) : object :=
  mkObject (mkAttrs c None None None None) cs.

(** [(a + b) + c] and [a + (b + c)]. *)
Definition add3_left (py : builtins) (a b c : loc) : M loc :=
  do ab <- __add__ py a (ONode b); __add__ py ab (ONode c).
Definition add3_right (py : builtins) (a b c : loc) : M loc :=
  do bc <- __add__ py b (ONode c); __add__ py a (ONode bc).

(** [(a + b) <= c]. *)
Definition assign_to_sum (py : builtins) (a b c : loc) : M loc :=
  do ab <- __add__ py a (ONode b); __le__ ab c.

(** [l] holds an object of class tag [t] in [h]. *)
Definition has_class (h : heap) (l : loc) (t : tag) : Prop :=
  exists o, h !! l = Some o /\ tag_of (klass (o_attrs o)) = t.

(** The wrapper that [s * e] and [e * s] leave behind: [s] itself, with the
    product [p] in place of its term and its indices dropped. *)
Definition merged_wrapper (o : object) (p : loc) : object :=
  mkObject (mkAttrs (klass (o_attrs o)) None (_eqspp (o_attrs o))
                    (_memoryLayout (o_attrs o)) (prefetch (o_attrs o)))
           (p :: tail (_children o)).

(** What "the assignment operator always wraps a bare tensor on the right"
    would mean: for tensors [a] and [b], [a <= b] is an [Assign] of [a] and
    of an [Einsum] that holds [b]. *)
Definition le_always_wraps : Prop :=
  forall (h : heap) (a b : loc),
    has_class h a TIndexedTensor -> has_class h b TIndexedTensor ->
    exists r h' e o oe,
      __le__ a b h = Ok (r, h') /\
      h' !! r = Some o /\ klass (o_attrs o) = Assign /\ _children o = [a; e] /\
      h' !! e = Some oe /\ klass (o_attrs oe) = Einsum /\ _children oe = [b].

(** ** A small store for the examples *)

Definition dense23 : MemoryLayout := DenseMemoryLayout [2; 3].
Definition full23 : spp := [true; true; true; true; true; true].

Definition tX : Tensor := mkTensor "X" "X" None [2; 3] full23 dense23.
Definition tY : Tensor := mkTensor "Y" "Y" None [2; 3] full23 dense23.
Definition tZ : Tensor := mkTensor "Z" "Z" None [2; 3] full23 dense23.

Definition ij : list Index := ["i"%string; "j"%string].

(** The store after [X['ij']], [Y['ij']], [Z['ij']] were created, in that
    order: they are at locations 0, 1 and 2. *)
Definition store_XYZ : heap :=
  match (IndexedTensor_init tX ij ;; IndexedTensor_init tY ij ;;
         IndexedTensor_init tZ ij) [] with
  | Ok (_, h) => h
  | _ => []
  end.

(** The same store after [s = 3 * X]: [s] is at location 3. *)
Definition store_3X : heap :=
  match __rmul__ 3 0%nat (PyInt 3) store_XYZ with
  | Ok (_, h) => h
  | _ => []
  end.

(** The patterns of the nodes at [ls], when each of them is in the store
    and has one. *)
Fixpoint patterns_of (h : heap) (ls : list loc) : option (list spp) :=
  match ls with
  | [] => Some []
  | l :: ls' =>
      match h !! l, patterns_of h ls' with
      | Some o, Some ps =>
          match _eqspp (o_attrs o) with
          | Some p => Some (p :: ps)
          | None => None
          end
      | _, _ => None
      end
  end.

(** The sum of the non-zero counts of the patterns [ps]. *)
Definition sum_nonzero (ps : list spp) : Z :=
  foldr (fun p acc => count_nonzero p + acc) 0 ps.

(** [store_XYZ] with the patterns of [X], [Y] fixed, an [Add] of the two at
    location 3 and [-1.0 * Z], [0.5 * Z] at locations 4 and 5. *)
Definition with_pattern (p : spp) (o : object) : object :=
  let a := o_attrs o in
  mkObject (mkAttrs (klass a) (indices a) (Some p) (_memoryLayout a) (prefetch a))
           (_children o).

Definition float_half : float := S754_finite false 4503599627370496 (-53).

Definition store_flops : heap :=
  [ with_pattern [true; false; true; false; false; false]
                 (mkObject (mkAttrs (IndexedTensor tX) None None None None) []);
    with_pattern [true; true; false; false; false; false]
                 (mkObject (mkAttrs (IndexedTensor tY) None None None None) []);
    mkObject (mkAttrs (IndexedTensor tZ) None None None None) [];
    with_pattern [true; true; true; false; false; false] (fresh_op Add [0; 1]%nat);
    with_pattern full23 (fresh_op (ScalarMultiplication true (PyFloat float_m1)) [2%nat]);
    with_pattern full23 (fresh_op (ScalarMultiplication true (PyFloat float_half)) [2%nat]) ].

(** [A['ik']] and [B['kj']] for the GEMM examples, at locations 0 and 1,
    and [B] stored as [B['jk']] at location 2. *)
Definition store_gemm : heap :=
  match (IndexedTensor_init tX ["i"; "k"]%string ;;
         IndexedTensor_init tY ["k"; "j"]%string ;;
         IndexedTensor_init tY ["j"; "k"]%string) [] with
  | Ok (_, h) => h
  | _ => []
  end.

Definition ix_i : Indices := [("i"%string, 2)].
Definition ix_j : Indices := [("j"%string, 3)].
Definition ix_k : Indices := [("k"%string, 3)].
Definition ix_ij : Indices := [("i"%string, 2); ("j"%string, 3)].

(** [p] is the storage position, in the index order of the node at [t], of
    the leading index of [x]. *)
Definition leading_position (h : heap) (t : loc) (x : Indices) (p : Z) : Prop :=
  exists o ix x0 rest q,
    h !! t = Some o /\ indices (o_attrs o) = Some ix /\
    x = x0 :: rest /\ position (fst x0) (index_names ix) = Some q /\ p = Z.of_nat q.

(** The node [LoopOverGEMM(ij, A['ik'], B['jk'], i, j, k)] builds, and the
    store that holds it at location 3. *)
Definition gemm_node : object :=
  mkObject (mkAttrs (LoopOverGEMM ix_i ix_j ix_k false true) (Some ix_ij) None None None)
           [0; 2]%nat.
Definition store_gemm_node : heap := store_gemm ++ [gemm_node].

(** ** Trees for the lowering examples *)

Definition tA : Tensor := mkTensor "A" "A" None [2; 3] full23 dense23.
Definition tB : Tensor := mkTensor "B" "B" None [3; 3] full23 dense23.
Definition tC : Tensor := mkTensor "C" "C" None [2; 3] full23 dense23.
Definition tD : Tensor := mkTensor "D" "D" None [2; 3] full23 dense23.

Definition leaf (t : Tensor) (names : list Index) : tree :=
  T (mkAttrs (IndexedTensor t) (Some (combine names (t_shape t))) (Some (t_spp t)) None None) [].

Definition op_attrs (c : cls) (names : list Index) : attrs :=
  mkAttrs c (Some (combine names [2; 3])) (Some full23) (Some dense23) None.

Definition op (c : cls) (names : list Index) (children : list tree) : tree :=
  T (op_attrs c names) children.

Definition ik : list Index := ["i"%string; "k"%string].
Definition kj : list Index := ["k"%string; "j"%string].

(** [A['ik'] * B['kj']], resolved to a [Product]. *)
Definition tree_AB : tree := op Product ij [leaf tA ik; leaf tB kj].
(** [D['ij'] + A['ik'] * B['kj']]. *)
Definition tree_D_plus_AB : tree := op Add ij [leaf tD ij; tree_AB].
(** [C['ij'] <= A['ik'] * B['kj']]. *)
Definition tree_C_is_AB : tree := op Assign ij [leaf tC ij; tree_AB].
(** [D['ij'] <= C['ij'] + A['ik'] * B['kj']]. *)
Definition tree_D_is_C_plus_AB : tree :=
  op Assign ij [leaf tD ij; op Add ij [leaf tC ij; tree_AB]].

(** No float is rendered in the examples. *)
Definition no_float_str (f : float) : string := "".

(** Built-ins for the examples, in which no float is rendered and no
    pattern is substituted. *)
Definition py_plain : builtins :=
  mkBuiltins no_float_str (fun _ _ s => Ok s) (fun _ => EmptyString).

(** The terms of the actions of a control flow, in order. *)
Definition action_terms (c : list ProgramPoint) : list Term :=
  omap (fun pp => a_term <$> action pp) c.

(** The state of the pass once [name] is registered as writable. *)
Definition register (name : string) (st : AST2ControlFlow) : AST2ControlFlow :=
  mkPass (_tmp st) (_cfg st) (_writable st ∪ {[ name ]}) (_simpleMemoryLayout st).

(** The state of the pass once the action [a] is appended. *)
Definition with_action (a : ProgramAction) (st : AST2ControlFlow) : AST2ControlFlow :=
  mkPass (_tmp st) (_cfg st ++ [mkProgramPoint (Some a)]) (_writable st)
         (_simpleMemoryLayout st).

(** The names of the assignment targets met when [node] is traversed: the
    name of the left child of every [Assign] that is visited. *)
Fixpoint targets (float_str : float -> string) (node : tree) {struct node} : gset string :=
  match node with
  | T a children =>
      match klass a with
      | IndexedTensor _ => ∅
      | ScalarMultiplication _ _ =>
          match children with
          | t :: _ => targets float_str t
          | [] => ∅
          end
      | Assign =>
          match children with
          | c0 :: _ =>
              match node_name float_str (node_attrs c0) with
              | Ok name => {[ name ]} ∪ ⋃ (map (targets float_str) children)
              | _ => ∅
              end
          | [] => ∅
          end
      | _ => ⋃ (map (targets float_str) children)
      end
  end.

(** What the traversal of [n] does to the writable set: it adds the
    targets met in [n]. *)
Definition adds_targets (float_str : float -> string) (n : tree) : Prop :=
  forall st v st',
    visit float_str n st = Ok (v, st') ->
    _writable st' = _writable st ∪ targets float_str n.

(** The program point of the action [result = var] ([add] false) or
    [result += var] ([add] true). *)
Definition copy_point (result var : Variable_) (add : bool) : ProgramPoint :=
  mkProgramPoint (Some (mkProgramAction result (TermVariable var) add None)).

(** One action per operand into [tmp]: the first a plain assignment, the
    others accumulations. *)
Definition accumulate_into (tmp : Variable_) (vs : list Variable_) : list ProgramPoint :=
  match vs with
  | [] => []
  | v :: rest => copy_point tmp v false :: map (fun w => copy_point tmp w true) rest
  end.

(** The operands by penalty: first those that are writable and global,
    then those that are one of the two, then those that are neither; each
    group in the order it had. *)
Definition by_penalty (vs : list Variable_) : list Variable_ :=
  filter (fun v => add_key v = 0) vs ++
  filter (fun v => add_key v = 1) vs ++
  filter (fun v => add_key v = 2) vs.

(** What "writable operands are preferred" asks of an operand order at the
    least: no operand that is not writable stands before a writable one. *)
Definition writable_first (vs : list Variable_) : Prop :=
  forall (i j : nat) (x y : Variable_),
    vs !! i = Some x -> vs !! j = Some y -> (i < j)%nat ->
    v_writable y = true -> v_writable x = true.

(** The operands copied or accumulated into the variable named [name], in
    the order of the control flow [c]. *)
Definition operands_into (name : string) (c : list ProgramPoint) : list Variable_ :=
  omap (fun pp =>
          match action pp with
          | Some (mkProgramAction r (TermVariable v) _ _) =>
              if String.eqb (v_name r) name then Some v else None
          | _ => None
          end) c.

(** C2 read as: whenever an [Add] is lowered, the operands of the actions
    into its temporary are in an order that puts writable ones first. *)
Definition add_prefers_writable : Prop :=
  forall (float_str : float -> string) (node : tree) (st st' : AST2ControlFlow)
         (tmp : Variable_),
    klass (node_attrs node) = Add ->
    visit float_str node st = Ok (tmp, st') ->
    writable_first (operands_into (v_name tmp) (_cfg st')).

(** The variables and program points of the lowering of
    [D['ij'] + A['ik'] * B['kj']] in a new pass instance. *)
Definition var_A : Variable_ := mkVariable "A" false (Some dense23) (Some full23) (Some tA).
Definition var_B : Variable_ := mkVariable "B" false (Some dense23) (Some full23) (Some tB).
Definition var_D : Variable_ := mkVariable "D" false (Some dense23) (Some full23) (Some tD).
Definition var_tmp0 : Variable_ := mkVariable "_tmp0" true (Some dense23) (Some full23) None.
Definition var_tmp1 : Variable_ := mkVariable "_tmp1" true (Some dense23) (Some full23) None.

Definition point_AB : ProgramPoint :=
  mkProgramPoint (Some (mkProgramAction var_tmp0
                          (Expression tree_AB (Some dense23) [var_A; var_B]) false None)).

Definition pass_after_AB : AST2ControlFlow := mkPass 1 [point_AB] ∅ false.
Definition pass_after_D_plus_AB : AST2ControlFlow :=
  mkPass 2 [point_AB; copy_point var_tmp1 var_D false; copy_point var_tmp1 var_tmp0 true]
         ∅ false.

(** The lowering of [C['ij'] <= A['ik'] * B['kj']] in a new pass
    instance. *)
Definition var_C : Variable_ := mkVariable "C" true (Some dense23) (Some full23) (Some tC).

Definition pass_after_C_is_AB : AST2ControlFlow :=
  mkPass 1 [point_AB; copy_point var_C var_tmp0 false] (∅ ∪ {[ "C"%string ]}) false.

(** Two global Variables for the collection examples: [Q(0)], a member of
    the group [Q], and the single tensor [Q]. *)
Definition tQ0 : Tensor := mkTensor "Q(0)" "Q" (Some 0) [2; 3] full23 dense23.
Definition tQ : Tensor := mkTensor "Q" "Q" None [2; 3] full23 dense23.
Definition var_Q0 : Variable_ := mkVariable "Q(0)" false (Some dense23) (Some full23) (Some tQ0).
Definition var_Q : Variable_ := mkVariable "Q" false (Some dense23) (Some full23) (Some tQ).

(** The base name and the group of the tensor of a global Variable. *)
Definition baseName_of (v : Variable_) : option string := t_baseName <$> v_tensor v.
Definition grouped (v : Variable_) : bool :=
  match v_tensor v with
  | Some t => match t_group t with Some _ => true | None => false end
  | None => false
  end.

(** Grouped and single tensors are mixed under one base name. *)
Definition mixed (variables : list Variable_) : Prop :=
  exists x y, x ∈ variables /\ y ∈ variables /\
              baseName_of x = baseName_of y /\ grouped x = true /\ grouped y = false.


(** ** Further operators and methods of [yateto/ast/node.py] *)

(** [Node.__sub__] between two nodes: [-other] is evaluated first, by
    [Node.__neg__], and the result is added.  The method itself accepts any
    right operand; one that is not a node is negated by its own class and
    would then be kept, as the value it is, in a child list.  The store
    holds nodes only, so this embedding covers node operands and says
    nothing about the others. *)
Definition __sub__ (fuel : nat) (self other : loc) : M loc :=
  do n <- __neg__ fuel other; _binOp self n Add.

(** [(a * b) * c] and [a * (b * c)]. *)
Definition mul3_left (fuel : nat) (a b c : loc) : M loc :=
  do ab <- __mul__ fuel a (ONode b); __mul__ fuel ab (ONode c).
Definition mul3_right (fuel : nat) (a b c : loc) : M loc :=
  do bc <- __mul__ fuel b (ONode c); __mul__ fuel a (ONode bc).

(** The object [ScalarMultiplication(scalar, term)] leaves in the store
    when the index permutation of the term is fixed ([ix] are the term's
    indices) or not ([ix] is [None]). *)
Definition scaled (isConstant : bool) (scalar : pyval) (ix : option Indices) (t : loc) : object :=
  mkObject (mkAttrs (ScalarMultiplication isConstant scalar) ix None None None) [t].

(** What [ScalarMultiplication.__init__] stores for [scalar]:
    [_isConstant] and [_scalar]. *)
Definition stored_scalar (scalar : pyval) : result (bool * pyval) :=
  match scalar with
  | PyFloat f => Ok (true, PyFloat f)
  | PyInt z => rbind (float_of_int z) (fun f => Ok (true, PyFloat f))
  | v => Ok (false, v)
  end.

(** The indices a [ScalarMultiplication] takes over from a term that is not
    itself a [ScalarMultiplication]: those of an [IndexedTensor], none of an
    [Op]. *)
Definition inherited_indices (o : object) : option Indices :=
  if isinstance (klass (o_attrs o)) TIndexedTensor then indices (o_attrs o) else None.

(** Modelled from the spec: [LoGCost] ([ast/indices.py]) is missing; the
    cost is the tuple "(count of non-unit-stride operands, transpose-A flag,
    transpose-B flag, total loop-nest rank)", compared lexicographically. *)
Record LoGCost := mkLoGCost {
  c_stride : Z;
  c_leftTranspose : Z;
  c_rightTranspose : Z;
  c_fusedIndices : Z }.

(** [LoopOverGEMM.cost]. *)
Definition cost (self : loc) : M LoGCost :=
  do o <- get self;
  match klass (o_attrs o) with
  | LoopOverGEMM m n k tA tB =>
      match _children o with
      | a :: b :: _ =>
          do pa <- find_leading a (if negb tA then m else k);
          let AstrideOne := pa =? 0 in
          do pb <- find_leading b (if negb tB then k else n);
          let BstrideOne := pb =? 0 in
          ret (mkLoGCost (Z.b2z (negb AstrideOne) + Z.b2z (negb BstrideOne))
                         (Z.b2z tA) (Z.b2z tB)
                         (Z.of_nat (length m) + Z.of_nat (length n) + Z.of_nat (length k)))
      | _ => raise IndexError
      end
  | _ => stuck
  end.

(** The node [LoopOverGEMM.__init__] creates once the leading positions
    are known. *)
Definition gemm_object (ix m n k : Indices) (a b : loc) (tA tB : bool) : object :=
  mkObject (mkAttrs (LoopOverGEMM m n k tA tB) (Some ix) None None None) [a; b].

(** [E = B['kj'] * B['jk']] in the store of the GEMM examples: an [Einsum]
    at location 3, with no indices deduced yet. *)
Definition store_gemv_operands : heap := store_gemm ++ [fresh_op Einsum [1; 2]%nat].

(** The same store with the matrix-vector node
    [LoopOverGEMM(i, A['ik'], E, i, (), k)] at location 4. *)
Definition store_gemv : heap :=
  store_gemv_operands ++ [gemm_object ix_i ix_i [] ix_k 0%nat 3%nat false false].

(** ** Measures of a tree for the lowering pass *)

(** The nodes that are visited below an [IndexedTensor] (none), a
    [ScalarMultiplication] (its term only) and the other classes (all
    children). *)
Definition visited_children (a : attrs) (children : list tree) : list tree :=
  match klass a with
  | IndexedTensor _ => []
  | ScalarMultiplication _ _ => take 1 children
  | _ => children
  end.

Definition sum_nat (l : list nat) : nat := foldr Nat.add O l.

(** The actions the traversal of [node] emits: one per child for an [Add],
    none for an [IndexedTensor], one for every other node, on top of those
    of the children that are visited. *)
Fixpoint count_actions (node : tree) : nat :=
  match node with
  | T a children =>
      match klass a with
      | IndexedTensor _ => O
      | ScalarMultiplication _ _ =>
          match children with
          | t :: _ => S (count_actions t)
          | [] => O
          end
      | Add => (sum_nat (map count_actions children) + length children)%nat
      | _ => S (sum_nat (map count_actions children))
      end
  end.

(** The temporaries the traversal of [node] takes: one for every node that
    is neither an [IndexedTensor] nor an [Assign]. *)
Fixpoint count_temporaries (node : tree) : nat :=
  match node with
  | T a children =>
      match klass a with
      | IndexedTensor _ => O
      | ScalarMultiplication _ _ =>
          match children with
          | t :: _ => S (count_temporaries t)
          | [] => O
          end
      | Assign => sum_nat (map count_temporaries children)
      | _ => S (sum_nat (map count_temporaries children))
      end
  end.

(** A program point that holds an action whose result is writable. *)
Definition writes_writable (pp : ProgramPoint) : Prop :=
  exists a, action pp = Some a /\ v_writable (a_result a) = true.

Definition is_leaf (node : tree) : bool :=
  isinstance (klass (node_attrs node)) TIndexedTensor.

(** What one traversal does to the state of the pass: program points are
    appended, [count_actions] of them, each with a writable result; the
    counter moves by [count_temporaries]; the layout switch stays; and the
    Variable returned for anything but a tensor is writable. *)
Definition lowers_orderly (float_str : float -> string) (node : tree) : Prop :=
  forall st v st',
    visit float_str node st = Ok (v, st') ->
    (is_leaf node = false -> v_writable v = true) /\
    _tmp st' = (_tmp st + count_temporaries node)%nat /\
    _simpleMemoryLayout st' = _simpleMemoryLayout st /\
    exists new,
      _cfg st' = _cfg st ++ new /\
      length new = count_actions node /\
      Forall writes_writable new.

(** The lowering of [D['ij'] <= C['ij'] + A['ik'] * B['kj']] in a new pass
    instance: [C] is read and not writable, [D] is the target. *)
Definition var_C_read : Variable_ :=
  mkVariable "C" false (Some dense23) (Some full23) (Some tC).
Definition var_D_target : Variable_ :=
  mkVariable "D" true (Some dense23) (Some full23) (Some tD).

Definition pass_after_D_is_C_plus_AB : AST2ControlFlow :=
  mkPass 2 [point_AB; copy_point var_tmp1 var_C_read false;
            copy_point var_tmp1 var_tmp0 true; copy_point var_D_target var_tmp1 false]
         (∅ ∪ {[ "D"%string ]}) false.

(** [_ml(node)] has a layout to return: the node's own, or with the simple
    layouts a dense one for its shape, which needs its indices. *)
Definition has_layout (simple : bool) (a : attrs) : bool :=
  negb simple || match indices a with Some _ => true | None => false end.

(** [node.name()] returns. *)
Definition has_name (float_str : float -> string) (node : tree) : bool :=
  match node_name float_str (node_attrs node) with
  | Ok _ => true
  | _ => false
  end.

(** The trees the pass can lower: an [Add] has at least two children, a
    [ScalarMultiplication] has a term, an [Assign] has at least two children
    and a first child with a name; every node a temporary or a leaf Variable
    is made for has a layout; and the children that are visited are
    lowerable themselves. *)
Fixpoint lowerable (float_str : float -> string) (simple : bool) (node : tree)
    {struct node} : bool :=
  match node with
  | T a children =>
      match klass a with
      | IndexedTensor _ => has_layout simple a
      | Add =>
          forallb (lowerable float_str simple) children
          && (1 <? length children)%nat && has_layout simple a
      | ScalarMultiplication _ _ =>
          match children with
          | t :: _ => lowerable float_str simple t && has_layout simple a
          | [] => false
          end
      | Assign =>
          match children with
          | c0 :: _ :: _ =>
              has_name float_str c0 && forallb (lowerable float_str simple) children
          | _ => false
          end
      | _ => forallb (lowerable float_str simple) children && has_layout simple a
      end
  end.

(** Some child of an [Add] that is lowered alone. *)
Definition tree_lonely_sum : tree := op Add ij [leaf tD ij].

(** The traversal of [n] returns exactly when [n] is lowerable. *)
Definition lowers_iff_lowerable (float_str : float -> string) (n : tree) : Prop :=
  forall st,
    lowerable float_str (_simpleMemoryLayout st) n = true <->
    exists v st', visit float_str n st = Ok (v, st').

(** ** The collected tensors against the variables *)

(** Among [variables] there is one whose tensor has base name [bn] and
    group [g]. *)
Definition has_tensor (bn : string) (g : option Z) (variables : list Variable_) : Prop :=
  exists v t, v ∈ variables /\ v_tensor v = Some t /\ t_baseName t = bn /\ t_group t = g.

(** Some base name stands for a grouped tensor and for a single one. *)
Definition mixes_groups (variables : list Variable_) : Prop :=
  exists bn g, has_tensor bn (Some g) variables /\ has_tensor bn None variables.

(** The dictionary [d] describes [variables]: a base name is a key iff a
    tensor has it; it maps to [None] when its tensors are single and to the
    set of their groups when they are grouped. *)
Definition describes (d : tensors_t) (variables : list Variable_) : Prop :=
  forall bn,
    match od_get bn d with
    | None => forall g, ~ has_tensor bn g variables
    | Some None =>
        has_tensor bn None variables /\ forall g, ~ has_tensor bn (Some g) variables
    | Some (Some G) =>
        ~ has_tensor bn None variables /\
        (exists g, has_tensor bn (Some g) variables) /\
        forall g, g ∈ G <-> has_tensor bn (Some g) variables
    end.

(** [(s * e1) * e2]. *)
Definition mul_chain (fuel : nat) (s e1 e2 : loc) : M loc :=
  do r <- __mul__ fuel s (ONode e1); __mul__ fuel r (ONode e2).

(** [Node.setEqspp]. *)
Definition setEqspp (self : loc) (p : option spp) : M unit :=
  do o <- get self;
  let a := o_attrs o in
  put self (mkObject (mkAttrs (klass a) (indices a) p (_memoryLayout a) (prefetch a))
                     (_children o)).

(** [ScalarMultiplication.computeSparsityPattern], with the patterns
    passed as arguments in [spps]. *)
Definition ScalarMultiplication_computeSparsityPattern (self : loc) (spps : list spp)
    : M (option spp) :=
  match spps with
  | [] => do t <- term self; eqspp t
  | [p] => ret (Some p)
  | _ => raise AssertionError
  end.

(** [s.setEqspp(s.computeSparsityPattern())] followed by
    [s.nonZeroFlops()], on a [ScalarMultiplication]. *)
Definition scaled_flops (s : loc) : M Z :=
  do p <- ScalarMultiplication_computeSparsityPattern s [];
  setEqspp s p ;;
  ScalarMultiplication_nonZeroFlops s.

(** [o] with the sparsity pattern [p] (or none). *)
Definition with_eqspp (p : option spp) (o : object) : object :=
  let a := o_attrs o in
  mkObject (mkAttrs (klass a) (indices a) p (_memoryLayout a) (prefetch a)) (_children o).

(** [-0.5 * Z] over the store of [X], [Y], [Z], where [Z] has a pattern of
    three non-zeros. *)
Definition store_scaled : heap :=
  [ mkObject (mkAttrs (IndexedTensor tX) None None None None) [];
    mkObject (mkAttrs (IndexedTensor tY) None None None None) [];
    with_pattern [true; false; true; true; false; false]
                 (mkObject (mkAttrs (IndexedTensor tZ) None None None None) []);
    fresh_op (ScalarMultiplication true (PyFloat float_half)) [2%nat] ].

(** ** Products under a chain of wrappers *)

(** Following the spec's words, "if the left operand is already kind T,
    absorb the right (flatten its children if it is also kind T, else append
    it) and return the mutated left; else if only the right is kind T,
    prepend the left to its children and return the mutated right; else
    construct a fresh binary T node": the node returned for the operands
    [a] and [b], which hold [oa] and [ob], and the store left behind. *)
Definition combined (T : cls) (h : heap) (a b : loc) (oa ob : object) : loc * heap :=
  if isinstance (klass (o_attrs oa)) (tag_of T) then
    (a, <[a := mkObject (o_attrs oa)
                        (_children oa ++
                           if isinstance (klass (o_attrs ob)) (tag_of T)
                           then _children ob else [b])]> h)
  else if isinstance (klass (o_attrs ob)) (tag_of T) then
    (b, <[b := mkObject (o_attrs ob) (a :: _children ob)]> h)
  else (length h, h ++ [fresh_op T [a; b]]).

(** A chain of wrappers in [h]: every node of [ss] is a
    [ScalarMultiplication] whose term is the next node of [ss], and the term
    of the last one is [t]. *)
Fixpoint wraps (h : heap) (ss : list loc) (t : loc) : Prop :=
  match ss with
  | [] => True
  | s :: ss' =>
      (exists o rest,
         h !! s = Some o /\
         isinstance (klass (o_attrs o)) TScalarMultiplication = true /\
         _children o = hd t ss' :: rest) /\
      wraps h ss' t
  end.

(** The store once the node [p] stands below the chain [ss]: the last
    wrapper has [p] as its term, every other wrapper keeps the next one, and
    all of them have lost their indices. *)
Fixpoint rewrap (ss : list loc) (p : loc) (h : heap) : heap :=
  match ss with
  | [] => h
  | s :: ss' => alter (fun o => merged_wrapper o (hd p ss')) s (rewrap ss' p h)
  end.

(** [s2 = 2 * X] built by the constructor over [s = 3 * X]: the store of
    [X], [Y], [Z] and [s] with the wrapper [ScalarMultiplication(2, s)] at
    location 4, which no operator would have built. *)
Definition store_nested : heap :=
  match ScalarMultiplication_init 3 (PyInt 2) 3%nat store_3X with
  | Ok (_, h) => h
  | _ => []
  end.

(** The floats 2.0 and 3.0. *)
Definition float_2 : float := S754_finite false 4503599627370496 (-51).
Definition float_3 : float := S754_finite false 6755399441055744 (-51).

(** * Properties *)

(** ** The object store *)

Section Store.
Implicit Types (h : heap) (l : loc) (o : object).

Lemma get_Some h l o : h !! l = Some o -> get l h = Ok (o, h).
Proof. unfold get. intros ->. reflexivity. Qed.

Lemma class_of_Some h l o :
  h !! l = Some o -> class_of l h = Ok (klass (o_attrs o), h).
Proof. intros H. unfold class_of, bind. rewrite (get_Some _ _ _ H). reflexivity. Qed.

Lemma lookup_alloc_new h o : (h ++ [o]) !! length h = Some o.
Proof. apply list_lookup_middle. reflexivity. Qed.

Lemma lookup_alloc_old h l o o' : h !! l = Some o -> (h ++ [o']) !! l = Some o.
Proof. apply lookup_app_l_Some. Qed.

Lemma insert_alloc_new h o o' : <[length h := o']> (h ++ [o]) = h ++ [o'].
Proof.
  rewrite insert_app_r_alt by lia.
  replace (length h - length h)%nat with O by lia. reflexivity.
Qed.

Lemma set_children_Some h l o cs :
  h !! l = Some o ->
  set_children l cs h = Ok (tt, <[l := mkObject (o_attrs o) cs]> h).
Proof.
  intros H. unfold set_children, bind. rewrite (get_Some _ _ _ H). reflexivity.
Qed.

Lemma lookup_insert_same h l o o' :
  h !! l = Some o -> <[l := o']> h !! l = Some o'.
Proof. intros H. apply list_lookup_insert_eq. eapply lookup_lt_Some, H. Qed.

Lemma isinstance_tag (c : cls) (t : tag) :
  isinstance c t = true <-> tag_of c = t.
Proof. unfold isinstance. apply bool_decide_eq_true. Qed.

Lemma isinstance_not_tag (c : cls) (t : tag) :
  isinstance c t = false <-> tag_of c <> t.
Proof. unfold isinstance. apply bool_decide_eq_false. Qed.
End Store.

(** ** Folding of sums and products *)

(** Two operands that are not of the operation's class are put under a new
    node of that class. *)
Lemma binOp_fresh (h : heap) (a b : loc) (oa ob : object) (T : cls) :
  h !! a = Some oa -> h !! b = Some ob ->
  isinstance (klass (o_attrs oa)) (tag_of T) = false ->
  isinstance (klass (o_attrs ob)) (tag_of T) = false ->
  _binOp a b T h = Ok (length h, h ++ [fresh_op T [a; b]]).
Proof.
  intros Ha Hb Na Nb. unfold _binOp, bind.
  rewrite (get_Some _ _ _ Ha), (get_Some _ _ _ Hb), Na, Nb. reflexivity.
Qed.

(** [_binOp] on two objects of the store always returns a node of the
    operation's class, which is one of the operands or a new object; the
    operand that is not returned, and everything else, is left as it
    was. *)
Lemma binOp_returns (h : heap) (a b : loc) (oa ob : object) (T : cls) :
  h !! a = Some oa -> h !! b = Some ob ->
  exists p h1,
    _binOp a b T h = Ok (p, h1) /\
    has_class h1 p (tag_of T) /\
    (p = a \/ p = b \/ p = length h) /\
    (forall l, l <> p -> (l < length h)%nat -> h1 !! l = h !! l).
Proof.
  intros Ha Hb. unfold _binOp, bind.
  rewrite (get_Some _ _ _ Ha), (get_Some _ _ _ Hb).
  destruct (isinstance (klass (o_attrs oa)) (tag_of T)) eqn:Ea.
  - apply isinstance_tag in Ea.
    assert (forall cs, exists p h1,
      match set_children a cs h with
      | Ok (_, s') => ret a s' | Raise e => Raise e | Stuck => Stuck end = Ok (p, h1) /\
      has_class h1 p (tag_of T) /\ (p = a \/ p = b \/ p = length h) /\
      (forall l, l <> p -> (l < length h)%nat -> h1 !! l = h !! l)) as K.
    { intros cs. rewrite (set_children_Some _ _ _ cs Ha).
      eexists _, _. split; [reflexivity|]. split; [|split].
      - eexists. split; [apply (lookup_insert_same _ _ _ _ Ha)|]. exact Ea.
      - left; reflexivity.
      - intros l Hl _. apply list_lookup_insert_ne. congruence. }
    destruct (isinstance (klass (o_attrs ob)) (tag_of T)); apply K.
  - destruct (isinstance (klass (o_attrs ob)) (tag_of T)) eqn:Eb.
    + apply isinstance_tag in Eb.
      rewrite (set_children_Some _ _ _ _ Hb).
      eexists _, _. split; [reflexivity|]. split; [|split].
      * eexists. split; [apply (lookup_insert_same _ _ _ _ Hb)|]. exact Eb.
      * right; left; reflexivity.
      * intros l Hl _. apply list_lookup_insert_ne. congruence.
    + eexists _, _. split; [reflexivity|]. split; [|split].
      * eexists. split; [apply lookup_alloc_new|]. reflexivity.
      * right; right; reflexivity.
      * intros l _ Hl. apply lookup_app_l. exact Hl.
Qed.

(** C7: for operands [a], [b], [c] none of which is an [Add], both
    [(a + b) + c] and [a + (b + c)] return one new [Add] node whose child
    list is exactly [[a; b; c]]; the operands themselves are untouched, so
    no [Add] is nested in it. *)
Theorem add_three_is_flat (py : builtins) (h : heap) (a b c : loc) (oa ob oc : object) :
  h !! a = Some oa -> h !! b = Some ob -> h !! c = Some oc ->
  isinstance (klass (o_attrs oa)) TAdd = false ->
  isinstance (klass (o_attrs ob)) TAdd = false ->
  isinstance (klass (o_attrs oc)) TAdd = false ->
  add3_left py a b c h = Ok (length h, h ++ [fresh_op Add [a; b; c]]) /\
  add3_right py a b c h = Ok (length h, h ++ [fresh_op Add [a; b; c]]).
Proof.
  intros Ha Hb Hc Na Nb Nc. split.
  - unfold add3_left, bind, __add__.
    rewrite (binOp_fresh h a b oa ob Add Ha Hb Na Nb).
    unfold _binOp, bind.
    rewrite (get_Some _ _ _ (lookup_alloc_new h _)).
    rewrite (get_Some _ _ _ (lookup_alloc_old h c oc _ Hc)).
    cbn [fresh_op o_attrs klass _children].
    change (tag_of Add) with TAdd.
    replace (isinstance Add TAdd) with true by reflexivity.
    rewrite Nc.
    rewrite (set_children_Some _ _ _ _ (lookup_alloc_new h _)).
    rewrite insert_alloc_new. reflexivity.
  - unfold add3_right, bind, __add__.
    rewrite (binOp_fresh h b c ob oc Add Hb Hc Nb Nc).
    unfold _binOp, bind.
    rewrite (get_Some _ _ _ (lookup_alloc_old h a oa _ Ha)).
    rewrite (get_Some _ _ _ (lookup_alloc_new h _)).
    change (tag_of Add) with TAdd.
    rewrite Na. cbn [fresh_op o_attrs klass _children].
    replace (isinstance Add TAdd) with true by reflexivity.
    rewrite (set_children_Some _ _ _ _ (lookup_alloc_new h _)).
    rewrite insert_alloc_new. reflexivity.
Qed.

(** Adding a value that is not a node never returns: it raises what the
    rendering of the node raises, and the [ValueError] with both operands
    rendered otherwise. *)
Lemma add_non_node_outcome (py : builtins) (h : heap) (n : loc) (v : pyval) :
  __radd__ py n v h = __add__ py n (OVal v) h /\
  __add__ py n (OVal v) h =
    match __str__ py n h with
    | Ok (s, _) => Raise (ValueError (UnsupportedAdd s (str_pyval py v)))
    | Raise e => Raise e
    | Stuck => Stuck
    end.
Proof.
  split; [reflexivity|]. unfold __add__, bind.
  destruct (__str__ py n h) as [[s h']| |]; reflexivity.
Qed.

(** A node of any class but [LoopOverGEMM] is rendered without looking at
    other nodes, and its rendering returns. *)
Lemma str_returns (py : builtins) (h : heap) (n : loc) (o : object) :
  h !! n = Some o ->
  isinstance (klass (o_attrs o)) TLoopOverGEMM = false ->
  exists s, __str__ py n h = Ok (s, h).
Proof.
  intros Hn Ng. unfold __str__, bind. rewrite (get_Some _ _ _ Hn).
  destruct (klass (o_attrs o)); try discriminate Ng; eexists; reflexivity.
Qed.

(** On every node that is not a [LoopOverGEMM], adding a value that is not
    a node raises the [ValueError], from either side. *)
Lemma add_non_node_ValueError (py : builtins) (h : heap) (n : loc) (o : object) (v : pyval) :
  h !! n = Some o ->
  isinstance (klass (o_attrs o)) TLoopOverGEMM = false ->
  exists s,
    __str__ py n h = Ok (s, h) /\
    __add__ py n (OVal v) h = Raise (ValueError (UnsupportedAdd s (str_pyval py v))) /\
    __radd__ py n v h = Raise (ValueError (UnsupportedAdd s (str_pyval py v))).
Proof.
  intros Hn Ng. destruct (str_returns py h n o Hn Ng) as (s & Hs).
  exists s. split; [exact Hs|].
  destruct (add_non_node_outcome py h n v) as (-> & ->). rewrite Hs. split; reflexivity.
Qed.


(** ** Scalar multiplication *)

Lemma checkMultipleScalarMults_raises (h : heap) (s : loc) (o : object) :
  h !! s = Some o ->
  isinstance (klass (o_attrs o)) TScalarMultiplication = true ->
  _checkMultipleScalarMults s h = Raise (ValueError MultipleScalarMults).
Proof.
  intros Hs Is. unfold _checkMultipleScalarMults, bind.
  rewrite (class_of_Some _ _ _ Hs), Is. reflexivity.
Qed.

Lemma checkMultipleScalarMults_passes (h : heap) (s : loc) (o : object) :
  h !! s = Some o ->
  isinstance (klass (o_attrs o)) TScalarMultiplication = false ->
  _checkMultipleScalarMults s h = Ok (tt, h).
Proof.
  intros Hs Is. unfold _checkMultipleScalarMults, bind.
  rewrite (class_of_Some _ _ _ Hs), Is. reflexivity.
Qed.

(** A second scalar factor on a [ScalarMultiplication] is refused: a value
    that is not a node on either side, another [ScalarMultiplication] on
    either side, and negation. *)
Lemma second_scalar_raises (fuel : nat) (h : heap) (s : loc) (o : object) :
  h !! s = Some o ->
  isinstance (klass (o_attrs o)) TScalarMultiplication = true ->
  (forall v, __mul__ (S fuel) s (OVal v) h = Raise (ValueError MultipleScalarMults)) /\
  (forall v, __rmul__ (S fuel) s v h = Raise (ValueError MultipleScalarMults)) /\
  (forall s2 o2, h !! s2 = Some o2 ->
     isinstance (klass (o_attrs o2)) TScalarMultiplication = true ->
     __mul__ (S fuel) s (ONode s2) h = Raise (ValueError MultipleScalarMults) /\
     __mul__ (S fuel) s2 (ONode s) h = Raise (ValueError MultipleScalarMults)) /\
  __neg__ fuel s h = Raise (ValueError MultipleScalarMults).
Proof.
  intros Hs Is.
  assert (forall v, __mul__ (S fuel) s (OVal v) h = Raise (ValueError MultipleScalarMults)) as Hv.
  { intros v. cbn [__mul__]. unfold bind.
    rewrite (checkMultipleScalarMults_raises _ _ _ Hs Is). reflexivity. }
  split; [exact Hv|]. split; [exact Hv|]. split.
  - intros s2 o2 Hs2 Is2. split; cbn [__mul__]; unfold bind.
    + rewrite (class_of_Some _ _ _ Hs), (class_of_Some _ _ _ Hs2), Is.
      rewrite (checkMultipleScalarMults_raises _ _ _ Hs2 Is2). reflexivity.
    + rewrite (class_of_Some _ _ _ Hs2), (class_of_Some _ _ _ Hs), Is2.
      rewrite (checkMultipleScalarMults_raises _ _ _ Hs Is). reflexivity.
  - unfold __neg__, bind.
    rewrite (checkMultipleScalarMults_raises _ _ _ Hs Is). reflexivity.
Qed.

Lemma bind_Ok {S A B} (m : ST S A) (k : A -> ST S B) (s s' : S) (a : A) :
  m s = Ok (a, s') -> bind m k s = k a s'.
Proof. unfold bind. intros ->. reflexivity. Qed.

Lemma term_Some (h : heap) (s : loc) (o : object) (t : loc) (rest : list loc) :
  h !! s = Some o -> _children o = t :: rest -> term s h = Ok (t, h).
Proof.
  intros Hs Hc. unfold term. rewrite (bind_Ok _ _ _ _ _ (get_Some _ _ _ Hs)).
  rewrite Hc. reflexivity.
Qed.

(** The index permutation of a node of class [Einsum] is not fixed. *)
Lemma fixedIndexPermutation_Einsum (fuel : nat) (h : heap) (p : loc) :
  has_class h p TEinsum -> fixedIndexPermutation (S fuel) p h = Ok (false, h).
Proof.
  intros (op & Hp & Tp). cbn [fixedIndexPermutation].
  rewrite (bind_Ok _ _ _ _ _ (class_of_Some _ _ _ Hp)).
  destruct (klass (o_attrs op)); try discriminate Tp; reflexivity.
Qed.

(** [setTerm] with a term of class [Einsum]: the first child is replaced
    and the indices of the wrapper are dropped. *)
Lemma setTerm_Einsum (fuel : nat) (h : heap) (s p t : loc) (o : object) (rest : list loc) :
  h !! s = Some o -> _children o = t :: rest ->
  isinstance (klass (o_attrs o)) TScalarMultiplication = true ->
  p <> s -> has_class h p TEinsum ->
  setTerm (S (S fuel)) s p h =
    Ok (tt, <[s := mkObject (mkAttrs (klass (o_attrs o)) None (_eqspp (o_attrs o))
                                     (_memoryLayout (o_attrs o)) (prefetch (o_attrs o)))
                            (p :: rest)]> h).
Proof.
  intros Hs Hc Is Hne Hp. unfold setTerm.
  rewrite (bind_Ok _ _ _ _ _ (get_Some _ _ _ Hs)). rewrite Hc.
  rewrite (bind_Ok _ _ _ _ _ (set_children_Some _ _ _ _ Hs)).
  set (h2 := <[s := _]> h).
  assert (h2 !! s = Some (mkObject (o_attrs o) (p :: rest))) as Hs2
    by apply (lookup_insert_same _ _ _ _ Hs).
  assert (has_class h2 p TEinsum) as Hp2.
  { destruct Hp as (op & Hp & Tp). exists op. split; [|exact Tp].
    unfold h2. rewrite list_lookup_insert_ne by congruence. exact Hp. }
  assert (fixedIndexPermutation (S (S fuel)) s h2 = Ok (false, h2)) as Hf.
  { cbn [fixedIndexPermutation].
    rewrite (bind_Ok _ _ _ _ _ (class_of_Some _ _ _ Hs2)). cbn [o_attrs].
    apply isinstance_tag in Is.
    destruct (klass (o_attrs o)); try discriminate Is.
    rewrite (bind_Ok _ _ _ _ _ (term_Some _ _ _ _ _ Hs2 eq_refl)).
    apply fixedIndexPermutation_Einsum, Hp2. }
  rewrite (bind_Ok _ _ _ _ _ Hf).
  unfold set_indices. rewrite (bind_Ok _ _ _ _ _ (get_Some _ _ _ Hs2)).
  unfold put. cbn [o_attrs _children]. unfold h2.
  rewrite list_insert_insert_eq. reflexivity.
Qed.

(** A factor that is not a [ScalarMultiplication] is multiplied into the
    term of the wrapper, and the wrapper itself is returned. *)
Lemma mul_plain_merges (fuel : nat) (h : heap) (s t e : loc) (o ot oe : object)
    (rest : list loc) :
  h !! s = Some o -> _children o = t :: rest ->
  isinstance (klass (o_attrs o)) TScalarMultiplication = true ->
  h !! t = Some ot -> h !! e = Some oe ->
  isinstance (klass (o_attrs ot)) TScalarMultiplication = false ->
  isinstance (klass (o_attrs oe)) TScalarMultiplication = false ->
  (exists p h1,
     _binOp t e Einsum h = Ok (p, h1) /\ has_class h1 p TEinsum /\
     __mul__ (S (S (S fuel))) s (ONode e) h = Ok (s, <[s := merged_wrapper o p]> h1)) /\
  (exists p h1,
     _binOp e t Einsum h = Ok (p, h1) /\ has_class h1 p TEinsum /\
     __mul__ (S (S (S fuel))) e (ONode s) h = Ok (s, <[s := merged_wrapper o p]> h1)).
Proof.
  intros Hs Hc Is Ht He Nt Ne.
  assert (forall x y ox oy, h !! x = Some ox -> h !! y = Some oy ->
            isinstance (klass (o_attrs ox)) TScalarMultiplication = false ->
            isinstance (klass (o_attrs oy)) TScalarMultiplication = false ->
            exists p h1, _binOp x y Einsum h = Ok (p, h1) /\ has_class h1 p TEinsum /\
              __mul__ (S (S fuel)) x (ONode y) h = Ok (p, h1) /\
              setTerm (S (S fuel)) s p h1 = Ok (tt, <[s := merged_wrapper o p]> h1)) as K.
  { intros x y ox oy Hx Hy Nx Ny.
    destruct (binOp_returns h x y ox oy Einsum Hx Hy) as (p & h1 & Hb & Hp & Hwho & Hold).
    exists p, h1. split; [exact Hb|]. split; [exact Hp|].
    assert (p <> s) as Hne.
    { intros ->. pose proof (lookup_lt_Some _ _ _ Hs) as Hlt.
      destruct Hwho as [-> | [-> | ->]].
      - rewrite Hs in Hx. injection Hx as <-. congruence.
      - rewrite Hs in Hy. injection Hy as <-. congruence.
      - lia. }
    split.
    - cbn [__mul__].
      rewrite (bind_Ok _ _ _ _ _ (class_of_Some _ _ _ Hx)).
      rewrite (bind_Ok _ _ _ _ _ (class_of_Some _ _ _ Hy)).
      rewrite Nx, Ny. exact Hb.
    - assert (h1 !! s = Some o) as Hs1.
      { rewrite Hold; [exact Hs | congruence | eapply lookup_lt_Some, Hs]. }
      rewrite (setTerm_Einsum fuel h1 s p t o rest Hs1 Hc Is Hne Hp).
      unfold merged_wrapper. rewrite Hc. reflexivity. }
  split.
  - destruct (K t e ot oe Ht He Nt Ne) as (p & h1 & Hb & Hp & Hm & Hset).
    exists p, h1. split; [exact Hb|]. split; [exact Hp|].
    cbn [__mul__].
    rewrite (bind_Ok _ _ _ _ _ (class_of_Some _ _ _ Hs)).
    rewrite (bind_Ok _ _ _ _ _ (class_of_Some _ _ _ He)).
    rewrite Is.
    rewrite (bind_Ok _ _ _ _ _ (checkMultipleScalarMults_passes _ _ _ He Ne)).
    rewrite (bind_Ok _ _ _ _ _ (term_Some _ _ _ _ _ Hs Hc)).
    cbn [__mul__] in Hm. rewrite (bind_Ok _ _ _ _ _ Hm).
    rewrite (bind_Ok _ _ _ _ _ Hset). reflexivity.
  - destruct (K e t oe ot He Ht Ne Nt) as (p & h1 & Hb & Hp & Hm & Hset).
    exists p, h1. split; [exact Hb|]. split; [exact Hp|].
    cbn [__mul__].
    rewrite (bind_Ok _ _ _ _ _ (class_of_Some _ _ _ He)).
    rewrite (bind_Ok _ _ _ _ _ (class_of_Some _ _ _ Hs)).
    rewrite Ne, Is.
    rewrite (bind_Ok _ _ _ _ _ (checkMultipleScalarMults_passes _ _ _ He Ne)).
    rewrite (bind_Ok _ _ _ _ _ (term_Some _ _ _ _ _ Hs Hc)).
    cbn [__mul__] in Hm. rewrite (bind_Ok _ _ _ _ _ Hm).
    rewrite (bind_Ok _ _ _ _ _ Hset). reflexivity.
Qed.

Lemma binOp_combined (h : heap) (a b : loc) (oa ob : object) (T : cls) :
  h !! a = Some oa -> h !! b = Some ob ->
  _binOp a b T h = Ok (combined T h a b oa ob).
Proof.
  intros Ha Hb. unfold _binOp, combined.
  rewrite (bind_Ok _ _ _ _ _ (get_Some _ _ _ Ha)).
  rewrite (bind_Ok _ _ _ _ _ (get_Some _ _ _ Hb)).
  destruct (isinstance (klass (o_attrs oa)) (tag_of T)).
  - destruct (isinstance (klass (o_attrs ob)) (tag_of T));
      rewrite (bind_Ok _ _ _ _ _ (set_children_Some _ _ _ _ Ha)); reflexivity.
  - destruct (isinstance (klass (o_attrs ob)) (tag_of T)).
    + rewrite (bind_Ok _ _ _ _ _ (set_children_Some _ _ _ _ Hb)). reflexivity.
    + reflexivity.
Qed.

Lemma wraps_ext (h h' : heap) (ss : list loc) (t : loc) :
  (forall l, l ∈ ss -> h' !! l = h !! l) -> wraps h ss t -> wraps h' ss t.
Proof.
  induction ss as [|s ss' IH]; cbn [wraps]; intros Hagree W; [exact I|].
  destruct W as ((o & rest & Hs & Is & Hc) & W). split.
  - exists o, rest. rewrite Hagree by apply list_elem_of_here. auto.
  - apply IH; [|exact W]. intros l Hl. apply Hagree, list_elem_of_further, Hl.
Qed.

Lemma wraps_elem (h : heap) (ss : list loc) (t l : loc) :
  wraps h ss t -> l ∈ ss ->
  exists o, h !! l = Some o /\ isinstance (klass (o_attrs o)) TScalarMultiplication = true.
Proof.
  induction ss as [|s ss' IH]; cbn [wraps]; intros W Hl.
  - apply elem_of_nil in Hl. destruct Hl.
  - destruct W as ((o & rest & Hs & Is & Hc) & W).
    apply elem_of_cons in Hl as [-> | Hl]; [exists o; auto | apply IH; assumption].
Qed.

Lemma wraps_suffix (h : heap) (l1 l2 : list loc) (t : loc) :
  wraps h (l1 ++ l2) t -> wraps h l2 t.
Proof.
  induction l1 as [|x l1 IH]; cbn [app wraps]; [tauto|]. intros (_ & W). apply IH, W.
Qed.

(** The chain from a wrapper down to a term that is no wrapper is
    determined by the store. *)
Lemma wraps_unique (h : heap) (t : loc) (ot : object) :
  h !! t = Some ot ->
  isinstance (klass (o_attrs ot)) TScalarMultiplication = false ->
  forall ss1 ss2, wraps h ss1 t -> wraps h ss2 t -> hd t ss1 = hd t ss2 -> ss1 = ss2.
Proof.
  intros Ht Nt. induction ss1 as [|a ss1 IH]; intros [|b ss2] W1 W2 Hhd.
  - reflexivity.
  - cbn [hd] in Hhd. subst b. destruct W2 as ((o & rest & Hs & Is & _) & _). congruence.
  - cbn [hd] in Hhd. subst a. destruct W1 as ((o & rest & Hs & Is & _) & _). congruence.
  - cbn [hd] in Hhd. subst b.
    destruct W1 as ((o1 & rest1 & Hs1 & _ & Hc1) & W1).
    destruct W2 as ((o2 & rest2 & Hs2 & _ & Hc2) & W2).
    rewrite Hs1 in Hs2. injection Hs2 as <-. rewrite Hc1 in Hc2. injection Hc2 as Hhd _.
    f_equal. apply (IH ss2 W1 W2 Hhd).
Qed.

(** So no wrapper occurs twice in it. *)
Lemma wraps_NoDup (h : heap) (t : loc) (ot : object) (ss : list loc) :
  h !! t = Some ot ->
  isinstance (klass (o_attrs ot)) TScalarMultiplication = false ->
  wraps h ss t -> NoDup ss.
Proof.
  intros Ht Nt. induction ss as [|s ss' IH]; intros W; [apply NoDup_nil_2|].
  apply NoDup_cons_2; [|apply IH, W].
  intros Hin. apply list_elem_of_split in Hin as (l1 & l2 & E).
  assert (wraps h (s :: l2) t) as W2.
  { apply (wraps_suffix h l1). rewrite <- E. apply W. }
  pose proof (wraps_unique h t ot Ht Nt _ _ W W2 eq_refl) as E2.
  injection E2 as E2. rewrite E2 in E. apply (f_equal length) in E.
  rewrite length_app in E. cbn [length] in E. lia.
Qed.

Lemma rewrap_lookup_ne (ss : list loc) (p : loc) (h : heap) (l : loc) :
  l ∉ ss -> rewrap ss p h !! l = h !! l.
Proof.
  induction ss as [|s ss' IH]; cbn [rewrap]; intros Hl; [reflexivity|].
  apply not_elem_of_cons in Hl as (Hne & Hl).
  rewrite list_lookup_alter_ne by congruence. apply IH, Hl.
Qed.

Lemma wraps_rewrap (h : heap) (ss : list loc) (t p : loc) :
  NoDup ss -> wraps h ss t -> wraps (rewrap ss p h) ss p.
Proof.
  induction ss as [|s ss' IH]; cbn [wraps rewrap]; intros ND W; [exact I|].
  apply NoDup_cons in ND as (Hs' & ND).
  destruct W as ((o & rest & Hs & Is & Hc) & W). split.
  - exists (merged_wrapper o (hd p ss')), rest.
    rewrite list_lookup_alter_eq, (rewrap_lookup_ne _ _ _ _ Hs'), Hs.
    repeat split; [exact Is|]. unfold merged_wrapper. cbn [_children]. rewrite Hc. reflexivity.
  - apply (wraps_ext (rewrap ss' p h)); [|apply IH; assumption].
    intros l Hl. apply list_lookup_alter_ne. intros ->. contradiction.
Qed.

(** The index permutation of a wrapper is not fixed when its chain ends
    in an [Einsum]. *)
Lemma fixedIndexPermutation_chain (fuel : nat) (h : heap) (ss : list loc) (p : loc) :
  wraps h ss p -> has_class h p TEinsum ->
  fixedIndexPermutation (S (length ss + fuel)) (hd p ss) h = Ok (false, h).
Proof.
  intros W Hp. induction ss as [|s ss' IH].
  - apply fixedIndexPermutation_Einsum, Hp.
  - destruct W as ((o & rest & Hs & Is & Hc) & W).
    cbn [hd length Nat.add fixedIndexPermutation].
    rewrite (bind_Ok _ _ _ _ _ (class_of_Some _ _ _ Hs)).
    apply isinstance_tag in Is.
    destruct (klass (o_attrs o)); try discriminate Is.
    rewrite (bind_Ok _ _ _ _ _ (term_Some _ _ _ _ _ Hs Hc)).
    apply IH, W.
Qed.

(** [setTerm] when the index permutation of the wrapper is not fixed
    afterwards: the first child is replaced and the indices are dropped. *)
Lemma setTerm_unfixed (fuel : nat) (h : heap) (s p x : loc) (o : object) (rest : list loc) :
  h !! s = Some o -> _children o = x :: rest ->
  fixedIndexPermutation fuel s (<[s := mkObject (o_attrs o) (p :: rest)]> h) =
    Ok (false, <[s := mkObject (o_attrs o) (p :: rest)]> h) ->
  setTerm fuel s p h = Ok (tt, alter (fun o => merged_wrapper o p) s h).
Proof.
  intros Hs Hc Hf. unfold setTerm.
  rewrite (bind_Ok _ _ _ _ _ (get_Some _ _ _ Hs)). rewrite Hc.
  rewrite (bind_Ok _ _ _ _ _ (set_children_Some _ _ _ _ Hs)).
  rewrite (bind_Ok _ _ _ _ _ Hf).
  unfold set_indices.
  rewrite (bind_Ok _ _ _ _ _ (get_Some _ _ _ (lookup_insert_same _ _ _ _ Hs))).
  unfold put. cbn [o_attrs _children]. rewrite list_insert_insert_eq.
  rewrite list_insert_alter. do 2 f_equal.
  apply list_alter_ext; [|reflexivity].
  intros o' Ho'. rewrite Hs in Ho'. injection Ho' as <-.
  unfold merged_wrapper. rewrite Hc. reflexivity.
Qed.

(** Putting the product below the innermost wrapper and going back up the
    chain: every [setTerm] on the way drops the indices of its wrapper. *)
Lemma setTerm_chain (fuel : nat) (h h1 : heap) (s : loc) (ss : list loc) (t p : loc) :
  wraps h (s :: ss) t -> NoDup (s :: ss) -> p ∉ (s :: ss) ->
  (forall l, l ∈ s :: ss -> h1 !! l = h !! l) ->
  has_class h1 p TEinsum ->
  setTerm (S (S (length ss + fuel))) s (hd p ss) (rewrap ss p h1) =
    Ok (tt, rewrap (s :: ss) p h1).
Proof.
  intros W ND Hp Hagree Hcls.
  pose proof W as ((o & rest & Hs & Is & Hc) & W').
  apply NoDup_cons in ND as (Hs' & ND).
  apply not_elem_of_cons in Hp as (Hps & Hp).
  assert (rewrap ss p h1 !! s = Some o) as Hs2.
  { rewrite (rewrap_lookup_ne _ _ _ _ Hs'), Hagree by apply list_elem_of_here. exact Hs. }
  cbn [rewrap]. apply (setTerm_unfixed _ _ _ _ _ _ _ Hs2 Hc).
  set (h3 := <[s := _]> (rewrap ss p h1)).
  apply (fixedIndexPermutation_chain fuel h3 (s :: ss) p).
  - split.
    + exists (mkObject (o_attrs o) (hd p ss :: rest)), rest.
      split; [apply (lookup_insert_same _ _ _ _ Hs2)|]. split; [exact Is | reflexivity].
    + apply (wraps_ext (rewrap ss p h1)).
      * intros l Hl. apply list_lookup_insert_ne. intros ->. contradiction.
      * apply (wraps_rewrap h1 ss t p ND).
        apply (wraps_ext h); [|exact W'].
        intros l Hl. apply Hagree, list_elem_of_further, Hl.
  - destruct Hcls as (op & Hop & Top). exists op. split; [|exact Top].
    unfold h3. rewrite list_lookup_insert_ne by congruence.
    rewrite (rewrap_lookup_ne _ _ _ _ Hp). exact Hop.
Qed.

(** What [_binOp] leaves of a chain of wrappers over one of its operands:
    everything. *)
Lemma binOp_keeps_chain (h h1 : heap) (x y p : loc) (ox oy : object) (ss : list loc)
    (t : loc) :
  h !! x = Some ox -> h !! y = Some oy ->
  isinstance (klass (o_attrs ox)) TScalarMultiplication = false ->
  isinstance (klass (o_attrs oy)) TScalarMultiplication = false ->
  _binOp x y Einsum h = Ok (p, h1) ->
  wraps h ss t ->
  (p ∉ ss) /\ (forall l, l ∈ ss -> h1 !! l = h !! l) /\ has_class h1 p TEinsum.
Proof.
  intros Hx Hy Nx Ny Hb W.
  destruct (binOp_returns h x y ox oy Einsum Hx Hy) as (p' & h1' & Hb' & Hp & Hwho & Hold).
  rewrite Hb in Hb'. injection Hb' as <- <-.
  assert (forall l, l ∈ ss -> l <> p /\ (l < length h)%nat) as Hss.
  { intros l Hl. destruct (wraps_elem h ss t l W Hl) as (o & Ho & Io).
    split; [|eapply lookup_lt_Some, Ho].
    intros ->. destruct Hwho as [-> | [-> | ->]].
    - congruence.
    - congruence.
    - apply lookup_lt_Some in Ho. lia. }
  split; [|split; [|exact Hp]].
  - intros Hin. destruct (Hss p Hin) as (Hne & _). congruence.
  - intros l Hl. destruct (Hss l Hl) as (Hne & Hlt). apply Hold; assumption.
Qed.

(** A factor that is not a [ScalarMultiplication], on the right of a chain
    of wrappers, is multiplied into the term at the end of the chain. *)
Lemma mul_chain_left (fuel : nat) (h h1 : heap) (t e p : loc) (ot oe : object)
    (ss : list loc) :
  h !! t = Some ot -> h !! e = Some oe ->
  isinstance (klass (o_attrs ot)) TScalarMultiplication = false ->
  isinstance (klass (o_attrs oe)) TScalarMultiplication = false ->
  _binOp t e Einsum h = Ok (p, h1) ->
  wraps h ss t ->
  __mul__ (S (S (length ss + fuel))) (hd t ss) (ONode e) h =
    Ok (hd p ss, rewrap ss p h1).
Proof.
  intros Ht He Nt Ne Hb. induction ss as [|s ss' IH]; intros W.
  - cbn [hd rewrap length Nat.add __mul__].
    rewrite (bind_Ok _ _ _ _ _ (class_of_Some _ _ _ Ht)).
    rewrite (bind_Ok _ _ _ _ _ (class_of_Some _ _ _ He)).
    rewrite Nt, Ne. exact Hb.
  - pose proof W as ((o & rest & Hs & Is & Hc) & W').
    destruct (binOp_keeps_chain h h1 t e p ot oe (s :: ss') t Ht He Nt Ne Hb W)
      as (Hp & Hagree & Hcls).
    pose proof (wraps_NoDup h t ot (s :: ss') Ht Nt W) as ND.
    cbn [hd length Nat.add].
    remember (S (S (length ss' + fuel))) as f eqn:Ef.
    cbn [__mul__]. subst f.
    rewrite (bind_Ok _ _ _ _ _ (class_of_Some _ _ _ Hs)).
    rewrite (bind_Ok _ _ _ _ _ (class_of_Some _ _ _ He)).
    rewrite Is.
    rewrite (bind_Ok _ _ _ _ _ (checkMultipleScalarMults_passes _ _ _ He Ne)).
    rewrite (bind_Ok _ _ _ _ _ (term_Some _ _ _ _ _ Hs Hc)).
    rewrite (bind_Ok _ _ _ _ _ (IH W')).
    rewrite (bind_Ok _ _ _ _ _ (setTerm_chain fuel h h1 s ss' t p W ND Hp Hagree Hcls)).
    reflexivity.
Qed.

(** The same with the factor on the left. *)
Lemma mul_chain_right (fuel : nat) (h h1 : heap) (t e p : loc) (ot oe : object)
    (ss : list loc) :
  h !! t = Some ot -> h !! e = Some oe ->
  isinstance (klass (o_attrs ot)) TScalarMultiplication = false ->
  isinstance (klass (o_attrs oe)) TScalarMultiplication = false ->
  _binOp e t Einsum h = Ok (p, h1) ->
  wraps h ss t ->
  __mul__ (S (S (length ss + fuel))) e (ONode (hd t ss)) h =
    Ok (hd p ss, rewrap ss p h1).
Proof.
  intros Ht He Nt Ne Hb. induction ss as [|s ss' IH]; intros W.
  - cbn [hd rewrap length Nat.add __mul__].
    rewrite (bind_Ok _ _ _ _ _ (class_of_Some _ _ _ He)).
    rewrite (bind_Ok _ _ _ _ _ (class_of_Some _ _ _ Ht)).
    rewrite Nt, Ne. exact Hb.
  - pose proof W as ((o & rest & Hs & Is & Hc) & W').
    destruct (binOp_keeps_chain h h1 e t p oe ot (s :: ss') t He Ht Ne Nt Hb W)
      as (Hp & Hagree & Hcls).
    pose proof (wraps_NoDup h t ot (s :: ss') Ht Nt W) as ND.
    cbn [hd length Nat.add].
    remember (S (S (length ss' + fuel))) as f eqn:Ef.
    cbn [__mul__]. subst f.
    rewrite (bind_Ok _ _ _ _ _ (class_of_Some _ _ _ He)).
    rewrite (bind_Ok _ _ _ _ _ (class_of_Some _ _ _ Hs)).
    rewrite Ne, Is.
    rewrite (bind_Ok _ _ _ _ _ (checkMultipleScalarMults_passes _ _ _ He Ne)).
    rewrite (bind_Ok _ _ _ _ _ (term_Some _ _ _ _ _ Hs Hc)).
    rewrite (bind_Ok _ _ _ _ _ (IH W')).
    rewrite (bind_Ok _ _ _ _ _ (setTerm_chain fuel h h1 s ss' t p W ND Hp Hagree Hcls)).
    reflexivity.
Qed.

(** C3: on a [ScalarMultiplication] [s], a second scalar factor raises
    [ValueError]: a value that is not a node (on either side, as in
    [2 * (3 * X)]), another [ScalarMultiplication] (on either side), and
    negation.  A factor [e] that is not a [ScalarMultiplication] is merged
    instead, from either side.  With [t] the term below [s], reached through
    the wrappers [inner] when the term of [s] is a wrapper itself, the
    result is [s] itself; [t] and [e] are combined into one [Einsum] (the
    one of them that is an [Einsum] already, extended, or else a new node
    over the two), which becomes the term of the innermost wrapper; and every
    wrapper on the way loses its indices.  No wrapper is added. *)
Theorem scalar_multiplication_never_nests (fuel : nat) (h : heap) (s : loc) (o : object) :
  h !! s = Some o ->
  isinstance (klass (o_attrs o)) TScalarMultiplication = true ->
  (forall v, __mul__ (S fuel) s (OVal v) h = Raise (ValueError MultipleScalarMults)) /\
  (forall v, __rmul__ (S fuel) s v h = Raise (ValueError MultipleScalarMults)) /\
  (forall s2 o2, h !! s2 = Some o2 ->
     isinstance (klass (o_attrs o2)) TScalarMultiplication = true ->
     __mul__ (S fuel) s (ONode s2) h = Raise (ValueError MultipleScalarMults) /\
     __mul__ (S fuel) s2 (ONode s) h = Raise (ValueError MultipleScalarMults)) /\
  __neg__ fuel s h = Raise (ValueError MultipleScalarMults) /\
  (forall inner t e ot oe,
     wraps h (s :: inner) t -> h !! t = Some ot -> h !! e = Some oe ->
     isinstance (klass (o_attrs ot)) TScalarMultiplication = false ->
     isinstance (klass (o_attrs oe)) TScalarMultiplication = false ->
     __mul__ (S (S (S (length inner + fuel)))) s (ONode e) h =
       Ok (s, rewrap (s :: inner) (fst (combined Einsum h t e ot oe))
                     (snd (combined Einsum h t e ot oe))) /\
     __mul__ (S (S (S (length inner + fuel)))) e (ONode s) h =
       Ok (s, rewrap (s :: inner) (fst (combined Einsum h e t oe ot))
                     (snd (combined Einsum h e t oe ot)))).
Proof.
  intros Hs Is.
  destruct (second_scalar_raises fuel h s o Hs Is) as (H1 & H2 & H3 & H4).
  repeat (split; [assumption|]).
  intros inner t e ot oe W Ht He Nt Ne. split.
  - apply (mul_chain_left fuel h _ t e _ ot oe (s :: inner) Ht He Nt Ne); [|exact W].
    rewrite (binOp_combined h t e ot oe Einsum Ht He).
    destruct (combined Einsum h t e ot oe); reflexivity.
  - apply (mul_chain_right fuel h _ t e _ ot oe (s :: inner) Ht He Nt Ne); [|exact W].
    rewrite (binOp_combined h e t oe ot Einsum He Ht).
    destruct (combined Einsum h e t oe ot); reflexivity.
Qed.

Lemma store_3X_wrapper :
  store_3X !! 3%nat = Some (scaled true (PyFloat float_3) (Some ix_ij) 0%nat).
Proof. reflexivity. Qed.

(** In the store of [s = 3 * X]: [2 * s] raises; [s * Y] and [Y * s] are
    [s], whose term is now a new [Einsum] over [X] and [Y], at location 4.
    With the wrapper [ScalarMultiplication(2, s)] at location 4, its product
    with [Y] is that wrapper, still over [s], and the new [Einsum] at
    location 5 is the term of [s]. *)
Lemma scalar_multiplication_never_nests_witness :
  __rmul__ 1 3%nat (PyInt 2) store_3X = Raise (ValueError MultipleScalarMults) /\
  __mul__ 3 3%nat (ONode 1%nat) store_3X =
    Ok (3%nat, store_XYZ ++ [scaled true (PyFloat float_3) None 4%nat;
                             fresh_op Einsum [0; 1]%nat]) /\
  __mul__ 3 1%nat (ONode 3%nat) store_3X =
    Ok (3%nat, store_XYZ ++ [scaled true (PyFloat float_3) None 4%nat;
                             fresh_op Einsum [1; 0]%nat]) /\
  __mul__ 4 4%nat (ONode 1%nat) store_nested =
    Ok (4%nat, store_XYZ ++ [scaled true (PyFloat float_3) None 5%nat;
                             scaled true (PyFloat float_2) None 3%nat;
                             fresh_op Einsum [0; 1]%nat]).
Proof.
  pose proof (scalar_multiplication_never_nests 0 store_3X 3%nat _ store_3X_wrapper eq_refl)
    as (_ & H2 & _ & _ & H5).
  split; [exact (H2 (PyInt 2))|].
  assert (wraps store_3X [3%nat] 0%nat) as W.
  { split; [|exact I]. eexists _, _. repeat split; reflexivity. }
  split; [exact (proj1 (H5 [] 0%nat 1%nat _ _ W eq_refl eq_refl eq_refl eq_refl))|].
  split; [exact (proj2 (H5 [] 0%nat 1%nat _ _ W eq_refl eq_refl eq_refl eq_refl))|].
  refine (proj1 (proj2 (proj2 (proj2 (proj2
            (scalar_multiplication_never_nests 0 store_nested 4%nat _ eq_refl eq_refl))))
            [3%nat] 0%nat 1%nat _ _ _ eq_refl eq_refl eq_refl eq_refl)).
  split; [eexists _, _; repeat split; reflexivity|].
  split; [eexists _, _; repeat split; reflexivity | exact I].
Defined.

(** ** Assignment *)

(** [Assign(l, r)] takes any node as its left child: the constructor stores
    the two arguments and checks nothing. *)
Lemma Assign_init_unchecked (h : heap) (l r : loc) :
  Assign_init l r h = Ok (length h, h ++ [fresh_op Assign [l; r]]).
Proof. reflexivity. Qed.

(** [setChildren] on an [Assign] does check the first child: one that is
    not an [IndexedTensor] is rendered for the message, and never
    accepted. *)
Lemma Assign_setChildren_checks (py : builtins) (h : heap) (self l : loc)
    (rest : list loc) (ol : object) :
  h !! l = Some ol ->
  isinstance (klass (o_attrs ol)) TIndexedTensor = false ->
  Assign_setChildren py self (l :: rest) h =
    match __str__ py l h with
    | Ok (s, _) => Raise (ValueError (AssignFirstChild +:+ s))
    | Raise e => Raise e
    | Stuck => Stuck
    end.
Proof.
  intros Hl Nl. unfold Assign_setChildren.
  rewrite (bind_Ok _ _ _ _ _ (class_of_Some _ _ _ Hl)). rewrite Nl.
  cbn [negb]. unfold bind. destruct (__str__ py l h) as [[s h']| |]; reflexivity.
Qed.

(** C1 (the code departs from it): [(X + Y) <= Z] raises nothing.  It
    returns an [Assign] (at location 5) whose left child (location 3) is
    the [Add] node, while [setChildren] with the same children would have
    raised, naming the [Add]. *)
Theorem Assign_of_sum_is_constructed (py : builtins) :
  assign_to_sum py 0%nat 1%nat 2%nat store_XYZ =
    Ok (5%nat, store_XYZ ++ [fresh_op Add [0; 1]; fresh_op Einsum [2];
                             fresh_op Assign [3; 4]]%nat) /\
  Assign_init 3%nat 2%nat (store_XYZ ++ [fresh_op Add [0; 1]%nat]) =
    Ok (4%nat, store_XYZ ++ [fresh_op Add [0; 1]; fresh_op Assign [3; 2]]%nat) /\
  Assign_setChildren py 5%nat [3; 4]%nat
    (store_XYZ ++ [fresh_op Add [0; 1]; fresh_op Einsum [2]; fresh_op Assign [3; 4]]%nat) =
    Raise (ValueError (AssignFirstChild +:+ "Add[<not deduced>]")).
Proof. repeat split; reflexivity. Qed.

(** C4 as it is written does not hold: in [X <= X], with the same object on
    both sides, the right child of the [Assign] is the bare tensor. *)
Lemma le_always_wraps_fails : ~ le_always_wraps.
Proof.
  intros H.
  destruct (H store_XYZ 0%nat 0%nat) as (r & h' & e & o & oe & Hle & Hr & _ & Hc & He & Hk & _).
  - eexists. split; reflexivity.
  - eexists. split; reflexivity.
  - vm_compute in Hle. injection Hle as <- <-.
    vm_compute in Hr. injection Hr as <-.
    injection Hc as <-.
    vm_compute in He. injection He as <-.
    discriminate Hk.
Qed.

(** C4, amended: when the right operand [b] is an [IndexedTensor] and is
    not the very object on the left, [a <= b] creates an [Einsum] that holds
    [b] and returns the [Assign] of [a] and that [Einsum]; with the same
    object on both sides nothing is wrapped. *)
Theorem le_wraps_other_tensor (h : heap) (a b : loc) (ob : object) :
  h !! b = Some ob ->
  isinstance (klass (o_attrs ob)) TIndexedTensor = true ->
  (a <> b ->
   __le__ a b h =
     Ok (S (length h), h ++ [fresh_op Einsum [b]; fresh_op Assign [a; length h]])) /\
  __le__ b b h = Ok (length h, h ++ [fresh_op Assign [b; b]]).
Proof.
  intros Hb Ib. split.
  - intros Hne. unfold __le__.
    rewrite (bind_Ok _ _ _ _ _ (class_of_Some _ _ _ Hb)). rewrite Ib.
    replace (a =? b)%nat with false by (symmetry; apply Nat.eqb_neq, Hne).
    cbn [andb negb]. unfold Op_init, Assign_init, Op_init, alloc, bind.
    rewrite length_app. cbn [length]. rewrite Nat.add_1_r.
    rewrite <- app_assoc. reflexivity.
  - unfold __le__.
    rewrite (bind_Ok _ _ _ _ _ (class_of_Some _ _ _ Hb)). rewrite Ib.
    rewrite Nat.eqb_refl. reflexivity.
Qed.

(** In the store of [X], [Y], [Z]: [X <= Y] wraps [Y]. *)
Lemma le_wraps_other_tensor_witness :
  __le__ 0%nat 1%nat store_XYZ =
    Ok (4%nat, store_XYZ ++ [fresh_op Einsum [1]; fresh_op Assign [0; 3]]%nat).
Proof.
  refine (proj1 (le_wraps_other_tensor store_XYZ 0%nat 1%nat _ eq_refl eq_refl) _).
  discriminate.
Defined.

(** In the store of [X], [Y], [Z]: both [(X + Y) + Z] and [X + (Y + Z)]
    are one [Add] with the children [X], [Y], [Z]. *)
Lemma add_three_is_flat_witness :
  add3_left py_plain 0%nat 1%nat 2%nat store_XYZ =
    Ok (3%nat, store_XYZ ++ [fresh_op Add [0; 1; 2]%nat]) /\
  add3_right py_plain 0%nat 1%nat 2%nat store_XYZ =
    Ok (3%nat, store_XYZ ++ [fresh_op Add [0; 1; 2]%nat]).
Proof.
  exact (add_three_is_flat py_plain store_XYZ 0%nat 1%nat 2%nat _ _ _
           eq_refl eq_refl eq_refl eq_refl eq_refl eq_refl).
Defined.

(** ** FLOP accounting *)

Lemma compare_cont_Eq_eq (m p : positive) : Pos.compare_cont Eq m p = Eq -> m = p.
Proof. apply Pos.compare_eq. Qed.

Lemma float_eq_1 (f : float) : float_eq f float_1 = true <-> f = float_1.
Proof.
  split; [|intros ->; reflexivity].
  unfold float_eq, SFeqb, float_1.
  destruct f as [s| s | |s m e]; cbn [SFcompare]; try discriminate.
  - destruct s; discriminate.
  - destruct s; [discriminate|].
    destruct (Z.compare e (-52)) eqn:Ee; try discriminate.
    destruct (Pos.compare_cont Eq m 4503599627370496) eqn:Em; try discriminate.
    intros _. apply Z.compare_eq in Ee. apply compare_cont_Eq_eq in Em.
    subst. reflexivity.
Qed.

Lemma float_eq_m1 (f : float) : float_eq f float_m1 = true <-> f = float_m1.
Proof.
  split; [|intros ->; reflexivity].
  unfold float_eq, SFeqb, float_m1.
  destruct f as [s| s | |s m e]; cbn [SFcompare]; try discriminate.
  - destruct s; discriminate.
  - destruct s; [|discriminate].
    destruct (Z.compare e (-52)) eqn:Ee; try discriminate.
    destruct (Pos.compare_cont Eq m 4503599627370496) eqn:Em; try discriminate.
    intros _. apply Z.compare_eq in Ee. apply compare_cont_Eq_eq in Em.
    subst. reflexivity.
Qed.

(** The test [scalar in [-1.0, 1.0]] on a float holds for the two
    constants only. *)
Lemma in_minus_one_one_float (f : float) :
  in_minus_one_one (PyFloat f) = true <-> f = float_1 \/ f = float_m1.
Proof.
  cbn [in_minus_one_one]. rewrite orb_true_iff, float_eq_1, float_eq_m1. tauto.
Qed.

Lemma eqspp_Some (h : heap) (l : loc) (o : object) :
  h !! l = Some o -> eqspp l h = Ok (_eqspp (o_attrs o), h).
Proof. intros H. unfold eqspp. rewrite (bind_Ok _ _ _ _ _ (get_Some _ _ _ H)). reflexivity. Qed.

(** The loop over the children adds up their non-zero counts. *)
Lemma sum_children_nonzero_patterns (h : heap) (ls : list loc) (ps : list spp) (acc : Z) :
  patterns_of h ls = Some ps ->
  sum_children_nonzero ls acc h = Ok (acc + sum_nonzero ps, h).
Proof.
  revert ps acc. induction ls as [|l ls IH]; intros ps acc Hp.
  - injection Hp as <-. cbn. rewrite Z.add_0_r. reflexivity.
  - cbn [patterns_of] in Hp.
    destruct (h !! l) as [o|] eqn:Hl; [|discriminate].
    destruct (patterns_of h ls) as [ps'|] eqn:Hps; [|discriminate].
    destruct (_eqspp (o_attrs o)) as [p|] eqn:Ep; [|discriminate].
    injection Hp as <-. cbn [sum_children_nonzero].
    rewrite (bind_Ok _ _ _ _ _ (eqspp_Some _ _ _ Hl)). rewrite Ep.
    cbn [spp_count_nonzero]. unfold bind at 1. unfold ret at 1.
    rewrite (IH ps' _ eq_refl). cbn [sum_nonzero foldr].
    f_equal. f_equal. fold (sum_nonzero ps'). lia.
Qed.

(** C6: with the patterns of all children and of the node fixed, the
    non-zero FLOPs of an [Add] are the sum of the children's non-zero
    counts minus the count of its own pattern.  The non-zero FLOPs of a
    [ScalarMultiplication] are 0 when its scalar is the constant 1.0 or
    -1.0; for a runtime scalar and for any other constant they are the
    non-zero count of its own pattern. *)
Theorem nonZeroFlops_Add_ScalarMultiplication (h : heap) (self : loc) (o : object) (r : spp) :
  h !! self = Some o ->
  _eqspp (o_attrs o) = Some r ->
  (forall ps, patterns_of h (_children o) = Some ps ->
     Add_nonZeroFlops self h = Ok (sum_nonzero ps - count_nonzero r, h)) /\
  (forall f, klass (o_attrs o) = ScalarMultiplication true (PyFloat f) ->
     (f = float_1 \/ f = float_m1 ->
        ScalarMultiplication_nonZeroFlops self h = Ok (0, h)) /\
     (f <> float_1 -> f <> float_m1 ->
        ScalarMultiplication_nonZeroFlops self h = Ok (count_nonzero r, h))) /\
  (forall v, klass (o_attrs o) = ScalarMultiplication false v ->
     ScalarMultiplication_nonZeroFlops self h = Ok (count_nonzero r, h)).
Proof.
  intros Hs Hr. split; [|split].
  - intros ps Hps. unfold Add_nonZeroFlops.
    rewrite (bind_Ok _ _ _ _ _ (get_Some _ _ _ Hs)).
    rewrite (bind_Ok _ _ _ _ _ (sum_children_nonzero_patterns _ _ _ 0 Hps)).
    rewrite (bind_Ok _ _ _ _ _ (eqspp_Some _ _ _ Hs)). rewrite Hr.
    reflexivity.
  - intros f Hk. unfold ScalarMultiplication_nonZeroFlops.
    rewrite (bind_Ok _ _ _ _ _ (class_of_Some _ _ _ Hs)). rewrite Hk.
    cbn [andb]. split.
    + intros Hf. apply in_minus_one_one_float in Hf. rewrite Hf. reflexivity.
    + intros N1 Nm1.
      destruct (in_minus_one_one (PyFloat f)) eqn:E.
      * apply in_minus_one_one_float in E. tauto.
      * rewrite (bind_Ok _ _ _ _ _ (eqspp_Some _ _ _ Hs)). rewrite Hr. reflexivity.
  - intros v Hk. unfold ScalarMultiplication_nonZeroFlops.
    rewrite (bind_Ok _ _ _ _ _ (class_of_Some _ _ _ Hs)). rewrite Hk.
    cbn [andb].
    rewrite (bind_Ok _ _ _ _ _ (eqspp_Some _ _ _ Hs)). rewrite Hr. reflexivity.
Qed.

(** In [store_flops]: the [Add] of [X] (2 non-zeros) and [Y] (2 non-zeros)
    with 3 non-zeros in the result costs 1; [-1.0 * Z] costs 0 and
    [0.5 * Z] costs the 6 non-zeros of its pattern. *)
Lemma nonZeroFlops_Add_ScalarMultiplication_witness :
  Add_nonZeroFlops 3%nat store_flops = Ok (1, store_flops) /\
  ScalarMultiplication_nonZeroFlops 4%nat store_flops = Ok (0, store_flops) /\
  ScalarMultiplication_nonZeroFlops 5%nat store_flops = Ok (6, store_flops).
Proof.
  split; [|split].
  - exact (proj1 (nonZeroFlops_Add_ScalarMultiplication store_flops 3%nat _ _ eq_refl eq_refl)
             _ eq_refl).
  - refine (proj1 (proj1 (proj2 (nonZeroFlops_Add_ScalarMultiplication
                                   store_flops 4%nat _ _ eq_refl eq_refl))
                         float_m1 eq_refl) _).
    right; reflexivity.
  - refine (proj2 (proj1 (proj2 (nonZeroFlops_Add_ScalarMultiplication
                                   store_flops 5%nat _ _ eq_refl eq_refl))
                         float_half eq_refl) _ _); discriminate.
Defined.

(** ** GEMM flags *)

Lemma bind_inv {S A B} (m : ST S A) (k : A -> ST S B) (s : S) (r : B * S) :
  bind m k s = Ok r -> exists a s', m s = Ok (a, s') /\ k a s' = Ok r.
Proof.
  unfold bind. destruct (m s) as [[a s']| |]; try discriminate.
  intros H. exists a, s'. split; [reflexivity | exact H].
Qed.

(** [find_leading] reads the store and returns the leading position. *)
Lemma find_leading_inv (h h1 : heap) (t : loc) (x : Indices) (p : Z) :
  find_leading t x h = Ok (p, h1) -> h1 = h /\ leading_position h t x p.
Proof.
  unfold find_leading. intros H.
  apply bind_inv in H as (o & h0 & Hg & H).
  unfold get in Hg. destruct (h !! t) as [o'|] eqn:Ht; [|discriminate].
  injection Hg as -> <-.
  destruct (indices (o_attrs o)) as [ix|] eqn:Hi; [|discriminate].
  apply bind_inv in H as (x0 & h2 & Hx & H).
  unfold lift in Hx, H. destruct x as [|[x0' d] rest]; [discriminate|].
  cbn in Hx. injection Hx as <- <-.
  unfold find in H. destruct (position x0' (index_names ix)) as [q|] eqn:Hq; [|discriminate].
  injection H as <- <-. split; [reflexivity|].
  exists o, ix, (x0', d), rest, q. repeat split; assumption.
Qed.

Lemma find_leading_position (h : heap) (t : loc) (x : Indices) (p : Z) :
  leading_position h t x p -> find_leading t x h = Ok (p, h).
Proof.
  intros (o & ix & [x0 d] & rest & q & Ht & Hi & -> & Hq & ->).
  unfold find_leading. rewrite (bind_Ok _ _ _ _ _ (get_Some _ _ _ Ht)). rewrite Hi.
  unfold bind, lift, find. cbn [Indices_getitem0]. cbn [fst] in Hq. rewrite Hq.
  reflexivity.
Qed.

(** The matrix-vector case of the constructor: the right operand is not
    looked at. *)
Lemma LoopOverGEMM_init_gemv (h : heap) (ix m k : Indices) (a b : loc) (pm pk : Z) :
  leading_position h a m pm -> leading_position h a k pk ->
  LoopOverGEMM_init ix a b m [] k h =
    Ok (length h, h ++ [gemm_object ix m [] k a b (pm >? pk) false]).
Proof.
  intros Hm Hk. unfold LoopOverGEMM_init.
  rewrite (bind_Ok _ _ _ _ _ (find_leading_position _ _ _ _ Hm)).
  rewrite (bind_Ok _ _ _ _ _ (find_leading_position _ _ _ _ Hk)).
  reflexivity.
Qed.

(** The matrix-matrix case: the leading indices of [k] and [n] are looked
    up in the right operand. *)
Lemma LoopOverGEMM_init_gemm (h : heap) (ix m n k : Indices) (a b : loc) (pm pk qk qn : Z) :
  leading_position h a m pm -> leading_position h a k pk -> n <> [] ->
  leading_position h b k qk -> leading_position h b n qn ->
  LoopOverGEMM_init ix a b m n k h =
    Ok (length h, h ++ [gemm_object ix m n k a b (pm >? pk) (qk >? qn)]).
Proof.
  intros Hm Hk Hn Hqk Hqn. unfold LoopOverGEMM_init.
  rewrite (bind_Ok _ _ _ _ _ (find_leading_position _ _ _ _ Hm)).
  rewrite (bind_Ok _ _ _ _ _ (find_leading_position _ _ _ _ Hk)).
  destruct n as [|n0 n']; [congruence|].
  cbn [isGEMV_of length Nat.eqb negb].
  unfold bind at 1.
  rewrite (bind_Ok _ _ _ _ _ (find_leading_position _ _ _ _ Hqk)).
  rewrite (bind_Ok _ _ _ _ _ (find_leading_position _ _ _ _ Hqn)).
  reflexivity.
Qed.

(** The three queries on a node the constructor has just put into the
    store. *)
Lemma queries_of_gemm_object (h : heap) (ix m n k : Indices) (a b : loc) (tA tB : bool) :
  isGEMV (length h) (h ++ [gemm_object ix m n k a b tA tB]) =
    Ok (isGEMV_of n, h ++ [gemm_object ix m n k a b tA tB]) /\
  transA (length h) (h ++ [gemm_object ix m n k a b tA tB]) =
    Ok (tA, h ++ [gemm_object ix m n k a b tA tB]) /\
  transB (length h) (h ++ [gemm_object ix m n k a b tA tB]) =
    Ok (tB, h ++ [gemm_object ix m n k a b tA tB]).
Proof.
  pose proof (lookup_alloc_new h (gemm_object ix m n k a b tA tB)) as Hself.
  unfold isGEMV, transA, transB.
  rewrite !(bind_Ok _ _ _ _ _ (class_of_Some _ _ _ Hself)).
  repeat split; reflexivity.
Qed.

(** C8: for the partition [(m, n, k)], with [pm] and [pk] the positions of
    the leading indices of [m] and [k] in the left operand.  With an empty
    [n] the constructor returns a node that answers [isGEMV] with true, is
    flagged transposed on the left iff [pm > pk], and is not flagged on the
    right, whatever the right operand is.  With a non-empty [n], and [qk]
    and [qn] the positions of the leading indices of [k] and [n] in the
    right operand, the node answers [isGEMV] with false, and is flagged
    transposed on the left iff [pm > pk] and on the right iff [qk > qn].
    And every node the constructor returns is one of these: it is the
    matrix-vector variant iff [n] is empty; its left operand is flagged
    transposed iff the position of [m]'s leading index in the left operand
    comes after that of [k]'s leading index; and its right operand is
    flagged transposed iff [n] is not empty and the position of [k]'s
    leading index in the right operand comes after that of [n]'s leading
    index. *)
Theorem LoopOverGEMM_flags (h : heap) (ix m n k : Indices) (a b : loc) :
  (forall pm pk,
     leading_position h a m pm -> leading_position h a k pk -> n = [] ->
     LoopOverGEMM_init ix a b m n k h =
       Ok (length h, h ++ [gemm_object ix m n k a b (pm >? pk) false]) /\
     isGEMV (length h) (h ++ [gemm_object ix m n k a b (pm >? pk) false]) =
       Ok (true, h ++ [gemm_object ix m n k a b (pm >? pk) false]) /\
     transA (length h) (h ++ [gemm_object ix m n k a b (pm >? pk) false]) =
       Ok (pm >? pk, h ++ [gemm_object ix m n k a b (pm >? pk) false]) /\
     transB (length h) (h ++ [gemm_object ix m n k a b (pm >? pk) false]) =
       Ok (false, h ++ [gemm_object ix m n k a b (pm >? pk) false])) /\
  (forall pm pk qk qn,
     leading_position h a m pm -> leading_position h a k pk -> n <> [] ->
     leading_position h b k qk -> leading_position h b n qn ->
     LoopOverGEMM_init ix a b m n k h =
       Ok (length h, h ++ [gemm_object ix m n k a b (pm >? pk) (qk >? qn)]) /\
     isGEMV (length h) (h ++ [gemm_object ix m n k a b (pm >? pk) (qk >? qn)]) =
       Ok (false, h ++ [gemm_object ix m n k a b (pm >? pk) (qk >? qn)]) /\
     transA (length h) (h ++ [gemm_object ix m n k a b (pm >? pk) (qk >? qn)]) =
       Ok (pm >? pk, h ++ [gemm_object ix m n k a b (pm >? pk) (qk >? qn)]) /\
     transB (length h) (h ++ [gemm_object ix m n k a b (pm >? pk) (qk >? qn)]) =
       Ok (qk >? qn, h ++ [gemm_object ix m n k a b (pm >? pk) (qk >? qn)])) /\
  (forall self h',
     LoopOverGEMM_init ix a b m n k h = Ok (self, h') ->
     exists tA tB pm pk,
       h' !! self = Some (mkObject (mkAttrs (LoopOverGEMM m n k tA tB) (Some ix) None None None)
                                   [a; b]) /\
       isGEMV self h' = Ok (bool_decide (n = []), h') /\
       transA self h' = Ok (tA, h') /\
       transB self h' = Ok (tB, h') /\
       leading_position h a m pm /\ leading_position h a k pk /\
       (tA = true <-> pk < pm) /\
       (tB = true <->
          n <> [] /\ exists qk qn,
            leading_position h b k qk /\ leading_position h b n qn /\ qn < qk)).
Proof.
  split; [|split].
  - intros pm pk Hm Hk ->.
    split; [apply (LoopOverGEMM_init_gemv h ix m k a b pm pk Hm Hk)|].
    apply (queries_of_gemm_object h ix m [] k a b (pm >? pk) false).
  - intros pm pk qk qn Hm Hk Hn Hqk Hqn.
    split; [apply (LoopOverGEMM_init_gemm h ix m n k a b pm pk qk qn Hm Hk Hn Hqk Hqn)|].
    destruct (queries_of_gemm_object h ix m n k a b (pm >? pk) (qk >? qn)) as (HG & HA & HB).
    split; [|split; assumption].
    rewrite HG. destruct n; [congruence | reflexivity].
  - intros self h'.
    unfold LoopOverGEMM_init. intros H.
    apply bind_inv in H as (pm & h1 & Hm & H). apply find_leading_inv in Hm as (-> & Hm).
    apply bind_inv in H as (pk & h1 & Hk & H). apply find_leading_inv in Hk as (-> & Hk).
    apply bind_inv in H as (tB & h1 & HB & H).
    assert (h1 = h /\
            (tB = true <->
               n <> [] /\ exists qk qn,
                 leading_position h b k qk /\ leading_position h b n qn /\ qn < qk)) as (-> & HtB).
    { destruct n as [|n0 n'].
      - cbn in HB. injection HB as <- <-. split; [reflexivity|].
        split; [discriminate | intros (N & _); congruence].
      - cbn [isGEMV_of length Nat.eqb negb] in HB.
        apply bind_inv in HB as (qk & h2 & Hqk & HB).
        apply find_leading_inv in Hqk as (-> & Hqk).
        apply bind_inv in HB as (qn & h2 & Hqn & HB).
        apply find_leading_inv in Hqn as (-> & Hqn).
        injection HB as <- <-. split; [reflexivity|].
        rewrite Z.gtb_ltb, Z.ltb_lt. split.
        + intros Hlt. split; [discriminate|]. exists qk, qn. auto.
        + intros (_ & qk' & qn' & Hqk' & Hqn' & Hlt).
          apply find_leading_position in Hqk, Hqn, Hqk', Hqn'.
          rewrite Hqk in Hqk'. rewrite Hqn in Hqn'.
          injection Hqk' as <-. injection Hqn' as <-. exact Hlt. }
    unfold alloc in H. injection H as <- <-.
    exists (pm >? pk), tB, pm, pk.
    pose proof (lookup_alloc_new h
      (mkObject (mkAttrs (LoopOverGEMM m n k (pm >? pk) tB) (Some ix) None None None) [a; b]))
      as Hself.
    split; [exact Hself|].
    split.
    { unfold isGEMV. rewrite (bind_Ok _ _ _ _ _ (class_of_Some _ _ _ Hself)).
      cbn [o_attrs klass]. unfold ret, isGEMV_of. do 2 f_equal.
      destruct n; reflexivity. }
    split.
    { unfold transA. rewrite (bind_Ok _ _ _ _ _ (class_of_Some _ _ _ Hself)). reflexivity. }
    split.
    { unfold transB. rewrite (bind_Ok _ _ _ _ _ (class_of_Some _ _ _ Hself)). reflexivity. }
    split; [exact Hm|]. split; [exact Hk|]. split; [|exact HtB].
    rewrite Z.gtb_ltb, Z.ltb_lt. reflexivity.
Qed.

(** In the store of [A['ik']], [B['kj']] and [B['jk']]: the partition
    [(i, (), k)] gives a matrix-vector node with nothing transposed; the
    partition [(k, (), i)] gives one whose left operand is transposed ([k]
    at 1 comes after [i] at 0); and with [B['jk']] on the right the
    partition [(i, j, k)] gives a node that is no matrix-vector product and
    whose right operand is transposed ([k] at 1 comes after [j] at 0). *)
Lemma LoopOverGEMM_flags_witness :
  (LoopOverGEMM_init ix_i 0%nat 1%nat ix_i [] ix_k store_gemm =
     Ok (3%nat, store_gemm ++ [gemm_object ix_i ix_i [] ix_k 0%nat 1%nat false false]) /\
   isGEMV 3%nat (store_gemm ++ [gemm_object ix_i ix_i [] ix_k 0%nat 1%nat false false]) =
     Ok (true, store_gemm ++ [gemm_object ix_i ix_i [] ix_k 0%nat 1%nat false false]) /\
   transA 3%nat (store_gemm ++ [gemm_object ix_i ix_i [] ix_k 0%nat 1%nat false false]) =
     Ok (false, store_gemm ++ [gemm_object ix_i ix_i [] ix_k 0%nat 1%nat false false]) /\
   transB 3%nat (store_gemm ++ [gemm_object ix_i ix_i [] ix_k 0%nat 1%nat false false]) =
     Ok (false, store_gemm ++ [gemm_object ix_i ix_i [] ix_k 0%nat 1%nat false false])) /\
  (LoopOverGEMM_init ix_k 0%nat 1%nat ix_k [] ix_i store_gemm =
     Ok (3%nat, store_gemm ++ [gemm_object ix_k ix_k [] ix_i 0%nat 1%nat true false]) /\
   isGEMV 3%nat (store_gemm ++ [gemm_object ix_k ix_k [] ix_i 0%nat 1%nat true false]) =
     Ok (true, store_gemm ++ [gemm_object ix_k ix_k [] ix_i 0%nat 1%nat true false]) /\
   transA 3%nat (store_gemm ++ [gemm_object ix_k ix_k [] ix_i 0%nat 1%nat true false]) =
     Ok (true, store_gemm ++ [gemm_object ix_k ix_k [] ix_i 0%nat 1%nat true false]) /\
   transB 3%nat (store_gemm ++ [gemm_object ix_k ix_k [] ix_i 0%nat 1%nat true false]) =
     Ok (false, store_gemm ++ [gemm_object ix_k ix_k [] ix_i 0%nat 1%nat true false])) /\
  (LoopOverGEMM_init ix_ij 0%nat 2%nat ix_i ix_j ix_k store_gemm =
     Ok (3%nat, store_gemm_node) /\
   isGEMV 3%nat store_gemm_node = Ok (false, store_gemm_node) /\
   transA 3%nat store_gemm_node = Ok (false, store_gemm_node) /\
   transB 3%nat store_gemm_node = Ok (true, store_gemm_node)) /\
  exists tA tB pm pk,
    store_gemm_node !! 3%nat =
      Some (mkObject (mkAttrs (LoopOverGEMM ix_i ix_j ix_k tA tB) (Some ix_ij) None None None)
                     [0; 2]%nat) /\
    isGEMV 3%nat store_gemm_node = Ok (bool_decide (ix_j = []), store_gemm_node) /\
    transA 3%nat store_gemm_node = Ok (tA, store_gemm_node) /\
    transB 3%nat store_gemm_node = Ok (tB, store_gemm_node) /\
    leading_position store_gemm 0%nat ix_i pm /\ leading_position store_gemm 0%nat ix_k pk /\
    (tA = true <-> pk < pm) /\
    (tB = true <->
       ix_j <> [] /\ exists qk qn,
         leading_position store_gemm 2%nat ix_k qk /\
         leading_position store_gemm 2%nat ix_j qn /\ qn < qk).
Proof.
  split; [|split; [|split]].
  - refine (proj1 (LoopOverGEMM_flags store_gemm ix_i ix_i [] ix_k 0%nat 1%nat) 0 1 _ _ eq_refl).
    + eexists _, _, _, _, _. repeat split; reflexivity.
    + eexists _, _, _, _, _. repeat split; reflexivity.
  - refine (proj1 (LoopOverGEMM_flags store_gemm ix_k ix_k [] ix_i 0%nat 1%nat) 1 0 _ _ eq_refl).
    + eexists _, _, _, _, _. repeat split; reflexivity.
    + eexists _, _, _, _, _. repeat split; reflexivity.
  - refine (proj1 (proj2 (LoopOverGEMM_flags store_gemm ix_ij ix_i ix_j ix_k 0%nat 2%nat))
              0 1 1 0 _ _ _ _ _).
    + eexists _, _, _, _, _. repeat split; reflexivity.
    + eexists _, _, _, _, _. repeat split; reflexivity.
    + discriminate.
    + eexists _, _, _, _, _. repeat split; reflexivity.
    + eexists _, _, _, _, _. repeat split; reflexivity.
  - apply (proj2 (proj2 (LoopOverGEMM_flags store_gemm ix_ij ix_i ix_j ix_k 0%nat 2%nat))
             3%nat store_gemm_node).
    reflexivity.
Defined.

(** ** The lowering pass *)

Lemma tree_ind_children (P : tree -> Prop) :
  (forall a cs, Forall P cs -> P (T a cs)) -> forall n, P n.
Proof.
  intros H. fix IH 1. intros [a cs]. apply H.
  induction cs as [|c cs IHcs]; constructor; [apply IH | exact IHcs].
Qed.

Lemma ml_state (node : tree) (st st' : AST2ControlFlow) (r : option MemoryLayout) :
  _ml node st = Ok (r, st') -> st' = st.
Proof.
  unfold _ml. destruct (_simpleMemoryLayout st).
  - destruct (node_shape (node_attrs node)); cbn; congruence.
  - congruence.
Qed.

(** A temporary is writable, refers to no tensor, is named after the
    counter, and taking it moves the counter only. *)
Lemma nextTemporary_inv (node : tree) (st st' : AST2ControlFlow) (v : Variable_) :
  _nextTemporary node st = Ok (v, st') ->
  st' = mkPass (S (_tmp st)) (_cfg st) (_writable st) (_simpleMemoryLayout st) /\
  v_name v = TEMPORARY_RESULT +:+ str_nat (_tmp st) /\
  v_writable v = true /\ v_tensor v = None.
Proof.
  unfold _nextTemporary.
  destruct (_ml node _) as [[ml st1]| |] eqn:E; cbn; try discriminate.
  apply ml_state in E. subst st1. intros H. injection H as <- <-. auto.
Qed.

Lemma add_actions_points (tmp : Variable_) (vs : list Variable_) (add : bool)
    (st : AST2ControlFlow) :
  add_actions tmp vs add st =
    Ok (tt, mkPass (_tmp st)
                   (_cfg st ++ match vs with
                               | [] => []
                               | v :: rest => copy_point tmp v add
                                              :: map (fun w => copy_point tmp w true) rest
                               end)
                   (_writable st) (_simpleMemoryLayout st)).
Proof.
  revert add st. induction vs as [|v vs IH]; intros add st.
  - cbn. rewrite app_nil_r. destruct st; reflexivity.
  - cbn [add_actions]. unfold bind, _addAction. rewrite IH. cbn.
    rewrite <- app_assoc. destruct vs; reflexivity.
Qed.

(** *** The order of the operands of an [Add] *)

Lemma add_key_range (v : Variable_) : add_key v = 0 \/ add_key v = 1 \/ add_key v = 2.
Proof. unfold add_key. destruct (v_writable v), (isGlobal v); cbn; lia. Qed.

Lemma insert_by_key_front {A} (key : A -> Z) (x : A) (l : list A) :
  Forall (fun y => key x <= key y) l -> insert_by_key key x l = x :: l.
Proof.
  intros H. destruct H as [|y l Hy _]; [reflexivity|].
  cbn. apply Z.leb_le in Hy. rewrite Hy. reflexivity.
Qed.

Lemma insert_by_key_skip {A} (key : A -> Z) (x : A) (l1 l2 : list A) :
  Forall (fun y => key y < key x) l1 ->
  insert_by_key key x (l1 ++ l2) = l1 ++ insert_by_key key x l2.
Proof.
  induction 1 as [|y l1 Hy _ IH]; [reflexivity|].
  cbn. apply Z.leb_gt in Hy. rewrite Hy, IH. reflexivity.
Qed.

Lemma Forall_filter_key (k : Z) (vs : list Variable_) (P : Z -> Prop) :
  P k -> Forall (fun y => P (add_key y)) (filter (fun v => add_key v = k) vs).
Proof.
  intros Hk. apply Forall_forall. intros y Hy.
  apply list_elem_of_filter in Hy as [-> _]. exact Hk.
Qed.

(** The stable sort on the penalty is the three groups one after the
    other. *)
Lemma sort_by_penalty (vs : list Variable_) :
  sort_by_key add_key vs = by_penalty vs.
Proof.
  induction vs as [|x vs IH]; [reflexivity|].
  cbn [sort_by_key foldr]. fold (sort_by_key add_key vs). rewrite IH.
  unfold by_penalty. rewrite !filter_cons.
  destruct (add_key_range x) as [K | [K | K]].
  - rewrite decide_True by exact K. rewrite !decide_False by lia.
    apply insert_by_key_front. rewrite K.
    repeat (apply Forall_app; split);
      apply (Forall_filter_key _ _ (fun z => 0 <= z)); lia.
  - rewrite (decide_False (P := add_key x = 0)) by lia.
    rewrite (decide_True (P := add_key x = 1)) by exact K.
    rewrite (decide_False (P := add_key x = 2)) by lia.
    rewrite insert_by_key_skip
      by (rewrite K; apply (Forall_filter_key _ _ (fun z => z < 1)); lia).
    f_equal. apply insert_by_key_front. rewrite K.
    repeat (apply Forall_app; split);
      apply (Forall_filter_key _ _ (fun z => 1 <= z)); lia.
  - rewrite (decide_False (P := add_key x = 0)) by lia.
    rewrite (decide_False (P := add_key x = 1)) by lia.
    rewrite (decide_True (P := add_key x = 2)) by exact K.
    rewrite insert_by_key_skip
      by (rewrite K; apply (Forall_filter_key _ _ (fun z => z < 2)); lia).
    f_equal.
    rewrite insert_by_key_skip
      by (rewrite K; apply (Forall_filter_key _ _ (fun z => z < 2)); lia).
    f_equal. apply insert_by_key_front. rewrite K.
    apply (Forall_filter_key _ _ (fun z => 2 <= z)); lia.
Qed.

(** C2, amended: lowering an [Add] whose operands evaluate to [vs] orders
    them by the penalty [int(not writable) + int(not global)], stably:
    writable globals first, then the operands that are writable or global
    but not both, then the others.  Into one fresh temporary it emits one
    action per operand: a plain assignment of the first of them and an
    accumulation of each other one. *)
Theorem visit_Add_actions (float_str : float -> string) (a : attrs) (cs : list tree)
    (st st1 st2 : AST2ControlFlow) (vs : list Variable_) (tmp : Variable_) :
  klass a = Add ->
  mapM (visit float_str) cs st = Ok (vs, st1) ->
  (1 < length vs)%nat ->
  _nextTemporary (T a cs) st1 = Ok (tmp, st2) ->
  visit float_str (T a cs) st =
    Ok (tmp, mkPass (S (_tmp st1))
                    (_cfg st1 ++ accumulate_into tmp (by_penalty vs))
                    (_writable st1) (_simpleMemoryLayout st1)) /\
  v_name tmp = TEMPORARY_RESULT +:+ str_nat (_tmp st1) /\
  v_tensor tmp = None /\
  length (accumulate_into tmp (by_penalty vs)) = length vs.
Proof.
  intros Hk Hvs Hlen Htmp.
  destruct (nextTemporary_inv _ _ _ _ Htmp) as (-> & Hname & _ & Hten).
  split; [|split; [exact Hname|split; [exact Hten|]]].
  - cbn [visit]. rewrite Hk. unfold visit_Add. cbn [node_children].
    rewrite (bind_Ok _ _ _ _ _ Hvs).
    replace (1 <? length vs)%nat with true by (symmetry; apply Nat.ltb_lt, Hlen).
    cbn [negb]. rewrite (bind_Ok _ _ _ _ _ Htmp).
    unfold bind. rewrite add_actions_points. rewrite sort_by_penalty. reflexivity.
  - rewrite <- sort_by_penalty.
    assert (forall l : list Variable_, length (accumulate_into tmp l) = length l) as L.
    { intros [|x l]; cbn; [reflexivity|]. rewrite length_map. reflexivity. }
    rewrite L.
    assert (forall (x : Variable_) l, length (insert_by_key add_key x l) = S (length l)) as I.
    { intros x l. induction l as [|y l IH]; cbn; [reflexivity|].
      destruct (add_key x <=? add_key y); cbn; [reflexivity|]. rewrite IH. reflexivity. }
    induction vs as [|x l IH] in |- *; [reflexivity|].
    cbn [sort_by_key foldr]. rewrite I. cbn. f_equal.
    clear -I. induction l as [|y l IH]; [reflexivity|].
    cbn [foldr]. rewrite I. cbn. f_equal. exact IH.
Qed.

(** [D + A * B] in a new pass instance: the operands are [D] (global, not
    writable) and [_tmp0] (writable, not global); both have penalty 1, so
    [D] stays in front: [_tmp1 = D], then [_tmp1 += _tmp0]. *)
Lemma visit_Add_actions_witness :
  visit no_float_str tree_D_plus_AB (AST2ControlFlow_init false) =
    Ok (var_tmp1, pass_after_D_plus_AB).
Proof.
  refine (proj1 (visit_Add_actions no_float_str (op_attrs Add ij) [leaf tD ij; tree_AB]
                   (AST2ControlFlow_init false)
                   pass_after_AB (mkPass 2 [point_AB] ∅ false)
                   [var_D; var_tmp0] var_tmp1 eq_refl _ _ _)).
  - reflexivity.
  - cbn. lia.
  - reflexivity.
Defined.

(** C2 as it is written does not hold: in the lowering of [D + A * B] the
    plain assignment takes [D], which is not writable, and the writable
    [_tmp0] comes after it. *)
Lemma add_prefers_writable_fails : ~ add_prefers_writable.
Proof.
  intros H.
  specialize (H no_float_str tree_D_plus_AB (AST2ControlFlow_init false)
                pass_after_D_plus_AB var_tmp1 eq_refl eq_refl).
  specialize (H 0%nat 1%nat var_D var_tmp0 eq_refl eq_refl (Nat.lt_0_succ 0) eq_refl).
  discriminate H.
Qed.

(** *** The writable set *)

Lemma mapM_cons_inv {S A B} (f : A -> ST S B) (x : A) (l : list A) (s s' : S)
    (ys : list B) :
  mapM f (x :: l) s = Ok (ys, s') ->
  exists y ys' s1, f x s = Ok (y, s1) /\ mapM f l s1 = Ok (ys', s') /\ ys = y :: ys'.
Proof.
  cbn [mapM]. intros H.
  apply bind_inv in H as (y & s1 & Hy & H).
  apply bind_inv in H as (ys' & s2 & Hys & H).
  injection H as <- <-. exists y, ys', s1. auto.
Qed.

Section Writable.
Variable float_str : float -> string.
Local Abbreviation adds_targets := (adds_targets float_str).

Lemma mapM_adds_targets (cs : list tree) :
  Forall adds_targets cs ->
  forall st vs st',
    mapM (visit float_str) cs st = Ok (vs, st') ->
    _writable st' = _writable st ∪ ⋃ (map (targets float_str) cs).
Proof.
  induction 1 as [|c cs Hc _ IH]; intros st vs st' H.
  - cbn in H. injection H as <- <-. cbn. set_solver.
  - apply mapM_cons_inv in H as (y & ys' & s1 & Hy & Hys & ->).
    apply Hc in Hy. apply IH in Hys. rewrite Hys, Hy. cbn. set_solver.
Qed.

Lemma generic_visit_adds_targets (a : attrs) (cs : list tree) :
  Forall adds_targets cs ->
  forall st v st',
    generic_visit (visit float_str) (T a cs) st = Ok (v, st') ->
    _writable st' = _writable st ∪ ⋃ (map (targets float_str) cs).
Proof.
  intros Hcs st v st' H. unfold generic_visit in H. cbn [node_children] in H.
  apply bind_inv in H as (vs & s1 & Hvs & H).
  apply bind_inv in H as (res & s2 & Hres & H).
  apply bind_inv in H as (ml & s3 & Hml & H).
  apply bind_inv in H as (u & s4 & Hact & H).
  injection H as <- <-.
  apply (mapM_adds_targets cs Hcs) in Hvs.
  apply nextTemporary_inv in Hres as (-> & _).
  apply ml_state in Hml as ->.
  unfold _addAction in Hact. injection Hact as <- <-. cbn. exact Hvs.
Qed.

Lemma visit_adds_targets (n : tree) : adds_targets n.
Proof.
  induction n as [a cs IH] using tree_ind_children.
  intros st v st' H. cbn [visit targets] in *.
  destruct (klass a) eqn:Hk;
    try (exact (generic_visit_adds_targets a cs IH st v st' H)).
  - (* IndexedTensor *)
    unfold visit_IndexedTensor in H. cbn [node_attrs] in H. rewrite Hk in H.
    destruct (_ml (T a cs) st) as [[ml s1]| |] eqn:Hml; cbn in H; try discriminate.
    apply ml_state in Hml as ->. injection H as <- <-. set_solver.
  - (* Add *)
    unfold visit_Add in H. cbn [node_children] in H.
    apply bind_inv in H as (vs & s1 & Hvs & H).
    destruct (negb (1 <? length vs)%nat); [discriminate|].
    apply bind_inv in H as (tmp & s2 & Htmp & H).
    apply bind_inv in H as (u & s3 & Hact & H).
    injection H as <- <-.
    apply (mapM_adds_targets cs IH) in Hvs.
    apply nextTemporary_inv in Htmp as (-> & _).
    rewrite add_actions_points in Hact. injection Hact as <- <-. cbn. exact Hvs.
  - (* ScalarMultiplication *)
    unfold visit_ScalarMultiplication in H. cbn [node_children node_attrs] in H.
    rewrite Hk in H. destruct cs as [|t cs]; [discriminate|].
    apply bind_inv in H as (var & s1 & Hvar & H).
    apply bind_inv in H as (res & s2 & Hres & H).
    apply bind_inv in H as (u & s3 & Hact & H).
    injection H as <- <-.
    apply Forall_cons in IH as [Ht _]. apply Ht in Hvar.
    apply nextTemporary_inv in Hres as (-> & _).
    unfold _addAction in Hact. injection Hact as <- <-. cbn. exact Hvar.
  - (* Assign *)
    unfold visit_Assign in H. cbn [node_children] in H.
    destruct cs as [|c0 cs]; [discriminate|].
    apply bind_inv in H as (name & s1 & Hname & H).
    unfold lift in Hname.
    destruct (node_name float_str (node_attrs c0)) as [nm| |]; try discriminate.
    injection Hname as -> <-.
    apply bind_inv in H as (u & s2 & Hset & H).
    unfold set_writable in Hset. injection Hset as <- <-.
    apply bind_inv in H as (vs & s3 & Hvs & H).
    apply (mapM_adds_targets (c0 :: cs) IH) in Hvs.
    destruct vs as [|v0 [|v1 vs]]; try discriminate.
    apply bind_inv in H as (u' & s4 & Hact & H).
    injection H as <- <-.
    unfold _addAction in Hact. injection Hact as <- <-.
    cbn [_writable] in *. rewrite Hvs. set_solver.
Qed.

End Writable.

(** C5: an [IndexedTensor] lowers to a Variable of its tensor that is
    writable iff the tensor's name is in the writable set of the pass at
    that moment; an [Assign] registers the name of its left tensor and only
    then visits its children, so that the left Variable is writable and the
    right side is lowered with the name registered; and the writable set
    after any traversal is the set before it together with the targets met,
    so that a registration stays for whatever the same pass instance lowers
    next. *)
Theorem writable_registration (float_str : float -> string) :
  (forall a cs t st v st',
     klass a = IndexedTensor t ->
     visit float_str (T a cs) st = Ok (v, st') ->
     st' = st /\ v_name v = t_name t /\ v_tensor v = Some t /\
     (v_writable v = true <-> t_name t ∈ _writable st)) /\
  (forall a l r tl st v st',
     klass a = Assign -> klass (node_attrs l) = IndexedTensor tl ->
     visit float_str (T a [l; r]) st = Ok (v, st') ->
     exists v1 st1,
       visit float_str l (register (t_name tl) st) = Ok (v, register (t_name tl) st) /\
       v_writable v = true /\
       visit float_str r (register (t_name tl) st) = Ok (v1, st1) /\
       st' = with_action (mkProgramAction v (TermVariable v1) false None) st1 /\
       t_name tl ∈ _writable st') /\
  (forall n st v st',
     visit float_str n st = Ok (v, st') ->
     _writable st' = _writable st ∪ targets float_str n) /\
  (forall n1 n2 st v1 st1 v2 st2,
     visit float_str n1 st = Ok (v1, st1) ->
     visit float_str n2 st1 = Ok (v2, st2) ->
     targets float_str n1 ⊆ _writable st1 /\ targets float_str n1 ⊆ _writable st2).
Proof.
  assert (forall a cs t st v st',
     klass a = IndexedTensor t ->
     visit float_str (T a cs) st = Ok (v, st') ->
     st' = st /\ v_name v = t_name t /\ v_tensor v = Some t /\
     (v_writable v = true <-> t_name t ∈ _writable st)) as Leaf.
  { intros a cs t st v st' Hk H. cbn [visit] in H. rewrite Hk in H.
    unfold visit_IndexedTensor in H. cbn [node_attrs] in H. rewrite Hk in H.
    destruct (_ml (T a cs) st) as [[ml s1]| |] eqn:Hml; cbn in H; try discriminate.
    apply ml_state in Hml as ->. injection H as <- <-. cbn.
    repeat split; try reflexivity; apply bool_decide_eq_true. }
  split; [exact Leaf|]. split; [|split].
  - intros a l r tl st v st' Hk Hl H. cbn [visit] in H. rewrite Hk in H.
    unfold visit_Assign in H. cbn [node_children] in H.
    apply bind_inv in H as (name & s1 & Hname & H).
    unfold lift, node_name in Hname. rewrite Hl in Hname. injection Hname as <- <-.
    apply bind_inv in H as (u & s2 & Hset & H).
    unfold set_writable in Hset. injection Hset as <- <-.
    fold (register (t_name tl) st) in H.
    apply bind_inv in H as (vs & s3 & Hvs & H).
    apply mapM_cons_inv in Hvs as (v0 & vs0 & s4 & Hv0 & Hvs & ->).
    apply mapM_cons_inv in Hvs as (v1 & vs1 & s5 & Hv1 & Hvs & ->).
    cbn in Hvs. injection Hvs as <- <-.
    apply bind_inv in H as (u' & s6 & Hact & H). injection H as <- <-.
    unfold _addAction in Hact. injection Hact as <- <-.
    destruct l as [al cl]. cbn [node_attrs] in Hl.
    destruct (Leaf al cl tl _ _ _ Hl Hv0) as (-> & _ & _ & Hw).
    pose proof (visit_adds_targets float_str r _ _ _ Hv1) as Hr.
    exists v1, s5. split; [exact Hv0|]. split.
    { apply Hw. cbn. set_solver. }
    split; [exact Hv1|]. split; [reflexivity|].
    cbn [with_action _writable]. rewrite Hr. cbn. set_solver.
  - exact (visit_adds_targets float_str).
  - intros n1 n2 st v1 st1 v2 st2 H1 H2.
    apply visit_adds_targets in H1, H2. rewrite H2, H1. set_solver.
Qed.

(** [C <= A * B] in a new pass instance registers [C]; the leaf [C] is
    lowered to a writable Variable in the state that is left. *)
Lemma writable_registration_witness :
  _writable pass_after_C_is_AB =
    _writable (AST2ControlFlow_init false) ∪ targets no_float_str tree_C_is_AB /\
  (v_writable var_C = true <-> t_name tC ∈ _writable pass_after_C_is_AB).
Proof.
  split.
  - refine (proj1 (proj2 (proj2 (writable_registration no_float_str)))
              tree_C_is_AB (AST2ControlFlow_init false) var_C pass_after_C_is_AB _).
    reflexivity.
  - refine (proj2 (proj2 (proj2 (proj1 (writable_registration no_float_str)
              (node_attrs (leaf tC ij)) [] tC pass_after_C_is_AB var_C pass_after_C_is_AB
              eq_refl _)))).
    reflexivity.
Defined.

(** ** Collection of the global tensors *)

(** One step of the collection raises nothing but the [NameError] of the
    unbound [node], or an [AttributeError] on a Variable without tensor. *)
Lemma collect_tensor_exn (var : Variable_) (d : tensors_t) (e : exn) :
  collect_tensor var d = Raise e -> e = NameError "node" \/ e = AttributeError.
Proof.
  unfold collect_tensor.
  destruct (v_tensor var) as [t|]; [|intros H; injection H as <-; auto].
  destruct (od_get (t_baseName t) d) as [[p|]|]; destruct (t_group t);
    intros H; try discriminate H; injection H as <-; auto.
Qed.

Lemma collect_tensors_exn (variables : list Variable_) (d : tensors_t) (e : exn) :
  collect_tensors variables d = Raise e -> e = NameError "node" \/ e = AttributeError.
Proof.
  revert d. induction variables as [|v vs IH]; intros d; cbn [collect_tensors].
  - discriminate.
  - destruct (collect_tensor v d) as [d'| e' |] eqn:E; cbn [rbind].
    + apply IH.
    + intros H. injection H as <-. exact (collect_tensor_exn _ _ _ E).
    + discriminate.
Qed.

(** C9 (the code departs from it): with the single tensor [Q] and the
    grouped [Q(0)] under the base name [Q], in either order, the collection
    stops with [NameError] for the name [node]; the [ValueError] whose
    message would name the base name is never raised, on any input. *)
Theorem mixed_groups_raise_NameError :
  mixed [var_Q; var_Q0] /\
  collect_tensors [var_Q; var_Q0] [] = Raise (NameError "node") /\
  collect_tensors [var_Q0; var_Q] [] = Raise (NameError "node") /\
  (forall variables d name bn,
     collect_tensors variables d <> Raise (ValueError (MixedGroups name bn))).
Proof.
  split; [|split; [reflexivity|split; [reflexivity|]]].
  - exists var_Q0, var_Q. repeat split; try reflexivity.
    + apply list_elem_of_In. cbn. auto.
    + apply list_elem_of_In. cbn. auto.
  - intros variables d name bn H.
    apply collect_tensors_exn in H as [H | H]; discriminate H.
Qed.

(** ** More on folding *)

(** A left operand that is of the operation's class absorbs the right one:
    its children when the right operand is of that class too, the operand
    itself otherwise.  The left operand is returned. *)
Lemma binOp_left_absorbs (h : heap) (a b : loc) (oa ob : object) (T : cls) :
  h !! a = Some oa -> h !! b = Some ob ->
  isinstance (klass (o_attrs oa)) (tag_of T) = true ->
  _binOp a b T h =
    Ok (a, <[a := mkObject (o_attrs oa)
                           (_children oa ++
                              if isinstance (klass (o_attrs ob)) (tag_of T)
                              then _children ob else [b])]> h).
Proof.
  intros Ha Hb Ia. unfold _binOp.
  rewrite (bind_Ok _ _ _ _ _ (get_Some _ _ _ Ha)).
  rewrite (bind_Ok _ _ _ _ _ (get_Some _ _ _ Hb)). rewrite Ia.
  destruct (isinstance (klass (o_attrs ob)) (tag_of T));
    rewrite (bind_Ok _ _ _ _ _ (set_children_Some _ _ _ _ Ha)); reflexivity.
Qed.

(** When only the right operand is of the operation's class, the left one
    is put in front of its children and the right operand is returned. *)
Lemma binOp_right_absorbs (h : heap) (a b : loc) (oa ob : object) (T : cls) :
  h !! a = Some oa -> h !! b = Some ob ->
  isinstance (klass (o_attrs oa)) (tag_of T) = false ->
  isinstance (klass (o_attrs ob)) (tag_of T) = true ->
  _binOp a b T h = Ok (b, <[b := mkObject (o_attrs ob) (a :: _children ob)]> h).
Proof.
  intros Ha Hb Na Ib. unfold _binOp.
  rewrite (bind_Ok _ _ _ _ _ (get_Some _ _ _ Ha)).
  rewrite (bind_Ok _ _ _ _ _ (get_Some _ _ _ Hb)). rewrite Na, Ib.
  rewrite (bind_Ok _ _ _ _ _ (set_children_Some _ _ _ _ Hb)). reflexivity.
Qed.

(** X2: the sum of two [Add] nodes is the left node itself, whose child
    list is now its own children followed by those of the right node; when
    one node is added to itself its child list doubles. *)
Theorem add_of_sums_concatenates (py : builtins) (h : heap) (a b : loc) (oa ob : object) :
  h !! a = Some oa -> h !! b = Some ob ->
  klass (o_attrs oa) = Add -> klass (o_attrs ob) = Add ->
  __add__ py a (ONode b) h =
    Ok (a, <[a := mkObject (o_attrs oa) (_children oa ++ _children ob)]> h) /\
  __add__ py a (ONode a) h =
    Ok (a, <[a := mkObject (o_attrs oa) (_children oa ++ _children oa)]> h).
Proof.
  intros Ha Hb Ka Kb. unfold __add__. split.
  - rewrite (binOp_left_absorbs h a b oa ob Add Ha Hb) by (rewrite Ka; reflexivity).
    rewrite Kb. reflexivity.
  - rewrite (binOp_left_absorbs h a a oa oa Add Ha Ha) by (rewrite Ka; reflexivity).
    rewrite Ka. reflexivity.
Qed.

(** X3: adding to an [Add] node appends the operand, adding an [Add] node to
    something else puts that in front; either way the existing [Add] object
    is returned and no object is created. *)
Theorem add_extends_existing_sum (py : builtins) (h : heap) (s x : loc) (os ox : object) :
  h !! s = Some os -> h !! x = Some ox ->
  klass (o_attrs os) = Add ->
  isinstance (klass (o_attrs ox)) TAdd = false ->
  __add__ py s (ONode x) h = Ok (s, <[s := mkObject (o_attrs os) (_children os ++ [x])]> h) /\
  __add__ py x (ONode s) h = Ok (s, <[s := mkObject (o_attrs os) (x :: _children os)]> h).
Proof.
  intros Hs Hx Ks Nx. unfold __add__. split.
  - rewrite (binOp_left_absorbs h s x os ox Add Hs Hx) by (rewrite Ks; reflexivity).
    change (tag_of Add) with TAdd. rewrite Nx. reflexivity.
  - apply (binOp_right_absorbs h x s ox os Add Hx Hs Nx). rewrite Ks. reflexivity.
Qed.

(** Between two nodes that are not [ScalarMultiplication]s, [*] is the
    folding into an [Einsum]. *)
Lemma mul_of_plain_nodes (fuel : nat) (h : heap) (x y : loc) (ox oy : object) :
  h !! x = Some ox -> h !! y = Some oy ->
  isinstance (klass (o_attrs ox)) TScalarMultiplication = false ->
  isinstance (klass (o_attrs oy)) TScalarMultiplication = false ->
  __mul__ (S fuel) x (ONode y) h = _binOp x y Einsum h.
Proof.
  intros Hx Hy Nx Ny. cbn [__mul__].
  rewrite (bind_Ok _ _ _ _ _ (class_of_Some _ _ _ Hx)).
  rewrite (bind_Ok _ _ _ _ _ (class_of_Some _ _ _ Hy)).
  rewrite Nx, Ny. reflexivity.
Qed.

(** X1: for operands [a], [b], [c] that are neither [Einsum] nor
    [ScalarMultiplication] nodes, [(a * b) * c] and [a * (b * c)] both return
    one new [Einsum] whose child list is [[a; b; c]]. *)
Theorem mul_three_is_flat (fuel : nat) (h : heap) (a b c : loc) (oa ob oc : object) :
  h !! a = Some oa -> h !! b = Some ob -> h !! c = Some oc ->
  isinstance (klass (o_attrs oa)) TEinsum = false ->
  isinstance (klass (o_attrs ob)) TEinsum = false ->
  isinstance (klass (o_attrs oc)) TEinsum = false ->
  isinstance (klass (o_attrs oa)) TScalarMultiplication = false ->
  isinstance (klass (o_attrs ob)) TScalarMultiplication = false ->
  isinstance (klass (o_attrs oc)) TScalarMultiplication = false ->
  mul3_left (S fuel) a b c h = Ok (length h, h ++ [fresh_op Einsum [a; b; c]]) /\
  mul3_right (S fuel) a b c h = Ok (length h, h ++ [fresh_op Einsum [a; b; c]]).
Proof.
  intros Ha Hb Hc Ea Eb Ec Sa Sb Sc. split.
  - unfold mul3_left.
    assert (__mul__ (S fuel) a (ONode b) h =
              Ok (length h, h ++ [fresh_op Einsum [a; b]])) as Hab.
    { rewrite (mul_of_plain_nodes fuel h a b oa ob Ha Hb Sa Sb).
      apply (binOp_fresh h a b oa ob Einsum Ha Hb Ea Eb). }
    rewrite (bind_Ok _ _ _ _ _ Hab).
    rewrite (mul_of_plain_nodes fuel _ _ c (fresh_op Einsum [a; b]) oc
               (lookup_alloc_new h _) (lookup_alloc_old h c oc _ Hc) eq_refl Sc).
    rewrite (binOp_left_absorbs _ _ c (fresh_op Einsum [a; b]) oc Einsum
               (lookup_alloc_new h _) (lookup_alloc_old h c oc _ Hc) eq_refl).
    change (tag_of Einsum) with TEinsum. rewrite Ec.
    rewrite insert_alloc_new. reflexivity.
  - unfold mul3_right.
    assert (__mul__ (S fuel) b (ONode c) h =
              Ok (length h, h ++ [fresh_op Einsum [b; c]])) as Hbc.
    { rewrite (mul_of_plain_nodes fuel h b c ob oc Hb Hc Sb Sc).
      apply (binOp_fresh h b c ob oc Einsum Hb Hc Eb Ec). }
    rewrite (bind_Ok _ _ _ _ _ Hbc).
    rewrite (mul_of_plain_nodes fuel _ a _ oa (fresh_op Einsum [b; c])
               (lookup_alloc_old h a oa _ Ha) (lookup_alloc_new h _) Sa eq_refl).
    rewrite (binOp_right_absorbs _ a _ oa (fresh_op Einsum [b; c]) Einsum
               (lookup_alloc_old h a oa _ Ha) (lookup_alloc_new h _) Ea eq_refl).
    rewrite insert_alloc_new. reflexivity.
Qed.

Lemma mul_three_is_flat_witness :
  mul3_left 1 0%nat 1%nat 2%nat store_XYZ =
    Ok (3%nat, store_XYZ ++ [fresh_op Einsum [0; 1; 2]%nat]) /\
  mul3_right 1 0%nat 1%nat 2%nat store_XYZ =
    Ok (3%nat, store_XYZ ++ [fresh_op Einsum [0; 1; 2]%nat]).
Proof.
  exact (mul_three_is_flat 0 store_XYZ 0%nat 1%nat 2%nat _ _ _
           eq_refl eq_refl eq_refl eq_refl eq_refl eq_refl eq_refl eq_refl eq_refl).
Defined.

(** In the store of [X], [Y], [Z] with [X + Y] at location 3 and [Y + Z] at
    location 4: [(X + Y) + (Y + Z)] is the node at 3 with four children. *)
Lemma add_of_sums_concatenates_witness :
  __add__ py_plain 3%nat (ONode 4%nat)
    (store_XYZ ++ [fresh_op Add [0; 1]; fresh_op Add [1; 2]]%nat) =
    Ok (3%nat, store_XYZ ++ [fresh_op Add [0; 1; 1; 2]; fresh_op Add [1; 2]]%nat).
Proof.
  exact (proj1 (add_of_sums_concatenates py_plain
                  (store_XYZ ++ [fresh_op Add [0; 1]; fresh_op Add [1; 2]]%nat)
                  3%nat 4%nat _ _ eq_refl eq_refl eq_refl eq_refl)).
Defined.

Lemma add_extends_existing_sum_witness :
  __add__ py_plain 3%nat (ONode 2%nat) (store_XYZ ++ [fresh_op Add [0; 1]%nat]) =
    Ok (3%nat, store_XYZ ++ [fresh_op Add [0; 1; 2]%nat]) /\
  __add__ py_plain 2%nat (ONode 3%nat) (store_XYZ ++ [fresh_op Add [0; 1]%nat]) =
    Ok (3%nat, store_XYZ ++ [fresh_op Add [2; 0; 1]%nat]).
Proof.
  exact (add_extends_existing_sum py_plain (store_XYZ ++ [fresh_op Add [0; 1]%nat])
           3%nat 2%nat _ _ eq_refl eq_refl eq_refl eq_refl).
Defined.

(** ** More on scalar multiplication *)

Lemma fixedIndexPermutation_plain (fuel : nat) (h : heap) (t : loc) (ot : object) :
  h !! t = Some ot ->
  isinstance (klass (o_attrs ot)) TScalarMultiplication = false ->
  fixedIndexPermutation (S fuel) t h =
    Ok (isinstance (klass (o_attrs ot)) TIndexedTensor, h).
Proof.
  intros Ht Nt. cbn [fixedIndexPermutation].
  rewrite (bind_Ok _ _ _ _ _ (class_of_Some _ _ _ Ht)).
  destruct (klass (o_attrs ot)); try reflexivity. discriminate Nt.
Qed.

(** The constructor on a term that is not a [ScalarMultiplication]: one
    new object, with the stored scalar, the term as only child and the
    indices of a tensor term. *)
Lemma ScalarMultiplication_init_plain (fuel : nat) (h : heap) (t : loc) (ot : object)
    (v : pyval) (c : bool) (s : pyval) :
  h !! t = Some ot ->
  isinstance (klass (o_attrs ot)) TScalarMultiplication = false ->
  stored_scalar v = Ok (c, s) ->
  ScalarMultiplication_init (S (S fuel)) v t h =
    Ok (length h, h ++ [scaled c s (inherited_indices ot) t]).
Proof.
  intros Ht Nt Hv. unfold ScalarMultiplication_init.
  assert (lift (S := heap)
            match v with
            | PyInt z => rbind (float_of_int z) (fun f => Ok (true, PyFloat f))
            | PyFloat f => Ok (true, PyFloat f)
            | _ => Ok (false, v)
            end h = Ok ((c, s), h)) as Hl.
  { unfold lift. unfold stored_scalar in Hv.
    destruct v; try (injection Hv as <- <-; reflexivity). rewrite Hv. reflexivity. }
  rewrite (bind_Ok _ _ _ _ _ Hl). cbn [fst snd].
  unfold Op_init at 1. unfold bind at 1. unfold alloc at 1.
  set (o0 := mkObject (mkAttrs (ScalarMultiplication c s) None None None None) [t]).
  assert ((h ++ [o0]) !! length h = Some o0) as Hnew by apply lookup_alloc_new.
  assert ((h ++ [o0]) !! t = Some ot) as Hold by (apply lookup_alloc_old, Ht).
  assert (t <> length h) as Hne by (apply lookup_lt_Some in Ht; lia).
  assert (setTerm (S (S fuel)) (length h) t (h ++ [o0]) =
            Ok (tt, h ++ [scaled c s (inherited_indices ot) t])) as Hset.
  { unfold setTerm.
    rewrite (bind_Ok _ _ _ _ _ (get_Some _ _ _ Hnew)). cbn [o0 _children].
    rewrite (bind_Ok _ _ _ _ _ (set_children_Some _ _ _ _ Hnew)).
    fold o0. cbn [o_attrs]. change (mkObject (o_attrs o0) [t]) with o0.
    rewrite insert_alloc_new.
    assert (fixedIndexPermutation (S (S fuel)) (length h) (h ++ [o0]) =
              Ok (isinstance (klass (o_attrs ot)) TIndexedTensor, h ++ [o0])) as Hf.
    { cbn [fixedIndexPermutation].
      rewrite (bind_Ok _ _ _ _ _ (class_of_Some _ _ _ Hnew)). cbn [o0 o_attrs klass].
      rewrite (bind_Ok _ _ _ _ _ (term_Some _ _ _ _ _ Hnew eq_refl)).
      apply (fixedIndexPermutation_plain fuel _ _ _ Hold Nt). }
    rewrite (bind_Ok _ _ _ _ _ Hf). unfold inherited_indices, scaled.
    destruct (isinstance (klass (o_attrs ot)) TIndexedTensor).
    - rewrite (bind_Ok _ _ _ _ _ (get_Some _ _ _ Hold)).
      unfold set_indices. rewrite (bind_Ok _ _ _ _ _ (get_Some _ _ _ Hnew)).
      unfold put. cbn [o0 o_attrs klass _eqspp _memoryLayout prefetch _children].
      rewrite insert_alloc_new. reflexivity.
    - unfold set_indices. rewrite (bind_Ok _ _ _ _ _ (get_Some _ _ _ Hnew)).
      unfold put. cbn [o0 o_attrs klass _eqspp _memoryLayout prefetch _children].
      rewrite insert_alloc_new. reflexivity. }
  rewrite (bind_Ok _ _ _ _ _ Hset). reflexivity.
Qed.

(** X4: multiplying a node that is not a [ScalarMultiplication] by a value
    that is not a node, from either side, creates one [ScalarMultiplication]
    over it: a float is a constant, an int is a constant converted to float,
    anything else is kept as a runtime scalar.  The new node has the indices
    of the term when that is an [IndexedTensor], and none otherwise.  The
    operand is not changed.  An int too large for a float makes the
    multiplication raise [OverflowError]. *)
Theorem scalar_wraps_node (fuel : nat) (h : heap) (n : loc) (o : object) (v : pyval) :
  h !! n = Some o ->
  isinstance (klass (o_attrs o)) TScalarMultiplication = false ->
  (forall c s, stored_scalar v = Ok (c, s) ->
     __mul__ (S (S (S fuel))) n (OVal v) h =
       Ok (length h, h ++ [scaled c s (inherited_indices o) n]) /\
     __rmul__ (S (S (S fuel))) n v h =
       Ok (length h, h ++ [scaled c s (inherited_indices o) n])) /\
  (stored_scalar v = Raise OverflowError ->
     __mul__ (S fuel) n (OVal v) h = Raise OverflowError).
Proof.
  intros Hn Nn. split.
  - intros c s Hv.
    assert (__mul__ (S (S (S fuel))) n (OVal v) h =
              Ok (length h, h ++ [scaled c s (inherited_indices o) n])) as H.
    { cbn [__mul__].
      rewrite (bind_Ok _ _ _ _ _ (checkMultipleScalarMults_passes _ _ _ Hn Nn)).
      apply (ScalarMultiplication_init_plain fuel h n o v c s Hn Nn Hv). }
    split; [exact H | exact H].
  - intros Hv. cbn [__mul__].
    rewrite (bind_Ok _ _ _ _ _ (checkMultipleScalarMults_passes _ _ _ Hn Nn)).
    unfold ScalarMultiplication_init, bind, lift.
    unfold stored_scalar in Hv. destruct v; try discriminate Hv.
    rewrite Hv. reflexivity.
Qed.

(** In the store of [X], [Y], [Z]: [X * 0.5] has the indices of [X]. *)
Lemma scalar_wraps_node_witness :
  __mul__ 3 0%nat (OVal (PyFloat float_half)) store_XYZ =
    Ok (3%nat, store_XYZ ++ [scaled true (PyFloat float_half)
                               (Some [("i"%string, 2); ("j"%string, 3)]) 0%nat]) /\
  __mul__ 1 0%nat (OVal (PyInt (2 ^ 1024))) store_XYZ = Raise OverflowError.
Proof.
  split.
  - exact (proj1 (proj1 (scalar_wraps_node 0 store_XYZ 0%nat _ (PyFloat float_half)
                           eq_refl eq_refl) true (PyFloat float_half) eq_refl)).
  - refine (proj2 (scalar_wraps_node 0 store_XYZ 0%nat _ (PyInt (2 ^ 1024))
                     eq_refl eq_refl) _).
    vm_compute. reflexivity.
Defined.

Lemma float_of_int_units :
  float_of_int 1 = Ok float_1 /\ float_of_int (-1) = Ok float_m1.
Proof. split; vm_compute; reflexivity. Qed.

Lemma neg_plain (fuel : nat) (h : heap) (n : loc) (o : object) :
  h !! n = Some o ->
  isinstance (klass (o_attrs o)) TScalarMultiplication = false ->
  __neg__ (S (S fuel)) n h =
    Ok (length h, h ++ [scaled true (PyFloat float_m1) (inherited_indices o) n]).
Proof.
  intros Hn Nn. unfold __neg__.
  rewrite (bind_Ok _ _ _ _ _ (checkMultipleScalarMults_passes _ _ _ Hn Nn)).
  apply (ScalarMultiplication_init_plain fuel h n o (PyFloat float_m1) true
           (PyFloat float_m1) Hn Nn eq_refl).
Qed.

Lemma unit_scaled_costs_nothing (h : heap) (f : float) (ix : option Indices) (n : loc) :
  f = float_1 \/ f = float_m1 ->
  ScalarMultiplication_nonZeroFlops (length h) (h ++ [scaled true (PyFloat f) ix n]) =
    Ok (0, h ++ [scaled true (PyFloat f) ix n]).
Proof.
  intros Hf. unfold ScalarMultiplication_nonZeroFlops.
  rewrite (bind_Ok _ _ _ _ _ (class_of_Some _ _ _ (lookup_alloc_new h _))).
  cbn [scaled o_attrs klass andb].
  apply in_minus_one_one_float in Hf. rewrite Hf. reflexivity.
Qed.

(** X5: the negation of a node, and its product with 1, -1, 1.0 or -1.0,
    is a new [ScalarMultiplication] whose non-zero FLOPs are 0, whether or
    not any sparsity pattern has been computed: the ints are converted to
    the floats the FLOP count tests for. *)
Theorem unit_scalars_cost_nothing (fuel : nat) (h : heap) (n : loc) (o : object) :
  h !! n = Some o ->
  isinstance (klass (o_attrs o)) TScalarMultiplication = false ->
  (exists h', __neg__ (S (S fuel)) n h = Ok (length h, h') /\
              ScalarMultiplication_nonZeroFlops (length h) h' = Ok (0, h')) /\
  (forall v, v = PyInt 1 \/ v = PyInt (-1) \/ v = PyFloat float_1 \/ v = PyFloat float_m1 ->
     exists h', __rmul__ (S (S (S fuel))) n v h = Ok (length h, h') /\
                ScalarMultiplication_nonZeroFlops (length h) h' = Ok (0, h')).
Proof.
  intros Hn Nn. split.
  - eexists. split; [apply (neg_plain fuel h n o Hn Nn)|].
    apply unit_scaled_costs_nothing. auto.
  - intros v Hv.
    assert (exists f, stored_scalar v = Ok (true, PyFloat f) /\
                      (f = float_1 \/ f = float_m1)) as (f & Hs & Hf).
    { destruct float_of_int_units as [H1 Hm1].
      destruct Hv as [-> | [-> | [-> | ->]]]; cbn [stored_scalar].
      - exists float_1. rewrite H1. auto.
      - exists float_m1. rewrite Hm1. auto.
      - exists float_1. auto.
      - exists float_m1. auto. }
    eexists. split.
    + unfold __rmul__. cbn [__mul__].
      rewrite (bind_Ok _ _ _ _ _ (checkMultipleScalarMults_passes _ _ _ Hn Nn)).
      apply (ScalarMultiplication_init_plain fuel h n o v _ _ Hn Nn Hs).
    + apply unit_scaled_costs_nothing, Hf.
Qed.

Lemma unit_scalars_cost_nothing_witness :
  exists h', __rmul__ 3 1%nat (PyInt (-1)) store_XYZ = Ok (3%nat, h') /\
             ScalarMultiplication_nonZeroFlops 3%nat h' = Ok (0, h').
Proof.
  refine (proj2 (unit_scalars_cost_nothing 0 store_XYZ 1%nat _ eq_refl eq_refl)
            (PyInt (-1)) _).
  right; left; reflexivity.
Defined.

(** ** Subtraction *)

(** X6: for two nodes [a] and [b], [a - b] negates [b] first, so that a
    [ScalarMultiplication] on the right makes it raise [ValueError]: a scaled
    term cannot be subtracted.  For a right node that is not a
    [ScalarMultiplication] and a left one that is not an [Add], the result is
    a new [Add] of [a] and of the new node [-1.0 * b]; a left node that is an
    [Add] takes [-1.0 * b] as one more child.  Right operands that are not
    nodes are not covered. *)
Theorem sub_negates_right (fuel : nat) (h : heap) (a b : loc) (oa ob : object) :
  h !! a = Some oa -> h !! b = Some ob ->
  (isinstance (klass (o_attrs ob)) TScalarMultiplication = true ->
     __sub__ fuel a b h = Raise (ValueError MultipleScalarMults)) /\
  (isinstance (klass (o_attrs ob)) TScalarMultiplication = false ->
     (isinstance (klass (o_attrs oa)) TAdd = false ->
        __sub__ (S (S fuel)) a b h =
          Ok (S (length h),
              h ++ [scaled true (PyFloat float_m1) (inherited_indices ob) b;
                    fresh_op Add [a; length h]])) /\
     (isinstance (klass (o_attrs oa)) TAdd = true ->
        __sub__ (S (S fuel)) a b h =
          Ok (a, <[a := mkObject (o_attrs oa) (_children oa ++ [length h])]>
                   (h ++ [scaled true (PyFloat float_m1) (inherited_indices ob) b])))).
Proof.
  intros Ha Hb. split.
  - intros Ib. unfold __sub__, __neg__, bind.
    rewrite (checkMultipleScalarMults_raises _ _ _ Hb Ib). reflexivity.
  - intros Nb. unfold __sub__.
    rewrite (bind_Ok _ _ _ _ _ (neg_plain fuel h b ob Hb Nb)).
    set (nb := scaled true (PyFloat float_m1) (inherited_indices ob) b).
    split.
    + intros Na.
      rewrite (binOp_fresh (h ++ [nb]) a (length h) oa nb Add
                 (lookup_alloc_old h a oa nb Ha) (lookup_alloc_new h nb) Na eq_refl).
      rewrite length_app, <- app_assoc. cbn [length app].
      rewrite Nat.add_1_r. reflexivity.
    + intros Ia.
      rewrite (binOp_left_absorbs (h ++ [nb]) a (length h) oa nb Add
                 (lookup_alloc_old h a oa nb Ha) (lookup_alloc_new h nb) Ia).
      reflexivity.
Qed.

(** In the store of [s = 3 * X]: [Y - s] raises, and [Y - Z] is the sum of
    [Y] and [-1.0 * Z]. *)
Lemma sub_negates_right_witness :
  __sub__ 2 1%nat 3%nat store_3X = Raise (ValueError MultipleScalarMults) /\
  __sub__ 2 1%nat 2%nat store_3X =
    Ok (5%nat,
        store_3X ++ [scaled true (PyFloat float_m1)
                       (Some [("i"%string, 2); ("j"%string, 3)]) 2%nat;
                     fresh_op Add [1; 4]%nat]).
Proof.
  split.
  - exact (proj1 (sub_negates_right 2 store_3X 1%nat 3%nat _ _ eq_refl eq_refl) eq_refl).
  - exact (proj1 (proj2 (sub_negates_right 0 store_3X 1%nat 2%nat _ _ eq_refl eq_refl)
                    eq_refl) eq_refl).
Defined.

(** ** Replacing the children of an assignment *)

(** X7: [setChildren] on an [Assign] looks at the first new child before
    anything else.  An empty list raises [IndexError].  A first child that
    is not an [IndexedTensor] is rendered for the message: when [str] of it
    returns, the [ValueError] about the first child is raised with the
    rendering at its end, whatever the number of children; when [str] of it
    raises, as it does for a [LoopOverGEMM] over an operand without indices,
    that exception comes out instead.  For the classes that take [__str__]
    from [Op] the message ends in the class name and the indices, for a
    [ScalarMultiplication] the scalar follows.  With an [IndexedTensor] in
    front, any number of children other than two raises the [ValueError] of
    [BinOp]; and with exactly two the child list of the node is replaced. *)
Theorem Assign_setChildren_cases (py : builtins) (h : heap) (self c0 : loc) (o0 : object)
    (rest : list loc) :
  h !! c0 = Some o0 ->
  Assign_setChildren py self [] h = Raise IndexError /\
  (isinstance (klass (o_attrs o0)) TIndexedTensor = false ->
     (forall s h',
        __str__ py c0 h = Ok (s, h') ->
        Assign_setChildren py self (c0 :: rest) h =
          Raise (ValueError (AssignFirstChild +:+ s))) /\
     (forall e,
        __str__ py c0 h = Raise e ->
        Assign_setChildren py self (c0 :: rest) h = Raise e) /\
     (isinstance (klass (o_attrs o0)) TLoopOverGEMM = false ->
      isinstance (klass (o_attrs o0)) TScalarMultiplication = false ->
      Assign_setChildren py self (c0 :: rest) h =
        Raise (ValueError (AssignFirstChild +:+ Op_str (o_attrs o0)))) /\
     (forall c scalar,
        klass (o_attrs o0) = ScalarMultiplication c scalar ->
        Assign_setChildren py self (c0 :: rest) h =
          Raise (ValueError (AssignFirstChild +:+
                             (Op_str (o_attrs o0) +:+ ": " +:+ str_pyval py scalar))))) /\
  (isinstance (klass (o_attrs o0)) TIndexedTensor = true ->
     (length rest <> 1%nat ->
        Assign_setChildren py self (c0 :: rest) h = Raise (ValueError BinOpArity)) /\
     (forall c1 o, rest = [c1] -> h !! self = Some o ->
        Assign_setChildren py self (c0 :: rest) h =
          Ok (tt, <[self := mkObject (o_attrs o) [c0; c1]]> h))).
Proof.
  intros H0. split; [reflexivity|]. split.
  - intros N0.
    pose proof (Assign_setChildren_checks py h self c0 rest o0 H0 N0) as E.
    split; [|split; [|split]].
    + intros s h' Hs. rewrite E, Hs. reflexivity.
    + intros e He. rewrite E, He. reflexivity.
    + intros Ng Ns. rewrite E. unfold __str__, bind. rewrite (get_Some _ _ _ H0).
      destruct (klass (o_attrs o0));
        try discriminate N0; try discriminate Ng; try discriminate Ns; reflexivity.
    + intros c scalar K. rewrite E. unfold __str__, bind. rewrite (get_Some _ _ _ H0).
      rewrite K. reflexivity.
  - intros I0. split.
    + intros Hlen. unfold Assign_setChildren.
      rewrite (bind_Ok _ _ _ _ _ (class_of_Some _ _ _ H0)). rewrite I0.
      cbn [negb]. unfold BinOp_setChildren. cbn [length].
      destruct (length rest) as [|[|k]]; try reflexivity. congruence.
    + intros c1 o -> Hs. unfold Assign_setChildren.
      rewrite (bind_Ok _ _ _ _ _ (class_of_Some _ _ _ H0)). rewrite I0.
      cbn [negb]. unfold BinOp_setChildren. cbn [length Nat.eqb negb].
      apply (set_children_Some _ _ _ _ Hs).
Qed.

(** In the store of [X], [Y], [Z] with [X <= Y] built (the [Einsum] at 3,
    the [Assign] at 4): the [Einsum] is refused as first child and named in
    the message, three children are refused, and [[Z; 3]] is accepted.  In
    the store of the matrix-vector node over a product without indices, with
    an [Assign] at 5: that node as first child makes [setChildren] raise
    [TypeError]. *)
Lemma Assign_setChildren_cases_witness :
  Assign_setChildren py_plain 4%nat [3; 0]%nat
    (store_XYZ ++ [fresh_op Einsum [1]; fresh_op Assign [0; 3]]%nat) =
    Raise (ValueError
             "First child of Assign node must be an IndexedTensor: Einsum[<not deduced>]") /\
  Assign_setChildren py_plain 4%nat [2; 3; 3]%nat
    (store_XYZ ++ [fresh_op Einsum [1]; fresh_op Assign [0; 3]]%nat) =
    Raise (ValueError BinOpArity) /\
  Assign_setChildren py_plain 4%nat [2; 3]%nat
    (store_XYZ ++ [fresh_op Einsum [1]; fresh_op Assign [0; 3]]%nat) =
    Ok (tt, store_XYZ ++ [fresh_op Einsum [1]; fresh_op Assign [2; 3]]%nat) /\
  Assign_setChildren py_plain 5%nat [4; 3]%nat
    (store_gemv ++ [fresh_op Assign [0; 3]%nat]) = Raise TypeError.
Proof.
  split; [|split; [|split]].
  - exact (proj1 (proj2 (proj2 (proj1 (proj2 (Assign_setChildren_cases py_plain
             (store_XYZ ++ [fresh_op Einsum [1]; fresh_op Assign [0; 3]]%nat)
             4%nat 3%nat _ [0%nat] eq_refl)) eq_refl))) eq_refl eq_refl).
  - refine (proj1 (proj2 (proj2 (Assign_setChildren_cases py_plain
             (store_XYZ ++ [fresh_op Einsum [1]; fresh_op Assign [0; 3]]%nat)
             4%nat 2%nat _ [3; 3]%nat eq_refl)) eq_refl) _).
    discriminate.
  - exact (proj2 (proj2 (proj2 (Assign_setChildren_cases py_plain
             (store_XYZ ++ [fresh_op Einsum [1]; fresh_op Assign [0; 3]]%nat)
             4%nat 2%nat _ [3%nat] eq_refl)) eq_refl) 3%nat _ eq_refl eq_refl).
  - exact (proj1 (proj2 (proj1 (proj2 (Assign_setChildren_cases py_plain
             (store_gemv ++ [fresh_op Assign [0; 3]%nat])
             5%nat 4%nat _ [3%nat] eq_refl)) eq_refl)) TypeError eq_refl).
Defined.

(** ** More on the GEMM mapping *)

(** X8: [LoopOverGEMM(indices, a, b, m, n, k)] succeeds exactly when the
    leading indices of [m] and [k] have a position in [a] and, unless [n] is
    empty, those of [k] and [n] have one in [b]; the right operand of a
    matrix-vector product is not looked at.  It then adds one node to the
    store and changes nothing else. *)
Theorem LoopOverGEMM_init_succeeds (h : heap) (ix m n k : Indices) (a b : loc) :
  (forall pm pk,
     leading_position h a m pm -> leading_position h a k pk ->
     (n = [] ->
        LoopOverGEMM_init ix a b m n k h =
          Ok (length h, h ++ [gemm_object ix m n k a b (pm >? pk) false])) /\
     (forall qk qn,
        n <> [] -> leading_position h b k qk -> leading_position h b n qn ->
        LoopOverGEMM_init ix a b m n k h =
          Ok (length h, h ++ [gemm_object ix m n k a b (pm >? pk) (qk >? qn)]))) /\
  (forall self h',
     LoopOverGEMM_init ix a b m n k h = Ok (self, h') ->
     self = length h /\
     (exists pm pk, leading_position h a m pm /\ leading_position h a k pk) /\
     (n = [] \/ exists qk qn, leading_position h b k qk /\ leading_position h b n qn)).
Proof.
  split.
  - intros pm pk Hm Hk. unfold LoopOverGEMM_init.
    rewrite (bind_Ok _ _ _ _ _ (find_leading_position _ _ _ _ Hm)).
    rewrite (bind_Ok _ _ _ _ _ (find_leading_position _ _ _ _ Hk)).
    split.
    + intros ->. reflexivity.
    + intros qk qn Hn Hqk Hqn. destruct n as [|n0 n']; [congruence|].
      cbn [isGEMV_of length Nat.eqb negb].
      unfold bind at 1.
      rewrite (bind_Ok _ _ _ _ _ (find_leading_position _ _ _ _ Hqk)).
      rewrite (bind_Ok _ _ _ _ _ (find_leading_position _ _ _ _ Hqn)).
      reflexivity.
  - intros self h' H.
    unfold LoopOverGEMM_init in H.
    apply bind_inv in H as (pm & h1 & Hm & H). apply find_leading_inv in Hm as (-> & Hm).
    apply bind_inv in H as (pk & h1 & Hk & H). apply find_leading_inv in Hk as (-> & Hk).
    apply bind_inv in H as (tB' & h1 & HB & H).
    split; [|split].
    + destruct n as [|n0 n'].
      * cbn in HB. injection HB as <- <-. unfold alloc in H. injection H as <- _.
        reflexivity.
      * cbn [isGEMV_of length Nat.eqb negb] in HB.
        apply bind_inv in HB as (qk & h2 & Hqk & HB).
        apply find_leading_inv in Hqk as (-> & _).
        apply bind_inv in HB as (qn & h2 & Hqn & HB).
        apply find_leading_inv in Hqn as (-> & _).
        injection HB as <- <-. unfold alloc in H. injection H as <- _. reflexivity.
    + exists pm, pk. auto.
    + destruct n as [|n0 n']; [left; reflexivity|right].
      cbn [isGEMV_of length Nat.eqb negb] in HB.
      apply bind_inv in HB as (qk & h2 & Hqk & HB).
      apply find_leading_inv in Hqk as (-> & Hqk).
      apply bind_inv in HB as (qn & h2 & Hqn & HB).
      apply find_leading_inv in Hqn as (-> & Hqn).
      exists qk, qn. auto.
Qed.

(** With [A['ik']] and [B['kj']] in the store: the product over [k] is
    constructed with no operand transposed. *)
Lemma LoopOverGEMM_init_succeeds_witness :
  LoopOverGEMM_init ix_ij 0%nat 1%nat ix_i ix_j ix_k store_gemm =
    Ok (3%nat, store_gemm ++ [gemm_object ix_ij ix_i ix_j ix_k 0%nat 1%nat false false]).
Proof.
  refine (proj2 (proj1 (LoopOverGEMM_init_succeeds store_gemm ix_ij ix_i ix_j ix_k
                          0%nat 1%nat) 0 1 _ _) 0 1 _ _ _).
  - eexists _, _, _, _, _. repeat split; reflexivity.
  - eexists _, _, _, _, _. repeat split; reflexivity.
  - discriminate.
  - eexists _, _, _, _, _. repeat split; reflexivity.
  - eexists _, _, _, _, _. repeat split; reflexivity.
Defined.

Lemma bind_Raise {S A B} (m : ST S A) (k : A -> ST S B) (s : S) (e : exn) :
  m s = Raise e -> bind m k s = Raise e.
Proof. unfold bind. intros ->. reflexivity. Qed.

Lemma leading_position_alloc (h : heap) (o : object) (t : loc) (x : Indices) (p : Z) :
  leading_position h t x p -> leading_position (h ++ [o]) t x p.
Proof.
  intros (ot & ix & x0 & rest & q & Ht & H).
  exists ot, ix, x0, rest, q. split; [apply lookup_alloc_old, Ht | exact H].
Qed.

(** X9: the cost of a constructed [LoopOverGEMM].  Its transpose entries
    are the two flags, its last entry the total number of indices in [m],
    [n] and [k], and its first entry counts the operands in which neither of
    the two leading indices is at position 0, so that it is 0, 1 or 2.  On a
    matrix-vector node the right operand counts iff the leading index of [k]
    is not at position 0 in it.  The constructor of such a node did not look
    at the right operand: when that has no indices, or has indices among
    which the leading index of [k] does not occur, the node is constructed
    all the same and its cost raises, [AttributeError] in the first case and
    the [ValueError] of the position lookup in the second. *)
Theorem cost_of_constructed (h : heap) (ix m n k : Indices) (a b : loc) (pm pk : Z) :
  leading_position h a m pm -> leading_position h a k pk ->
  (forall qk qn,
     n <> [] -> leading_position h b k qk -> leading_position h b n qn ->
     cost (length h) (h ++ [gemm_object ix m n k a b (pm >? pk) (qk >? qn)]) =
       Ok (mkLoGCost (Z.b2z (negb (Z.min pm pk =? 0)) + Z.b2z (negb (Z.min qk qn =? 0)))
                     (Z.b2z (pm >? pk)) (Z.b2z (qk >? qn))
                     (Z.of_nat (length m) + Z.of_nat (length n) + Z.of_nat (length k)),
           h ++ [gemm_object ix m n k a b (pm >? pk) (qk >? qn)])) /\
  (forall qk,
     n = [] -> leading_position h b k qk ->
     cost (length h) (h ++ [gemm_object ix m n k a b (pm >? pk) false]) =
       Ok (mkLoGCost (Z.b2z (negb (Z.min pm pk =? 0)) + Z.b2z (negb (qk =? 0)))
                     (Z.b2z (pm >? pk)) 0
                     (Z.of_nat (length m) + 0 + Z.of_nat (length k)),
           h ++ [gemm_object ix m n k a b (pm >? pk) false])) /\
  (forall ob,
     n = [] -> h !! b = Some ob -> indices (o_attrs ob) = None ->
     LoopOverGEMM_init ix a b m n k h =
       Ok (length h, h ++ [gemm_object ix m n k a b (pm >? pk) false]) /\
     cost (length h) (h ++ [gemm_object ix m n k a b (pm >? pk) false]) =
       Raise AttributeError) /\
  (forall ob ixb x0 rest,
     n = [] -> h !! b = Some ob -> indices (o_attrs ob) = Some ixb ->
     k = x0 :: rest -> position (fst x0) (index_names ixb) = None ->
     LoopOverGEMM_init ix a b m n k h =
       Ok (length h, h ++ [gemm_object ix m n k a b (pm >? pk) false]) /\
     cost (length h) (h ++ [gemm_object ix m n k a b (pm >? pk) false]) =
       Raise (ValueError "tuple.index(x): x not in tuple")).
Proof.
  intros Hm Hk.
  assert (forall tB,
            find_leading a (if negb (pm >? pk) then m else k)
              (h ++ [gemm_object ix m n k a b (pm >? pk) tB]) =
            Ok (Z.min pm pk, h ++ [gemm_object ix m n k a b (pm >? pk) tB])) as HA.
  { intros tB. rewrite Z.gtb_ltb.
    destruct (Z.ltb_spec pk pm) as [Hlt|Hge]; cbn [negb].
    - rewrite Z.min_r by lia. apply find_leading_position, leading_position_alloc, Hk.
    - rewrite Z.min_l by lia. apply find_leading_position, leading_position_alloc, Hm. }
  split; [|split; [|split]].
  - intros qk qn Hn Hqk Hqn. unfold cost.
    rewrite (bind_Ok _ _ _ _ _ (get_Some _ _ _ (lookup_alloc_new h _))).
    cbn [gemm_object o_attrs klass _children].
    rewrite (bind_Ok _ _ _ _ _ (HA (qk >? qn))).
    assert (find_leading b (if negb (qk >? qn) then k else n)
              (h ++ [gemm_object ix m n k a b (pm >? pk) (qk >? qn)]) =
            Ok (Z.min qk qn, h ++ [gemm_object ix m n k a b (pm >? pk) (qk >? qn)])) as HB.
    { rewrite Z.gtb_ltb.
      destruct (Z.ltb_spec qn qk) as [Hlt|Hge]; cbn [negb].
      - rewrite Z.min_r by lia. apply find_leading_position, leading_position_alloc, Hqn.
      - rewrite Z.min_l by lia. apply find_leading_position, leading_position_alloc, Hqk. }
    unfold gemm_object in HB. rewrite (bind_Ok _ _ _ _ _ HB). reflexivity.
  - intros qk -> Hqk. unfold cost.
    rewrite (bind_Ok _ _ _ _ _ (get_Some _ _ _ (lookup_alloc_new h _))).
    cbn [gemm_object o_attrs klass _children].
    rewrite (bind_Ok _ _ _ _ _ (HA false)). cbn [negb].
    pose proof (find_leading_position _ _ _ _
                  (leading_position_alloc h (gemm_object ix m [] k a b (pm >? pk) false)
                     _ _ _ Hqk)) as HB.
    unfold gemm_object in HB. rewrite (bind_Ok _ _ _ _ _ HB). reflexivity.
  - intros ob -> Hb Hi. split.
    + apply (LoopOverGEMM_init_gemv h ix m k a b pm pk Hm Hk).
    + unfold cost.
      rewrite (bind_Ok _ _ _ _ _ (get_Some _ _ _ (lookup_alloc_new h _))).
      cbn [gemm_object o_attrs klass _children].
      rewrite (bind_Ok _ _ _ _ _ (HA false)). cbn [negb].
      assert (find_leading b k (h ++ [mkObject
                (mkAttrs (LoopOverGEMM m [] k (pm >? pk) false) (Some ix) None None None)
                [a; b]]) = Raise AttributeError) as HB.
      { unfold find_leading.
        rewrite (bind_Ok _ _ _ _ _ (get_Some _ _ _ (lookup_alloc_old h b ob _ Hb))).
        rewrite Hi. reflexivity. }
      rewrite (bind_Raise _ _ _ _ HB). reflexivity.
  - intros ob ixb x0 rest -> Hb Hi Hk0 Hpos. split.
    + apply (LoopOverGEMM_init_gemv h ix m k a b pm pk Hm Hk).
    + unfold cost.
      rewrite (bind_Ok _ _ _ _ _ (get_Some _ _ _ (lookup_alloc_new h _))).
      cbn [gemm_object o_attrs klass _children].
      rewrite (bind_Ok _ _ _ _ _ (HA false)). cbn [negb].
      assert (find_leading b k (h ++ [mkObject
                (mkAttrs (LoopOverGEMM m [] k (pm >? pk) false) (Some ix) None None None)
                [a; b]]) = Raise (ValueError "tuple.index(x): x not in tuple")) as HB.
      { unfold find_leading.
        rewrite (bind_Ok _ _ _ _ _ (get_Some _ _ _ (lookup_alloc_old h b ob _ Hb))).
        rewrite Hi, Hk0. destruct x0 as [x0 d]. cbn [fst] in Hpos.
        unfold bind, lift, find. cbn [Indices_getitem0]. rewrite Hpos. reflexivity. }
      rewrite (bind_Raise _ _ _ _ HB). reflexivity.
Qed.

(** [A['ik']] with [B['jk']]: [B] is transposed, and in both operands one
    of the leading indices is at position 0.  The matrix-vector node for the
    partition [(k, (), i)] over [A['ik']] and [B['kj']] is constructed, and
    its cost raises: [i] does not occur in [B['kj']].  The matrix-vector node
    over [A['ik']] and a product without indices is constructed, and its cost
    raises as well. *)
Lemma cost_of_constructed_witness :
  cost 3%nat store_gemm_node = Ok (mkLoGCost 0 0 1 3, store_gemm_node) /\
  (LoopOverGEMM_init ix_k 0%nat 1%nat ix_k [] ix_i store_gemm =
     Ok (3%nat, store_gemm ++ [gemm_object ix_k ix_k [] ix_i 0%nat 1%nat true false]) /\
   cost 3%nat (store_gemm ++ [gemm_object ix_k ix_k [] ix_i 0%nat 1%nat true false]) =
     Raise (ValueError "tuple.index(x): x not in tuple")) /\
  (LoopOverGEMM_init ix_i 0%nat 3%nat ix_i [] ix_k store_gemv_operands =
     Ok (4%nat, store_gemv) /\
   cost 4%nat store_gemv = Raise AttributeError).
Proof.
  split; [|split].
  - refine (proj1 (cost_of_constructed store_gemm ix_ij ix_i ix_j ix_k 0%nat 2%nat 0 1 _ _)
              1 0 _ _ _).
    + eexists _, _, _, _, _. repeat split; reflexivity.
    + eexists _, _, _, _, _. repeat split; reflexivity.
    + discriminate.
    + eexists _, _, _, _, _. repeat split; reflexivity.
    + eexists _, _, _, _, _. repeat split; reflexivity.
  - refine (proj2 (proj2 (proj2
              (cost_of_constructed store_gemm ix_k ix_k [] ix_i 0%nat 1%nat 1 0 _ _)))
              _ _ _ _ eq_refl eq_refl eq_refl eq_refl eq_refl).
    + eexists _, _, _, _, _. repeat split; reflexivity.
    + eexists _, _, _, _, _. repeat split; reflexivity.
  - refine (proj1 (proj2 (proj2
              (cost_of_constructed store_gemv_operands ix_i ix_i [] ix_k 0%nat 3%nat 0 1 _ _)))
              _ eq_refl eq_refl eq_refl).
    + eexists _, _, _, _, _. repeat split; reflexivity.
    + eexists _, _, _, _, _. repeat split; reflexivity.
Defined.

(** ** What a traversal leaves behind *)

Lemma mapM_length {S A B} (f : A -> ST S B) (l : list A) (s s' : S) (ys : list B) :
  mapM f l s = Ok (ys, s') -> length ys = length l.
Proof.
  revert s ys. induction l as [|x l IH]; intros s ys H.
  - cbn in H. injection H as <- <-. reflexivity.
  - apply mapM_cons_inv in H as (y & ys' & s1 & _ & Hys & ->).
    cbn. f_equal. exact (IH _ _ Hys).
Qed.

Lemma length_insert_by_key {A} (key : A -> Z) (x : A) (l : list A) :
  length (insert_by_key key x l) = S (length l).
Proof.
  induction l as [|y l IH]; cbn; [reflexivity|].
  destruct (key x <=? key y); cbn; [reflexivity|]. rewrite IH. reflexivity.
Qed.

Lemma length_sort_by_key {A} (key : A -> Z) (l : list A) :
  length (sort_by_key key l) = length l.
Proof.
  induction l as [|x l IH]; [reflexivity|].
  cbn [sort_by_key foldr]. rewrite length_insert_by_key. cbn. f_equal. exact IH.
Qed.

Lemma length_accumulate_into (tmp : Variable_) (l : list Variable_) :
  length (accumulate_into tmp l) = length l.
Proof. destruct l; cbn; [reflexivity|]. rewrite length_map. reflexivity. Qed.

(** A tensor leaf lowers to a Variable that is writable iff its name is
    registered, and leaves the state as it is. *)
Lemma visit_leaf_inv (float_str : float -> string) (a : attrs) (cs : list tree)
    (t : Tensor) (st st' : AST2ControlFlow) (v : Variable_) :
  klass a = IndexedTensor t ->
  visit float_str (T a cs) st = Ok (v, st') ->
  st' = st /\ v_name v = t_name t /\ v_tensor v = Some t /\
  (v_writable v = true <-> t_name t ∈ _writable st).
Proof.
  intros Hk H. cbn [visit] in H. rewrite Hk in H.
  unfold visit_IndexedTensor in H. cbn [node_attrs] in H. rewrite Hk in H.
  destruct (_ml (T a cs) st) as [[ml s1]| |] eqn:Hml; cbn in H; try discriminate.
  apply ml_state in Hml as ->. injection H as <- <-. cbn.
  repeat split; try reflexivity; apply bool_decide_eq_true.
Qed.

Section Orderly.
Variable float_str : float -> string.
Local Abbreviation lowers_orderly := (lowers_orderly float_str).

Lemma mapM_lowers_orderly (cs : list tree) :
  Forall lowers_orderly cs ->
  forall st vs st',
    mapM (visit float_str) cs st = Ok (vs, st') ->
    Forall2 (fun c v => is_leaf c = false -> v_writable v = true) cs vs /\
    _tmp st' = (_tmp st + sum_nat (map count_temporaries cs))%nat /\
    _simpleMemoryLayout st' = _simpleMemoryLayout st /\
    exists new,
      _cfg st' = _cfg st ++ new /\
      length new = sum_nat (map count_actions cs) /\
      Forall writes_writable new.
Proof.
  induction 1 as [|c cs Hc _ IH]; intros st vs st' H.
  - cbn in H. injection H as <- <-. split; [constructor|].
    split; [cbn; lia|]. split; [reflexivity|].
    exists []. rewrite app_nil_r. repeat split. constructor.
  - apply mapM_cons_inv in H as (y & ys' & s1 & Hy & Hys & ->).
    apply Hc in Hy as (Hw & Ht & Hs & new1 & Hc1 & Hl1 & Hf1).
    apply IH in Hys as (Hws & Ht2 & Hs2 & new2 & Hc2 & Hl2 & Hf2).
    split; [constructor; assumption|].
    split; [unfold sum_nat in *; cbn [map foldr] in *; lia|]. split; [congruence|].
    exists (new1 ++ new2). split; [|split].
    + rewrite Hc2, Hc1, app_assoc. reflexivity.
    + rewrite length_app. unfold sum_nat in *. cbn [map foldr] in *. lia.
    + apply Forall_app. auto.
Qed.

Lemma writes_writable_copy (r v : Variable_) (add : bool) :
  v_writable r = true -> writes_writable (copy_point r v add).
Proof. intros H. eexists. split; [reflexivity | exact H]. Qed.

Lemma visit_lowers_orderly (n : tree) : lowers_orderly n.
Proof.
  induction n as [a cs IH] using tree_ind_children.
  intros st v st' H. cbn [visit] in H. unfold is_leaf. cbn [node_attrs count_temporaries count_actions].
  assert (forall st v st',
            generic_visit (visit float_str) (T a cs) st = Ok (v, st') ->
            v_writable v = true /\
            _tmp st' = (_tmp st + S (sum_nat (map count_temporaries cs)))%nat /\
            _simpleMemoryLayout st' = _simpleMemoryLayout st /\
            exists new,
              _cfg st' = _cfg st ++ new /\
              length new = S (sum_nat (map count_actions cs)) /\
              Forall writes_writable new) as Generic.
  { clear st v st' H. intros st v st' H. unfold generic_visit in H.
    cbn [node_children] in H.
    apply bind_inv in H as (vs & s1 & Hvs & H).
    apply bind_inv in H as (res & s2 & Hres & H).
    apply bind_inv in H as (ml & s3 & Hml & H).
    apply bind_inv in H as (u & s4 & Hact & H).
    injection H as <- <-.
    apply (mapM_lowers_orderly cs IH) in Hvs as (_ & Ht & Hs & new & Hc & Hl & Hf).
    apply nextTemporary_inv in Hres as (-> & _ & Hw & _).
    apply ml_state in Hml as ->.
    unfold _addAction in Hact. injection Hact as <- <-. cbn.
    split; [exact Hw|]. split; [lia|]. split; [exact Hs|].
    eexists (new ++ [_]). split; [rewrite Hc, app_assoc; reflexivity|]. split.
    - rewrite length_app. cbn. lia.
    - apply Forall_app. split; [exact Hf|]. constructor; [|constructor].
      eexists. split; [reflexivity | exact Hw]. }
  destruct (klass a) eqn:Hk;
    try (destruct (Generic st v st' H) as (Hw & Hrest); split; [intros _; exact Hw | exact Hrest]).
  - (* IndexedTensor *)
    unfold visit_IndexedTensor in H. cbn [node_attrs] in H. rewrite Hk in H.
    destruct (_ml (T a cs) st) as [[ml s1]| |] eqn:Hml; cbn in H; try discriminate.
    apply ml_state in Hml as ->. injection H as <- <-.
    split; [discriminate|]. split; [lia|]. split; [reflexivity|].
    exists []. rewrite app_nil_r. repeat split. constructor.
  - (* Add *)
    unfold visit_Add in H. cbn [node_children] in H.
    apply bind_inv in H as (vs & s1 & Hvs & H).
    destruct (negb (1 <? length vs)%nat); [discriminate|].
    apply bind_inv in H as (tmp & s2 & Htmp & H).
    apply bind_inv in H as (u & s3 & Hact & H).
    injection H as <- <-.
    pose proof (mapM_length _ _ _ _ _ Hvs) as Hlen.
    apply (mapM_lowers_orderly cs IH) in Hvs as (_ & Ht & Hs & new & Hc & Hl & Hf).
    apply nextTemporary_inv in Htmp as (-> & _ & Hw & _).
    rewrite add_actions_points in Hact. injection Hact as <- <-. cbn.
    split; [intros _; exact Hw|]. split; [lia|]. split; [exact Hs|].
    eexists (new ++ _). split; [rewrite Hc, app_assoc; reflexivity|].
    fold (accumulate_into tmp (sort_by_key add_key vs)).
    rewrite sort_by_penalty.
    split.
    + rewrite length_app, Hl, length_accumulate_into.
      rewrite <- sort_by_penalty, length_sort_by_key. lia.
    + apply Forall_app. split; [exact Hf|].
      destruct (by_penalty vs) as [|x l]; [constructor|]. cbn.
      constructor; [apply writes_writable_copy, Hw|].
      apply Forall_map, Forall_forall. intros w _. apply writes_writable_copy, Hw.
  - (* ScalarMultiplication *)
    unfold visit_ScalarMultiplication in H. cbn [node_children node_attrs] in H.
    rewrite Hk in H. destruct cs as [|t cs]; [discriminate|].
    apply bind_inv in H as (var & s1 & Hvar & H).
    apply bind_inv in H as (res & s2 & Hres & H).
    apply bind_inv in H as (u & s3 & Hact & H).
    injection H as <- <-.
    apply Forall_cons in IH as [Ht _].
    apply Ht in Hvar as (_ & Htmp & Hs & new & Hc & Hl & Hf).
    apply nextTemporary_inv in Hres as (-> & _ & Hw & _).
    unfold _addAction in Hact. injection Hact as <- <-. cbn.
    split; [intros _; exact Hw|]. split; [lia|]. split; [exact Hs|].
    eexists (new ++ [_]). split; [rewrite Hc, app_assoc; reflexivity|]. split.
    + rewrite length_app. cbn. lia.
    + apply Forall_app. split; [exact Hf|]. constructor; [|constructor].
      eexists. split; [reflexivity | exact Hw].
  - (* Assign *)
    unfold visit_Assign in H. cbn [node_children] in H.
    destruct cs as [|c0 cs]; [discriminate|].
    apply bind_inv in H as (name & s1 & Hname & H).
    unfold lift in Hname.
    destruct (node_name float_str (node_attrs c0)) as [nm| |] eqn:Hnm; try discriminate.
    injection Hname as -> <-.
    apply bind_inv in H as (u & s2 & Hset & H).
    unfold set_writable in Hset. injection Hset as <- <-.
    apply bind_inv in H as (vs & s3 & Hvs & H).
    pose proof Hvs as Hvs0.
    apply (mapM_lowers_orderly (c0 :: cs) IH) in Hvs as (Hws & Ht & Hs & new & Hc & Hl & Hf).
    destruct vs as [|v0 [|v1 vs]]; try discriminate.
    apply bind_inv in H as (u' & s4 & Hact & H).
    injection H as <- <-.
    unfold _addAction in Hact. injection Hact as <- <-.
    assert (v_writable v0 = true) as Hw0.
    { apply Forall2_cons in Hws as [Hw0 _].
      destruct (is_leaf c0) eqn:Hleaf; [|exact (Hw0 eq_refl)].
      apply mapM_cons_inv in Hvs0 as (y & ys' & s5 & Hy & _ & E).
      injection E as <- _.
      destruct c0 as [a0 cs0]. unfold is_leaf in Hleaf. cbn [node_attrs] in Hleaf, Hnm.
      apply isinstance_tag in Hleaf.
      destruct (klass a0) eqn:Hk0; try discriminate Hleaf.
      destruct (visit_leaf_inv float_str a0 cs0 tensor _ _ _ Hk0 Hy)
        as (_ & _ & _ & Hiff).
      apply Hiff. unfold node_name in Hnm. rewrite Hk0 in Hnm. injection Hnm as <-.
      cbn. set_solver. }
    cbn in *.
    split; [intros _; exact Hw0|]. split; [lia|]. split; [exact Hs|].
    eexists (new ++ [_]). split; [rewrite Hc, app_assoc; reflexivity|]. split.
    + rewrite length_app. cbn. lia.
    + apply Forall_app. split; [exact Hf|]. constructor; [|constructor].
      eexists. split; [reflexivity | exact Hw0].
Qed.

End Orderly.

(** X10: a traversal only appends to the control flow.  It appends one
    action per child for every [Add] it meets and one action for every other
    node that is not an [IndexedTensor], and it takes one temporary for
    every node that is neither an [IndexedTensor] nor an [Assign]; the
    layout switch of the pass is left alone. *)
Theorem lowering_counts (float_str : float -> string) (node : tree)
    (st st' : AST2ControlFlow) (v : Variable_) :
  visit float_str node st = Ok (v, st') ->
  (exists new, _cfg st' = _cfg st ++ new /\ length new = count_actions node) /\
  _tmp st' = (_tmp st + count_temporaries node)%nat /\
  _simpleMemoryLayout st' = _simpleMemoryLayout st.
Proof.
  intros H.
  destruct (visit_lowers_orderly float_str node st v st' H)
    as (_ & Ht & Hs & new & Hc & Hl & _).
  split; [exists new; auto | auto].
Qed.

(** [D <= C + A * B]: one action for the product, two for the sum and one
    for the assignment; two temporaries. *)
Lemma lowering_counts_witness :
  (exists new,
     _cfg pass_after_D_is_C_plus_AB = _cfg (AST2ControlFlow_init false) ++ new /\
     length new = count_actions tree_D_is_C_plus_AB) /\
  _tmp pass_after_D_is_C_plus_AB =
    (_tmp (AST2ControlFlow_init false) + count_temporaries tree_D_is_C_plus_AB)%nat /\
  _simpleMemoryLayout pass_after_D_is_C_plus_AB =
    _simpleMemoryLayout (AST2ControlFlow_init false).
Proof.
  refine (lowering_counts no_float_str tree_D_is_C_plus_AB (AST2ControlFlow_init false)
            pass_after_D_is_C_plus_AB var_D_target _).
  reflexivity.
Defined.

(** X11: every action a traversal emits writes into a writable Variable,
    and the Variable a traversal returns is writable unless the node is an
    [IndexedTensor]: results are temporaries or registered assignment
    targets.  In particular the control flow of a pass instance that was
    new before the traversal is these actions followed by the one program
    point without action. *)
Theorem lowering_writes_writable (float_str : float -> string) (node : tree)
    (st st' : AST2ControlFlow) (v : Variable_) :
  visit float_str node st = Ok (v, st') ->
  (is_leaf node = false -> v_writable v = true) /\
  (exists new, _cfg st' = _cfg st ++ new /\ Forall writes_writable new) /\
  (_cfg st = [] ->
   exists new, cfg st' = new ++ [mkProgramPoint None] /\ Forall writes_writable new).
Proof.
  intros H.
  destruct (visit_lowers_orderly float_str node st v st' H)
    as (Hw & _ & _ & new & Hc & _ & Hf).
  split; [exact Hw|]. split; [exists new; auto|].
  intros He. exists new. unfold cfg. rewrite Hc, He. auto.
Qed.

Lemma lowering_writes_writable_witness :
  (is_leaf tree_C_is_AB = false -> v_writable var_C = true) /\
  (exists new, _cfg pass_after_C_is_AB = _cfg (AST2ControlFlow_init false) ++ new /\
               Forall writes_writable new) /\
  (_cfg (AST2ControlFlow_init false) = [] ->
   exists new, cfg pass_after_C_is_AB = new ++ [mkProgramPoint None] /\
               Forall writes_writable new).
Proof.
  refine (lowering_writes_writable no_float_str tree_C_is_AB (AST2ControlFlow_init false)
            pass_after_C_is_AB var_C _).
  reflexivity.
Defined.

(** ** Which trees the pass lowers *)

Lemma ml_returns (node : tree) (st : AST2ControlFlow) :
  has_layout (_simpleMemoryLayout st) (node_attrs node) = true <->
  exists r, _ml node st = Ok (r, st).
Proof.
  unfold has_layout, _ml, node_shape.
  destruct (_simpleMemoryLayout st); cbn [negb orb].
  - destruct (indices (node_attrs node)); cbn [rbind].
    + split; [eauto | reflexivity].
    + split; [discriminate | intros [r H]; discriminate H].
  - split; [eauto | reflexivity].
Qed.

Lemma nextTemporary_returns (node : tree) (st : AST2ControlFlow) :
  has_layout (_simpleMemoryLayout st) (node_attrs node) = true <->
  exists v st', _nextTemporary node st = Ok (v, st').
Proof.
  unfold _nextTemporary.
  set (st1 := mkPass (S (_tmp st)) (_cfg st) (_writable st) (_simpleMemoryLayout st)).
  change (_simpleMemoryLayout st) with (_simpleMemoryLayout st1) at 1.
  rewrite (ml_returns node st1). split.
  - intros [r ->]. cbn. eauto.
  - intros (v & st' & H).
    destruct (_ml node st1) as [[r s]| |] eqn:E; try discriminate H.
    pose proof (ml_state _ _ _ _ E) as ->. eauto.
Qed.

Section Lowerable.
Variable float_str : float -> string.

Local Abbreviation lowers_iff_lowerable := (lowers_iff_lowerable float_str).

Lemma mapM_lowers_iff (cs : list tree) :
  Forall lowers_iff_lowerable cs ->
  forall st,
    forallb (lowerable float_str (_simpleMemoryLayout st)) cs = true <->
    exists vs st', mapM (visit float_str) cs st = Ok (vs, st').
Proof.
  induction 1 as [|c cs Hc _ IH]; intros st.
  - cbn. split; [eauto | reflexivity].
  - cbn [forallb]. rewrite andb_true_iff, (Hc st). split.
    + intros ((v & s1 & Hv) & Hcs).
      pose proof (visit_lowers_orderly float_str c st v s1 Hv) as (_ & _ & Hs & _).
      rewrite <- Hs in Hcs. apply IH in Hcs as (vs & s2 & Hvs).
      exists (v :: vs), s2. cbn [mapM].
      rewrite (bind_Ok _ _ _ _ _ Hv), (bind_Ok _ _ _ _ _ Hvs). reflexivity.
    + intros (vs & s2 & H).
      apply mapM_cons_inv in H as (v & vs' & s1 & Hv & Hvs & _).
      split; [eauto|].
      pose proof (visit_lowers_orderly float_str c st v s1 Hv) as (_ & _ & Hs & _).
      rewrite <- Hs. apply IH. eauto.
Qed.

Lemma mapM_keeps_switch (cs : list tree) (st st' : AST2ControlFlow) (vs : list Variable_) :
  mapM (visit float_str) cs st = Ok (vs, st') ->
  _simpleMemoryLayout st' = _simpleMemoryLayout st.
Proof.
  intros H.
  assert (Forall (lowers_orderly float_str) cs) as F
    by (apply Forall_forall; intros c _; apply visit_lowers_orderly).
  apply (mapM_lowers_orderly float_str cs F) in H as (_ & _ & Hs & _). exact Hs.
Qed.

Lemma generic_visit_returns (a : attrs) (cs : list tree) :
  Forall lowers_iff_lowerable cs ->
  forall st,
    forallb (lowerable float_str (_simpleMemoryLayout st)) cs
    && has_layout (_simpleMemoryLayout st) a = true <->
    exists v st', generic_visit (visit float_str) (T a cs) st = Ok (v, st').
Proof.
  intros Hcs st. rewrite andb_true_iff, (mapM_lowers_iff cs Hcs st).
  unfold generic_visit. cbn [node_children]. split.
  - intros ((vs & s1 & Hvs) & Hl).
    rewrite <- (mapM_keeps_switch _ _ _ _ Hvs) in Hl.
    pose proof Hl as Hl2.
    apply (nextTemporary_returns (T a cs) s1) in Hl as (res & s2 & Hres).
    pose proof (nextTemporary_inv _ _ _ _ Hres) as (E & _).
    assert (has_layout (_simpleMemoryLayout s2) (node_attrs (T a cs)) = true) as Hl3
      by (rewrite E; exact Hl2).
    apply (ml_returns (T a cs) s2) in Hl3 as (ml & Hml).
    rewrite (bind_Ok _ _ _ _ _ Hvs), (bind_Ok _ _ _ _ _ Hres), (bind_Ok _ _ _ _ _ Hml).
    cbn. eauto.
  - intros (v & st' & H).
    apply bind_inv in H as (vs & s1 & Hvs & H).
    apply bind_inv in H as (res & s2 & Hres & _).
    split; [eauto|].
    rewrite <- (mapM_keeps_switch _ _ _ _ Hvs).
    apply (nextTemporary_returns (T a cs) s1). eauto.
Qed.

Lemma visit_lowers_iff (n : tree) : lowers_iff_lowerable n.
Proof.
  induction n as [a cs IH] using tree_ind_children.
  intros st. cbn [visit lowerable].
  destruct (klass a) eqn:Hk; try (exact (generic_visit_returns a cs IH st)).
  - (* IndexedTensor *)
    unfold visit_IndexedTensor. cbn [node_attrs]. rewrite Hk.
    rewrite (ml_returns (T a cs) st). split.
    + intros [r ->]. cbn. eauto.
    + intros (v & st' & H).
      destruct (_ml (T a cs) st) as [[r s]| |] eqn:E; try discriminate H.
      pose proof (ml_state _ _ _ _ E) as ->. eauto.
  - (* Add *)
    rewrite !andb_true_iff, (mapM_lowers_iff cs IH st).
    unfold visit_Add. cbn [node_children]. split.
    + intros (((vs & s1 & Hvs) & Hlen) & Hl).
      rewrite (bind_Ok _ _ _ _ _ Hvs).
      rewrite (mapM_length _ _ _ _ _ Hvs), Hlen. cbn [negb].
      rewrite <- (mapM_keeps_switch _ _ _ _ Hvs) in Hl.
      apply (nextTemporary_returns (T a cs) s1) in Hl as (tmp & s2 & Htmp).
      rewrite (bind_Ok _ _ _ _ _ Htmp). unfold bind. rewrite add_actions_points.
      cbn. eauto.
    + intros (v & st' & H).
      apply bind_inv in H as (vs & s1 & Hvs & H).
      rewrite (mapM_length _ _ _ _ _ Hvs) in H.
      destruct (1 <? length cs)%nat eqn:Hlen; [|discriminate H]. cbn [negb] in H.
      apply bind_inv in H as (tmp & s2 & Htmp & _).
      split; [split; [eauto | reflexivity]|].
      rewrite <- (mapM_keeps_switch _ _ _ _ Hvs).
      apply (nextTemporary_returns (T a cs) s1). eauto.
  - (* ScalarMultiplication *)
    unfold visit_ScalarMultiplication. cbn [node_children node_attrs]. rewrite Hk.
    destruct cs as [|t cs].
    { split; [discriminate | intros (v & st' & H); discriminate H]. }
    apply Forall_cons in IH as [Ht _].
    rewrite andb_true_iff, (Ht st). split.
    + intros ((var & s1 & Hvar) & Hl).
      pose proof (visit_lowers_orderly float_str t st var s1 Hvar) as (_ & _ & Hs & _).
      rewrite <- Hs in Hl.
      apply (nextTemporary_returns (T a (t :: cs)) s1) in Hl as (res & s2 & Hres).
      rewrite (bind_Ok _ _ _ _ _ Hvar), (bind_Ok _ _ _ _ _ Hres). cbn. eauto.
    + intros (v & st' & H).
      apply bind_inv in H as (var & s1 & Hvar & H).
      apply bind_inv in H as (res & s2 & Hres & _).
      split; [eauto|].
      pose proof (visit_lowers_orderly float_str t st var s1 Hvar) as (_ & _ & Hs & _).
      rewrite <- Hs. apply (nextTemporary_returns (T a (t :: cs)) s1). eauto.
  - (* Assign *)
    unfold visit_Assign. cbn [node_children].
    destruct cs as [|c0 cs].
    { split; [discriminate | intros (v & st' & H); discriminate H]. }
    unfold has_name.
    destruct (node_name float_str (node_attrs c0)) as [nm| |] eqn:Hnm.
    2:{ split; [destruct cs; discriminate | intros (v & st' & H); discriminate H]. }
    2:{ split; [destruct cs; discriminate | intros (v & st' & H); discriminate H]. }
    unfold lift at 1. unfold bind at 1. unfold bind at 1. unfold set_writable at 1.
    pose proof (mapM_lowers_iff (c0 :: cs) IH (register nm st)) as Hm.
    cbn [register _simpleMemoryLayout] in Hm.
    fold (register nm st).
    destruct cs as [|c1 cs].
    + split; [discriminate|]. intros (v & st' & H).
      apply bind_inv in H as (vs & s1 & Hvs & H).
      apply mapM_length in Hvs. destruct vs as [|v0 [|v1 vs]]; try discriminate.
    + cbn [andb]. rewrite Hm. split.
      * intros (vs & s1 & Hvs). rewrite (bind_Ok _ _ _ _ _ Hvs).
        pose proof (mapM_length _ _ _ _ _ Hvs) as Hlen.
        destruct vs as [|v0 [|v1 vs]]; try discriminate Hlen. cbn. eauto.
      * intros (v & st' & H). apply bind_inv in H as (vs & s1 & Hvs & _). eauto.
Qed.

End Lowerable.

(** X12: the traversal of a tree returns a Variable exactly when the tree
    is lowerable for the layout switch of the pass: every visited [Add] has
    at least two children, every visited [ScalarMultiplication] a term,
    every visited [Assign] at least two children and a first child with a
    name, and with the simple layouts every node that gets a Variable has
    its indices. *)
Theorem lowering_returns_iff_lowerable (float_str : float -> string) (node : tree)
    (st : AST2ControlFlow) :
  lowerable float_str (_simpleMemoryLayout st) node = true <->
  exists v st', visit float_str node st = Ok (v, st').
Proof. exact (visit_lowers_iff float_str node st). Qed.

Lemma lowering_returns_iff_lowerable_witness :
  (exists v st',
     visit no_float_str tree_D_is_C_plus_AB (AST2ControlFlow_init true) = Ok (v, st')) /\
  lowerable no_float_str false tree_lonely_sum = false.
Proof.
  split.
  - apply (proj1 (lowering_returns_iff_lowerable no_float_str tree_D_is_C_plus_AB
                    (AST2ControlFlow_init true))).
    reflexivity.
  - destruct (lowerable no_float_str false tree_lonely_sum) eqn:E; [|reflexivity].
    apply (proj1 (lowering_returns_iff_lowerable no_float_str tree_lonely_sum
                    (AST2ControlFlow_init false))) in E as (v & st' & H).
    discriminate H.
Defined.

(** X13: what the pass raises on a malformed node whose children lower
    well.  An [Add] with fewer than two children fails its assertion; a
    [ScalarMultiplication] without child and an [Assign] without child
    raise [IndexError], and so does an [Assign] with one child, after that
    child was lowered; an [Assign] whose first child has no [name] method
    (any class but [IndexedTensor] and [ScalarMultiplication]) raises
    [AttributeError]. *)
Theorem lowering_malformed (float_str : float -> string) (a : attrs) (st : AST2ControlFlow) :
  (klass a = Add ->
   forall cs vs st1,
     mapM (visit float_str) cs st = Ok (vs, st1) -> (length cs <= 1)%nat ->
     visit float_str (T a cs) st = Raise AssertionError) /\
  (isinstance (klass a) TScalarMultiplication = true ->
   visit float_str (T a []) st = Raise IndexError) /\
  (klass a = Assign ->
   visit float_str (T a []) st = Raise IndexError /\
   (forall c0 nm v0 st1,
      node_name float_str (node_attrs c0) = Ok nm ->
      visit float_str c0 (register nm st) = Ok (v0, st1) ->
      visit float_str (T a [c0]) st = Raise IndexError) /\
   (forall c0 cs,
      isinstance (klass (node_attrs c0)) TIndexedTensor = false ->
      isinstance (klass (node_attrs c0)) TScalarMultiplication = false ->
      visit float_str (T a (c0 :: cs)) st = Raise AttributeError)).
Proof.
  split; [|split].
  - intros Hk cs vs st1 Hvs Hlen. cbn [visit]. rewrite Hk.
    unfold visit_Add. cbn [node_children]. rewrite (bind_Ok _ _ _ _ _ Hvs).
    rewrite (mapM_length _ _ _ _ _ Hvs).
    replace (1 <? length cs)%nat with false by (symmetry; apply Nat.ltb_ge; lia).
    reflexivity.
  - intros Hk. cbn [visit]. apply isinstance_tag in Hk.
    destruct (klass a); try discriminate Hk. reflexivity.
  - intros Hk. split; [|split].
    + cbn [visit]. rewrite Hk. reflexivity.
    + intros c0 nm v0 st1 Hnm Hv. cbn [visit]. rewrite Hk.
      unfold visit_Assign. cbn [node_children]. rewrite Hnm.
      unfold lift at 1. unfold bind at 1. unfold bind at 1. unfold set_writable at 1.
      fold (register nm st).
      assert (mapM (visit float_str) [c0] (register nm st) = Ok ([v0], st1)) as Hm.
      { cbn [mapM]. rewrite (bind_Ok _ _ _ _ _ Hv). reflexivity. }
      rewrite (bind_Ok _ _ _ _ _ Hm). reflexivity.
    + intros c0 cs N1 N2. cbn [visit]. rewrite Hk.
      unfold visit_Assign. cbn [node_children].
      assert (node_name float_str (node_attrs c0) = Raise AttributeError) as ->.
      { unfold node_name. destruct (klass (node_attrs c0)); try reflexivity; discriminate. }
      reflexivity.
Qed.

Lemma lowering_malformed_witness :
  visit no_float_str tree_lonely_sum (AST2ControlFlow_init false) = Raise AssertionError /\
  visit no_float_str (op Assign ij [tree_AB; leaf tC ij]) (AST2ControlFlow_init false) =
    Raise AttributeError.
Proof.
  split.
  - refine (proj1 (lowering_malformed no_float_str (op_attrs Add ij)
                     (AST2ControlFlow_init false)) eq_refl [leaf tD ij] _ _ _ _).
    + reflexivity.
    + cbn. lia.
  - exact (proj2 (proj2 (proj2 (proj2 (lowering_malformed no_float_str (op_attrs Assign ij)
             (AST2ControlFlow_init false))) eq_refl)) tree_AB [leaf tC ij] eq_refl eq_refl).
Defined.

(** ** Collection of the global tensors, in general *)

Lemma od_get_set_same (bn : string) (v : option (gset Z)) (d : tensors_t) :
  od_get bn (od_set bn v d) = Some v.
Proof.
  induction d as [|[k w] d IH]; cbn.
  - rewrite String.eqb_refl. reflexivity.
  - destruct (String.eqb k bn) eqn:E; cbn; rewrite E; [reflexivity | exact IH].
Qed.

Lemma od_get_set_other (bn bn' : string) (v : option (gset Z)) (d : tensors_t) :
  bn' <> bn -> od_get bn' (od_set bn v d) = od_get bn' d.
Proof.
  intros Hne. induction d as [|[k w] d IH]; cbn.
  - destruct (String.eqb bn bn') eqn:E; [|reflexivity].
    apply String.eqb_eq in E. congruence.
  - destruct (String.eqb k bn) eqn:E; cbn.
    + apply String.eqb_eq in E. subst k.
      destruct (String.eqb bn bn') eqn:E'; [|reflexivity].
      apply String.eqb_eq in E'. congruence.
    + rewrite IH. reflexivity.
Qed.

Lemma has_tensor_snoc (bn : string) (g : option Z) (seen : list Variable_)
    (v : Variable_) (t : Tensor) :
  v_tensor v = Some t ->
  has_tensor bn g (seen ++ [v]) <->
  has_tensor bn g seen \/ (t_baseName t = bn /\ t_group t = g).
Proof.
  intros Hv. unfold has_tensor. split.
  - intros (x & tx & Hx & Htx & Hb & Hg).
    apply elem_of_app in Hx as [Hx | Hx].
    + left. eauto 10.
    + apply list_elem_of_singleton in Hx. subst x. rewrite Hv in Htx.
      injection Htx as <-. auto.
  - intros [(x & tx & Hx & H) | (Hb & Hg)].
    + exists x, tx. split; [apply elem_of_app; auto | exact H].
    + exists v, t. split; [apply elem_of_app; right; apply list_elem_of_singleton; reflexivity|].
      auto.
Qed.

Lemma describes_not_mixed (d : tensors_t) (variables : list Variable_) :
  describes d variables -> ~ mixes_groups variables.
Proof.
  intros Hd (bn & g & Hg & Hn). specialize (Hd bn).
  destruct (od_get bn d) as [[G|]|].
  - destruct Hd as (H & _). exact (H Hn).
  - destruct Hd as (_ & H). exact (H g Hg).
  - exact (Hd _ Hn).
Qed.

(** One step of the loop: the dictionary goes on describing the variables
    seen, or the step raises and the variables seen are mixed. *)
Lemma collect_tensor_step (d : tensors_t) (seen : list Variable_) (v : Variable_)
    (t : Tensor) :
  describes d seen -> v_tensor v = Some t ->
  (exists d', collect_tensor v d = Ok d' /\ describes d' (seen ++ [v])) \/
  (collect_tensor v d = Raise (NameError "node") /\ mixes_groups (seen ++ [v])).
Proof.
  intros Hd Hv. unfold collect_tensor. rewrite Hv.
  pose proof (Hd (t_baseName t)) as Hbn.
  destruct (od_get (t_baseName t) d) as [[G|]|] eqn:Eget.
  - destruct Hbn as (Hnone & (g1 & Hg1) & HG).
    destruct (t_group t) as [g0|] eqn:Eg.
    + left. eexists. split; [reflexivity|]. intros bn.
      destruct (decide (bn = t_baseName t)) as [->|Hne].
      * rewrite od_get_set_same. split; [|split].
        -- rewrite (has_tensor_snoc _ _ _ _ _ Hv). intros [H | (_ & H)]; [auto | congruence].
        -- exists g1. apply (has_tensor_snoc _ _ _ _ _ Hv). auto.
        -- intros g. rewrite (has_tensor_snoc _ _ _ _ _ Hv), elem_of_union, HG.
           rewrite elem_of_singleton. split.
           ++ intros [H | ->]; [auto | right; auto].
           ++ intros [H | (_ & H)]; [auto | right; congruence].
      * rewrite (od_get_set_other _ _ _ _ Hne). specialize (Hd bn).
        destruct (od_get bn d) as [[G'|]|].
        -- destruct Hd as (H1 & (g2 & H2) & H3). split; [|split].
           ++ rewrite (has_tensor_snoc _ _ _ _ _ Hv). intros [H | (H & _)]; [auto | congruence].
           ++ exists g2. apply (has_tensor_snoc _ _ _ _ _ Hv). auto.
           ++ intros g. rewrite (has_tensor_snoc _ _ _ _ _ Hv), H3. split; [auto|].
              intros [H | (H & _)]; [auto | congruence].
        -- destruct Hd as (H1 & H2). split.
           ++ apply (has_tensor_snoc _ _ _ _ _ Hv). auto.
           ++ intros g. rewrite (has_tensor_snoc _ _ _ _ _ Hv).
              intros [H | (H & _)]; [exact (H2 g H) | congruence].
        -- intros g. rewrite (has_tensor_snoc _ _ _ _ _ Hv).
           intros [H | (H & _)]; [exact (Hd g H) | congruence].
    + right. split; [reflexivity|].
      exists (t_baseName t), g1. split; apply (has_tensor_snoc _ _ _ _ _ Hv); auto.
  - destruct Hbn as (Hnone & Hno).
    destruct (t_group t) as [g0|] eqn:Eg.
    + right. split; [reflexivity|].
      exists (t_baseName t), g0. split; apply (has_tensor_snoc _ _ _ _ _ Hv); auto.
    + left. exists d. split; [reflexivity|]. intros bn. specialize (Hd bn).
      destruct (od_get bn d) as [[G'|]|] eqn:Eb.
      * destruct Hd as (H1 & (g2 & H2) & H3). split; [|split].
        -- rewrite (has_tensor_snoc _ _ _ _ _ Hv). intros [H | (H & _)]; [auto|].
           subst bn. congruence.
        -- exists g2. apply (has_tensor_snoc _ _ _ _ _ Hv). auto.
        -- intros g. rewrite (has_tensor_snoc _ _ _ _ _ Hv), H3. split; [auto|].
           intros [H | (_ & H)]; [auto | congruence].
      * destruct Hd as (H1 & H2). split.
        -- apply (has_tensor_snoc _ _ _ _ _ Hv). auto.
        -- intros g. rewrite (has_tensor_snoc _ _ _ _ _ Hv).
           intros [H | (_ & H)]; [exact (H2 g H) | congruence].
      * intros g. rewrite (has_tensor_snoc _ _ _ _ _ Hv).
        intros [H | (H & _)]; [exact (Hd g H)|].
        subst bn. congruence.
  - left. eexists. split; [reflexivity|]. intros bn.
    destruct (decide (bn = t_baseName t)) as [->|Hne].
    + rewrite od_get_set_same. destruct (t_group t) as [g0|] eqn:Eg.
      * split; [|split].
        -- rewrite (has_tensor_snoc _ _ _ _ _ Hv). intros [H | (_ & H)]; [exact (Hbn _ H) | congruence].
        -- exists g0. apply (has_tensor_snoc _ _ _ _ _ Hv). auto.
        -- intros g. rewrite (has_tensor_snoc _ _ _ _ _ Hv), elem_of_singleton. split.
           ++ intros ->. auto.
           ++ intros [H | (_ & H)]; [destruct (Hbn _ H) | congruence].
      * split.
        -- apply (has_tensor_snoc _ _ _ _ _ Hv). auto.
        -- intros g. rewrite (has_tensor_snoc _ _ _ _ _ Hv).
           intros [H | (_ & H)]; [exact (Hbn _ H) | congruence].
    + rewrite (od_get_set_other _ _ _ _ Hne). specialize (Hd bn).
      destruct (od_get bn d) as [[G'|]|].
      * destruct Hd as (H1 & (g2 & H2) & H3). split; [|split].
        -- rewrite (has_tensor_snoc _ _ _ _ _ Hv). intros [H | (H & _)]; [auto | congruence].
        -- exists g2. apply (has_tensor_snoc _ _ _ _ _ Hv). auto.
        -- intros g. rewrite (has_tensor_snoc _ _ _ _ _ Hv), H3. split; [auto|].
           intros [H | (H & _)]; [auto | congruence].
      * destruct Hd as (H1 & H2). split.
        -- apply (has_tensor_snoc _ _ _ _ _ Hv). auto.
        -- intros g. rewrite (has_tensor_snoc _ _ _ _ _ Hv).
           intros [H | (H & _)]; [exact (H2 g H) | congruence].
      * intros g. rewrite (has_tensor_snoc _ _ _ _ _ Hv).
        intros [H | (H & _)]; [exact (Hd g H) | congruence].
Qed.

Lemma has_tensor_app_l (bn : string) (g : option Z) (l r : list Variable_) :
  has_tensor bn g l -> has_tensor bn g (l ++ r).
Proof.
  intros (v & t & Hv & H). exists v, t. split; [apply elem_of_app; auto | exact H].
Qed.

Lemma collect_tensors_from (rest : list Variable_) :
  Forall (fun v => is_Some (v_tensor v)) rest ->
  forall d seen,
    describes d seen ->
    (exists d', collect_tensors rest d = Ok d' /\ describes d' (seen ++ rest)) \/
    (collect_tensors rest d = Raise (NameError "node") /\ mixes_groups (seen ++ rest)).
Proof.
  induction 1 as [|v rest [t Hv] _ IH]; intros d seen Hd.
  - left. exists d. rewrite app_nil_r. auto.
  - cbn [collect_tensors].
    destruct (collect_tensor_step d seen v t Hd Hv) as [(d' & -> & Hd') | (-> & Hmix)].
    + cbn [rbind]. replace (seen ++ v :: rest) with ((seen ++ [v]) ++ rest)
        by (rewrite <- app_assoc; reflexivity).
      apply IH, Hd'.
    + right. split; [reflexivity|].
      destruct Hmix as (bn & g & H1 & H2). exists bn, g.
      replace (seen ++ v :: rest) with ((seen ++ [v]) ++ rest)
        by (rewrite <- app_assoc; reflexivity).
      split; apply has_tensor_app_l; assumption.
Qed.

(** X14: on global variables the collection loop of [generate] is stopped
    (by the [NameError] of its [raise] statement) exactly when some base
    name has a grouped and a single tensor.  Otherwise it returns a
    dictionary whose keys are the base names met, with [None] for a base
    name of single tensors and the set of all groups met for a base name of
    grouped tensors. *)
Theorem collection_describes_or_detects (variables : list Variable_) :
  Forall (fun v => is_Some (v_tensor v)) variables ->
  (mixes_groups variables <-> collect_tensors variables [] = Raise (NameError "node")) /\
  (~ mixes_groups variables <->
   exists d, collect_tensors variables [] = Ok d /\ describes d variables).
Proof.
  intros Hg.
  assert (describes [] []) as H0.
  { intros bn. cbn. intros g (v & t & Hv & _). apply elem_of_nil in Hv. exact Hv. }
  destruct (collect_tensors_from variables Hg [] [] H0) as [(d & Hd & HD) | (Hr & Hm)];
    cbn [app] in *.
  - pose proof (describes_not_mixed _ _ HD) as Hn. split; split.
    + intros Hm. destruct (Hn Hm).
    + rewrite Hd. discriminate.
    + intros _. eauto.
    + intros _. exact Hn.
  - split; split.
    + intros _. exact Hr.
    + intros _. exact Hm.
    + intros Hn. destruct (Hn Hm).
    + intros (d & Hd & _). rewrite Hr in Hd. discriminate.
Qed.

(** [Q(0)], [Q(0)] again and [C]: the base name [Q] has the group 0 and [C]
    is single; with the single [Q] added the base name [Q] is mixed. *)
Lemma collection_describes_or_detects_witness :
  (exists d, collect_tensors [var_Q0; var_Q0; var_C] [] = Ok d /\
             describes d [var_Q0; var_Q0; var_C]) /\
  collect_tensors [var_Q0; var_C; var_Q] [] = Raise (NameError "node").
Proof.
  split.
  - apply (proj2 (collection_describes_or_detects [var_Q0; var_Q0; var_C]
                    ltac:(repeat constructor; eexists; reflexivity))).
    intros (bn & g & (x & tx & Hx & Htx & Hb & Hgx) & (y & ty & Hy & Hty & Hb' & Hgy)).
    apply list_elem_of_In in Hx, Hy. cbn in Hx, Hy.
    destruct Hy as [<- | [<- | [<- | []]]]; injection Hty as <-; try discriminate Hgy.
    destruct Hx as [<- | [<- | [<- | []]]]; injection Htx as <-; try discriminate Hgx.
    all: cbn in Hb, Hb'; congruence.
  - apply (proj1 (collection_describes_or_detects [var_Q0; var_C; var_Q]
                    ltac:(repeat constructor; eexists; reflexivity))).
    exists "Q"%string, 0. split.
    + exists var_Q0, tQ0. repeat split. apply list_elem_of_In. cbn. auto.
    + exists var_Q, tQ. repeat split. apply list_elem_of_In. cbn. auto.
Defined.

(** ** More on FLOP accounting *)

Lemma patterns_of_set_children (h : heap) (s : loc) (o : object) (cs : list loc)
    (ls : list loc) :
  h !! s = Some o ->
  patterns_of (<[s := mkObject (o_attrs o) cs]> h) ls = patterns_of h ls.
Proof.
  intros Hs. induction ls as [|l ls IH]; [reflexivity|].
  cbn [patterns_of]. rewrite IH.
  destruct (decide (s = l)) as [<-|Hne].
  - rewrite (lookup_insert_same _ _ _ _ Hs), Hs. reflexivity.
  - rewrite list_lookup_insert_ne by exact Hne. reflexivity.
Qed.

Lemma patterns_of_Permutation (h : heap) (ls ls' : list loc) (ps : list spp) :
  Permutation ls ls' -> patterns_of h ls = Some ps ->
  exists ps', patterns_of h ls' = Some ps' /\ sum_nonzero ps' = sum_nonzero ps.
Proof.
  intros HP. revert ps. induction HP as [|x l l' _ IH|x y l|l l' l'' _ IH1 _ IH2]; intros ps H.
  - eauto.
  - cbn [patterns_of] in *.
    destruct (h !! x) as [o|]; [|discriminate].
    destruct (patterns_of h l) as [ps0|]; [|discriminate].
    destruct (IH _ eq_refl) as (ps' & -> & E).
    destruct (_eqspp (o_attrs o)) as [p|]; [|discriminate].
    injection H as <-. eexists. split; [reflexivity|].
    unfold sum_nonzero in *. cbn [foldr]. rewrite E. reflexivity.
  - cbn [patterns_of] in *.
    destruct (h !! y) as [oy|]; [|discriminate].
    destruct (h !! x) as [ox|]; [|destruct (patterns_of h l); discriminate].
    destruct (patterns_of h l) as [ps0|]; [|discriminate].
    destruct (_eqspp (o_attrs ox)) as [px|]; [|destruct (_eqspp (o_attrs oy)); discriminate].
    destruct (_eqspp (o_attrs oy)) as [py|]; [|discriminate].
    injection H as <-. eexists. split; [reflexivity|].
    unfold sum_nonzero. cbn [foldr]. lia.
  - destruct (IH1 _ H) as (ps1 & H1 & E1). destruct (IH2 _ H1) as (ps2 & H2 & E2).
    exists ps2. split; [exact H2 | congruence].
Qed.

(** X15: the non-zero FLOPs of an [Add] do not depend on the order of its
    children: replacing its child list by a permutation of it leaves the
    count as it was. *)
Theorem Add_flops_order_independent (h : heap) (s : loc) (o : object) (r : spp)
    (ps : list spp) (cs' : list loc) :
  h !! s = Some o -> _eqspp (o_attrs o) = Some r ->
  patterns_of h (_children o) = Some ps ->
  Permutation (_children o) cs' ->
  Add_nonZeroFlops s h = Ok (sum_nonzero ps - count_nonzero r, h) /\
  Add_nonZeroFlops s (<[s := mkObject (o_attrs o) cs']> h) =
    Ok (sum_nonzero ps - count_nonzero r, <[s := mkObject (o_attrs o) cs']> h).
Proof.
  intros Hs Hr Hps HP.
  assert (forall h0 o0 ps0,
            h0 !! s = Some o0 -> _eqspp (o_attrs o0) = Some r ->
            patterns_of h0 (_children o0) = Some ps0 ->
            Add_nonZeroFlops s h0 = Ok (sum_nonzero ps0 - count_nonzero r, h0)) as K.
  { intros h0 o0 ps0 H0 Hr0 Hp0. unfold Add_nonZeroFlops.
    rewrite (bind_Ok _ _ _ _ _ (get_Some _ _ _ H0)).
    rewrite (bind_Ok _ _ _ _ _ (sum_children_nonzero_patterns _ _ _ 0 Hp0)).
    rewrite (bind_Ok _ _ _ _ _ (eqspp_Some _ _ _ H0)). rewrite Hr0. reflexivity. }
  split; [exact (K h o ps Hs Hr Hps)|].
  destruct (patterns_of_Permutation h _ _ ps HP Hps) as (ps' & Hps' & E).
  rewrite <- E.
  apply (K _ (mkObject (o_attrs o) cs') ps' (lookup_insert_same _ _ _ _ Hs) Hr).
  cbn [_children]. rewrite (patterns_of_set_children _ _ _ _ _ Hs). exact Hps'.
Qed.

(** The [Add] of [store_flops] with its children swapped costs 1 as
    before. *)
Lemma Add_flops_order_independent_witness :
  Add_nonZeroFlops 3%nat store_flops = Ok (1, store_flops) /\
  Add_nonZeroFlops 3%nat
    (<[3%nat := with_pattern [true; true; true; false; false; false]
                  (fresh_op Add [1; 0]%nat)]> store_flops) =
    Ok (1, <[3%nat := with_pattern [true; true; true; false; false; false]
                        (fresh_op Add [1; 0]%nat)]> store_flops).
Proof.
  refine (Add_flops_order_independent store_flops 3%nat _ _ _ [1; 0]%nat
            eq_refl eq_refl eq_refl _).
  apply perm_swap.
Defined.

Lemma sum_children_nonzero_missing (h : heap) (ls : list loc) (acc : Z) :
  Forall (fun l => is_Some (h !! l)) ls ->
  patterns_of h ls = None ->
  sum_children_nonzero ls acc h = Raise AttributeError.
Proof.
  intros Hall. revert acc. induction Hall as [|l ls [o Hl] _ IH]; intros acc Hp.
  - discriminate Hp.
  - cbn [patterns_of] in Hp. rewrite Hl in Hp. cbn [sum_children_nonzero].
    rewrite (bind_Ok _ _ _ _ _ (eqspp_Some _ _ _ Hl)).
    destruct (_eqspp (o_attrs o)) as [p|]; [|reflexivity].
    cbn [spp_count_nonzero]. unfold bind at 1. unfold ret at 1.
    apply IH. destruct (patterns_of h ls); [discriminate | reflexivity].
Qed.

(** X16: the non-zero FLOPs of an [Add] whose children are in the store
    can be asked for exactly when the sparsity patterns of all children and
    of the node are there; with any of them missing the query raises
    [AttributeError]. *)
Theorem Add_flops_need_patterns (h : heap) (s : loc) (o : object) :
  h !! s = Some o ->
  Forall (fun l => is_Some (h !! l)) (_children o) ->
  ((exists n, Add_nonZeroFlops s h = Ok (n, h)) <->
   is_Some (patterns_of h (_children o)) /\ is_Some (_eqspp (o_attrs o))) /\
  (patterns_of h (_children o) = None \/ _eqspp (o_attrs o) = None ->
   Add_nonZeroFlops s h = Raise AttributeError).
Proof.
  intros Hs Hall.
  assert (patterns_of h (_children o) = None \/ _eqspp (o_attrs o) = None ->
          Add_nonZeroFlops s h = Raise AttributeError) as Hfail.
  { intros Hmiss. unfold Add_nonZeroFlops.
    rewrite (bind_Ok _ _ _ _ _ (get_Some _ _ _ Hs)).
    destruct (patterns_of h (_children o)) as [ps|] eqn:Hps.
    - destruct Hmiss as [Hm | Hm]; [discriminate|].
      rewrite (bind_Ok _ _ _ _ _ (sum_children_nonzero_patterns _ _ _ 0 Hps)).
      rewrite (bind_Ok _ _ _ _ _ (eqspp_Some _ _ _ Hs)). rewrite Hm. reflexivity.
    - rewrite (bind_Raise _ _ _ _ (sum_children_nonzero_missing _ _ 0 Hall Hps)).
      reflexivity. }
  split; [|exact Hfail]. split.
  - intros (n & Hn).
    destruct (patterns_of h (_children o)) as [ps|] eqn:Hps.
    + destruct (_eqspp (o_attrs o)) as [r|] eqn:Hr; [split; eauto|].
      rewrite (Hfail (or_intror eq_refl)) in Hn. discriminate.
    + rewrite (Hfail (or_introl eq_refl)) in Hn. discriminate.
  - intros ([ps Hps] & [r Hr]). eexists. unfold Add_nonZeroFlops.
    rewrite (bind_Ok _ _ _ _ _ (get_Some _ _ _ Hs)).
    rewrite (bind_Ok _ _ _ _ _ (sum_children_nonzero_patterns _ _ _ 0 Hps)).
    rewrite (bind_Ok _ _ _ _ _ (eqspp_Some _ _ _ Hs)). rewrite Hr. reflexivity.
Qed.

(** In the store of [X], [Y], [Z] no pattern is set: the FLOPs of [X + Y]
    cannot be asked for. *)
Lemma Add_flops_need_patterns_witness :
  Add_nonZeroFlops 3%nat (store_XYZ ++ [fresh_op Add [0; 1]%nat]) = Raise AttributeError.
Proof.
  refine (proj2 (Add_flops_need_patterns (store_XYZ ++ [fresh_op Add [0; 1]%nat]) 3%nat _
                   eq_refl _) _).
  - repeat constructor; eexists; reflexivity.
  - left. reflexivity.
Defined.

(** ** Names of temporaries *)

Lemma str_nat_inj (n m : nat) : str_nat n = str_nat m -> n = m.
Proof.
  unfold str_nat. intros H.
  assert (forall k, NilZero.uint_of_string (NilZero.string_of_uint (Nat.to_uint k)) =
                    Some (Nat.to_uint k)) as U.
  { intros k. apply NilZero.usu.
    rewrite <- (DecimalNat.Unsigned.of_to k) at 1.
    rewrite DecimalNat.Unsigned.to_of. apply DecimalFacts.unorm_nonnil. }
  pose proof (U n) as Un. rewrite H, U in Un. injection Un as Un.
  symmetry. apply DecimalNat.Unsigned.to_uint_inj, Un.
Qed.

(** X17: the name of a temporary is fixed by the counter of the pass at
    the moment it is taken, and two temporaries have the same name only if
    they were taken at the same counter value; as every temporary moves the
    counter on, one pass instance never issues a name twice. *)
Theorem temporaries_named_by_counter (node node' : tree) (st s st' s' : AST2ControlFlow)
    (v v' : Variable_) :
  _nextTemporary node st = Ok (v, s) ->
  _nextTemporary node' st' = Ok (v', s') ->
  _tmp s = S (_tmp st) /\
  (v_name v = v_name v' <-> _tmp st = _tmp st').
Proof.
  intros H H'.
  apply nextTemporary_inv in H as (-> & Hn & _).
  apply nextTemporary_inv in H' as (-> & Hn' & _).
  split; [reflexivity|]. rewrite Hn, Hn'. split.
  - unfold TEMPORARY_RESULT. cbn [String.append]. intros E.
    injection E as E. apply str_nat_inj, E.
  - intros ->. reflexivity.
Qed.

Lemma temporaries_named_by_counter_witness :
  _tmp (mkPass 2 [point_AB] ∅ false) = S (_tmp pass_after_AB) /\
  (v_name var_tmp1 = v_name var_tmp0 <->
   _tmp pass_after_AB = _tmp (AST2ControlFlow_init false)).
Proof.
  refine (temporaries_named_by_counter tree_D_plus_AB tree_AB pass_after_AB
            (mkPass 2 [point_AB] ∅ false) (AST2ControlFlow_init false)
            (mkPass 1 [] ∅ false) var_tmp1 var_tmp0 _ _); reflexivity.
Defined.

(** ** Chains of products under one wrapper *)

(** X18: multiplying a [ScalarMultiplication] [s] over a term [t] by two
    further factors, [(s * e1) * e2], none of [t], [e1], [e2] being an
    [Einsum] or a [ScalarMultiplication], returns [s] itself both times: in
    the end its term is one new [Einsum] with the children [[t; e1; e2]],
    and that [Einsum] is the only object added. *)
Theorem scaled_product_stays_flat (fuel : nat) (h : heap) (s t e1 e2 : loc)
    (o ot o1 o2 : object) (rest : list loc) :
  h !! s = Some o -> _children o = t :: rest ->
  isinstance (klass (o_attrs o)) TScalarMultiplication = true ->
  h !! t = Some ot -> h !! e1 = Some o1 -> h !! e2 = Some o2 ->
  isinstance (klass (o_attrs ot)) TScalarMultiplication = false ->
  isinstance (klass (o_attrs o1)) TScalarMultiplication = false ->
  isinstance (klass (o_attrs o2)) TScalarMultiplication = false ->
  isinstance (klass (o_attrs ot)) TEinsum = false ->
  isinstance (klass (o_attrs o1)) TEinsum = false ->
  isinstance (klass (o_attrs o2)) TEinsum = false ->
  exists h',
    mul_chain (S (S (S fuel))) s e1 e2 h = Ok (s, h') /\
    h' !! s = Some (merged_wrapper o (length h)) /\
    h' !! length h = Some (fresh_op Einsum [t; e1; e2]) /\
    length h' = S (length h).
Proof.
  intros Hs Hc Is Ht H1 H2 Nt N1 N2 Et E1 E2.
  pose proof (lookup_lt_Some _ _ _ Hs) as Ls.
  pose proof (lookup_lt_Some _ _ _ H2) as L2.
  assert (s <> e2) as Hse2.
  { intros ->. rewrite Hs in H2. injection H2 as <-. congruence. }
  (* first factor *)
  destruct (mul_plain_merges fuel h s t e1 o ot o1 rest Hs Hc Is Ht H1 Nt N1)
    as ((p & h1 & Hb & _ & Hm) & _).
  rewrite (binOp_fresh h t e1 ot o1 Einsum Ht H1 Et E1) in Hb. injection Hb as <- <-.
  set (ha := h ++ [fresh_op Einsum [t; e1]]) in *.
  set (hb := <[s := merged_wrapper o (length h)]> ha) in *.
  assert (ha !! s = Some o) as Hsa by (apply lookup_alloc_old, Hs).
  assert (hb !! s = Some (merged_wrapper o (length h))) as Hsb
    by (apply (lookup_insert_same _ _ _ _ Hsa)).
  assert (hb !! length h = Some (fresh_op Einsum [t; e1])) as Htb.
  { unfold hb. rewrite list_lookup_insert_ne by lia. apply lookup_alloc_new. }
  assert (hb !! e2 = Some o2) as H2b.
  { unfold hb. rewrite list_lookup_insert_ne by exact Hse2. apply lookup_alloc_old, H2. }
  (* second factor *)
  destruct (mul_plain_merges fuel hb s (length h) e2 (merged_wrapper o (length h))
              (fresh_op Einsum [t; e1]) o2 (tail (_children o))
              Hsb eq_refl Is Htb H2b eq_refl N2)
    as ((p' & h3 & Hb' & _ & Hm') & _).
  rewrite (binOp_left_absorbs hb (length h) e2 (fresh_op Einsum [t; e1]) o2 Einsum
             Htb H2b eq_refl) in Hb'.
  change (tag_of Einsum) with TEinsum in Hb'. rewrite E2 in Hb'.
  injection Hb' as <- <-.
  eexists. split.
  { unfold mul_chain. rewrite (bind_Ok _ _ _ _ _ Hm). exact Hm'. }
  assert (length hb = S (length h)) as Lb.
  { unfold hb, ha. rewrite length_insert, length_app. cbn. lia. }
  split; [|split].
  - rewrite list_lookup_insert_eq by (rewrite length_insert; lia).
    unfold merged_wrapper. cbn [o_attrs klass _eqspp _memoryLayout prefetch _children tail].
    reflexivity.
  - rewrite list_lookup_insert_ne by lia.
    rewrite list_lookup_insert_eq by lia. reflexivity.
  - rewrite !length_insert. exact Lb.
Qed.

(** In the store of [s = 3 * X]: [(s * Y) * Z] is [s] over the [Einsum] of
    [X], [Y], [Z] at location 4. *)
Lemma scaled_product_stays_flat_witness :
  exists h',
    mul_chain 3 3%nat 1%nat 2%nat store_3X = Ok (3%nat, h') /\
    h' !! 3%nat = Some (mkObject
      (mkAttrs (ScalarMultiplication true (PyFloat (S754_finite false 6755399441055744 (-51))))
               None None None None) [4%nat]) /\
    h' !! 4%nat = Some (fresh_op Einsum [0; 1; 2]%nat) /\
    length h' = 5%nat.
Proof.
  exact (scaled_product_stays_flat 0 store_3X 3%nat 0%nat 1%nat 2%nat _ _ _ _ []
           store_3X_wrapper eq_refl eq_refl eq_refl eq_refl eq_refl
           eq_refl eq_refl eq_refl eq_refl eq_refl eq_refl).
Defined.

(** ** The pattern of a scaled term *)

(** X19: a [ScalarMultiplication] takes the sparsity pattern of its term
    when it computes its own from its children.  Once that is set, its
    non-zero FLOPs are 0 for the constants 1.0 and -1.0 and the non-zero
    count of the term's pattern for every other scalar; when the term has
    no pattern yet and the scalar is not such a constant, asking for the
    FLOPs raises [AttributeError]. *)
Theorem scaled_flops_follow_term (h : heap) (s t : loc) (o ot : object) (c : bool)
    (v : pyval) (rest : list loc) :
  h !! s = Some o -> klass (o_attrs o) = ScalarMultiplication c v ->
  _children o = t :: rest -> h !! t = Some ot ->
  ScalarMultiplication_computeSparsityPattern s [] h = Ok (_eqspp (o_attrs ot), h) /\
  (c && in_minus_one_one v = true ->
   scaled_flops s h = Ok (0, <[s := with_eqspp (_eqspp (o_attrs ot)) o]> h)) /\
  (c && in_minus_one_one v = false ->
   (forall p, _eqspp (o_attrs ot) = Some p ->
      scaled_flops s h =
        Ok (count_nonzero p, <[s := with_eqspp (_eqspp (o_attrs ot)) o]> h)) /\
   (_eqspp (o_attrs ot) = None -> scaled_flops s h = Raise AttributeError)).
Proof.
  intros Hs Hk Hc Ht.
  assert (ScalarMultiplication_computeSparsityPattern s [] h =
            Ok (_eqspp (o_attrs ot), h)) as Hp.
  { unfold ScalarMultiplication_computeSparsityPattern.
    rewrite (bind_Ok _ _ _ _ _ (term_Some _ _ _ _ _ Hs Hc)).
    apply (eqspp_Some _ _ _ Ht). }
  assert (setEqspp s (_eqspp (o_attrs ot)) h =
            Ok (tt, <[s := with_eqspp (_eqspp (o_attrs ot)) o]> h)) as Hset.
  { unfold setEqspp. rewrite (bind_Ok _ _ _ _ _ (get_Some _ _ _ Hs)). reflexivity. }
  set (h' := <[s := with_eqspp (_eqspp (o_attrs ot)) o]> h) in *.
  assert (h' !! s = Some (with_eqspp (_eqspp (o_attrs ot)) o)) as Hs'
    by (apply (lookup_insert_same _ _ _ _ Hs)).
  split; [exact Hp|].
  unfold scaled_flops. rewrite (bind_Ok _ _ _ _ _ Hp), (bind_Ok _ _ _ _ _ Hset).
  unfold ScalarMultiplication_nonZeroFlops.
  rewrite (bind_Ok _ _ _ _ _ (class_of_Some _ _ _ Hs')).
  cbn [with_eqspp o_attrs klass]. rewrite Hk.
  split.
  - intros ->. reflexivity.
  - intros ->. rewrite (bind_Ok _ _ _ _ _ (eqspp_Some _ _ _ Hs')).
    cbn [with_eqspp o_attrs _eqspp]. split.
    + intros p ->. reflexivity.
    + intros ->. reflexivity.
Qed.

(** [0.5 * Z] with three non-zeros in [Z] costs 3. *)
Lemma scaled_flops_follow_term_witness :
  scaled_flops 3%nat store_scaled =
    Ok (3, <[3%nat := with_eqspp (Some [true; false; true; true; false; false])
                        (fresh_op (ScalarMultiplication true (PyFloat float_half))
                                  [2%nat])]> store_scaled).
Proof.
  refine (proj1 (proj2 (proj2 (scaled_flops_follow_term store_scaled 3%nat 2%nat _ _
                                 true (PyFloat float_half) [] eq_refl eq_refl eq_refl eq_refl))
                  _) _ eq_refl).
  vm_compute. reflexivity.
Defined.
